(** * QDirStat [DirInfo]: a heap model of the directory tree node

    This development embeds [DirInfo.cpp] (class [DirInfo], a directory
    node of the QDirStat tree) in Rocq and proves properties of its
    operations.

    The C++ objects live in a store: a finite map from addresses to
    [FileInfo] records.  Pointers are [option addr] ([None] is the null
    pointer), so the intrusive sibling list ([_next]), the parent
    back-reference ([_parent]) and the owned dot entry ([_dotEntry]) are
    modelled with their aliasing.  Every method is a function in a small
    state-and-failure monad over the store; recursion along pointers takes
    an explicit amount of fuel and fails when it runs out.  A failure also
    stands for dereferencing a null or dangling pointer.

    The integer members are values of [Z].  The additions to the summary
    members are reduced to the width of the member, [asKFileSize] for
    [_totalSize] and [_totalBlocks] and [asInt] for the three counts: an
    overflowing signed addition is undefined in C++, and the model takes
    the two's complement result the compiled code stores.  [time_t] values
    are only copied and compared.  The counter [_pendingReadJobs], which
    moves in steps of one from the 0 of [init()], is not reduced. *)

From Stdlib Require Import ZArith Lia.
From stdpp Require Import gmap strings list.

Local Open Scope Z_scope.

(** ** Data model *)

Definition addr := positive.
Bind Scope positive_scope with addr.

(** [KDirReadState] of the source. *)
Inductive KDirReadState :=
  | KDirQueued
  | KDirReading
  | KDirFinished
  | KDirAborted.

#[global] Instance KDirReadState_eq_dec : EqDecision KDirReadState.
Proof. solve_decision. Defined.

(** The file type bits of [st_mode], as far as [isDir()] ([S_ISDIR]) and
    [isFile()] ([S_ISREG]) look at them. *)
Inductive FileMode :=
  | ModeDir
  | ModeRegular
  | ModeOther.

#[global] Instance FileMode_eq_dec : EqDecision FileMode.
Proof. solve_decision. Defined.

(** The members [DirInfo] adds to [FileInfo]. *)
Record DirInfo := mkDirInfo {
  _isDotEntry : bool;
  _pendingReadJobs : Z;
  _dotEntry : option addr;
  _firstChild : option addr;
  _totalSize : Z;
  _totalBlocks : Z;
  _totalItems : Z;
  _totalSubDirs : Z;
  _totalFiles : Z;
  _latestMtime : Z;
  _isMountPoint : bool;
  _isExcluded : bool;
  _summaryDirty : bool;
  _beingDestroyed : bool;
  _readState : KDirReadState
}.

(** An object of the tree.  [_dir] is [Some] exactly when the dynamic type
    of the object is [DirInfo] (what [dynamic_cast<DirInfo *>] tests); the
    mode is independent of it, as in the source. *)
Record FileInfo := mkFileInfo {
  _name : string;
  _mode : FileMode;
  _size : Z;
  _blocks : Z;
  _mtime : Z;
  _parent : option addr;
  _next : option addr;
  _dir : option DirInfo
}.

(** *** Integer widths

    A signed integer of [bits] bits holding [z]: the two's complement
    representative of [z] in [-2^(bits-1) .. 2^(bits-1) - 1]. *)
Definition wrapSigned (bits : Z) (z : Z) : Z :=
  (z + 2 ^ (bits - 1)) mod 2 ^ bits - 2 ^ (bits - 1).

(** [KFileSize], the type of [_size], [_blocks], [_totalSize] and
    [_totalBlocks] (the return type of [totalSize()] and [totalBlocks()]),
    is declared in kfileinfo.h, not among the sources, where it is
    [long long]: 8 bytes.  The counts are [int]: 4 bytes. *)
Definition asKFileSize : Z -> Z := wrapSigned 64.
Definition asInt : Z -> Z := wrapSigned 32.

Definition KFileSize_MIN : Z := - 2 ^ 63.
Definition KFileSize_MAX : Z := 2 ^ 63 - 1.
Definition INT_MIN : Z := - 2 ^ 31.
Definition INT_MAX : Z := 2 ^ 31 - 1.

(** Lines written to [logError()]. *)
Inductive LogLine :=
  | NotAChild (deletedChild this : addr)
  | CouldntUnlink (deletedChild this : addr).

(** The store together with the observable traces: the error log, the
    [sendFinalizeLocal] notifications received by the tree, and (as an
    instrumentation, not a member of the source) the list of nodes on
    which [recalc()] was entered, latest first. *)
Record World := mkWorld {
  heap : gmap addr FileInfo;
  errors : list LogLine;
  finalizeLocalSent : list addr;
  recalcs : list addr
}.

(** *** Field updates *)

Definition set_parent (p : option addr) (fi : FileInfo) : FileInfo :=
  mkFileInfo (_name fi) (_mode fi) (_size fi) (_blocks fi) (_mtime fi)
             p (_next fi) (_dir fi).

Definition set_next (n : option addr) (fi : FileInfo) : FileInfo :=
  mkFileInfo (_name fi) (_mode fi) (_size fi) (_blocks fi) (_mtime fi)
             (_parent fi) n (_dir fi).

Definition set_dir (d : DirInfo) (fi : FileInfo) : FileInfo :=
  mkFileInfo (_name fi) (_mode fi) (_size fi) (_blocks fi) (_mtime fi)
             (_parent fi) (_next fi) (Some d).

Definition set_name (n : string) (fi : FileInfo) : FileInfo :=
  mkFileInfo n (_mode fi) (_size fi) (_blocks fi) (_mtime fi)
             (_parent fi) (_next fi) (_dir fi).

Definition set_isDotEntry (v : bool) (d : DirInfo) : DirInfo :=
  mkDirInfo v (_pendingReadJobs d) (_dotEntry d) (_firstChild d)
            (_totalSize d) (_totalBlocks d) (_totalItems d) (_totalSubDirs d)
            (_totalFiles d) (_latestMtime d) (_isMountPoint d) (_isExcluded d)
            (_summaryDirty d) (_beingDestroyed d) (_readState d).

Definition set_pendingReadJobs (v : Z) (d : DirInfo) : DirInfo :=
  mkDirInfo (_isDotEntry d) v (_dotEntry d) (_firstChild d)
            (_totalSize d) (_totalBlocks d) (_totalItems d) (_totalSubDirs d)
            (_totalFiles d) (_latestMtime d) (_isMountPoint d) (_isExcluded d)
            (_summaryDirty d) (_beingDestroyed d) (_readState d).

Definition set_dotEntry (v : option addr) (d : DirInfo) : DirInfo :=
  mkDirInfo (_isDotEntry d) (_pendingReadJobs d) v (_firstChild d)
            (_totalSize d) (_totalBlocks d) (_totalItems d) (_totalSubDirs d)
            (_totalFiles d) (_latestMtime d) (_isMountPoint d) (_isExcluded d)
            (_summaryDirty d) (_beingDestroyed d) (_readState d).

Definition set_firstChild (v : option addr) (d : DirInfo) : DirInfo :=
  mkDirInfo (_isDotEntry d) (_pendingReadJobs d) (_dotEntry d) v
            (_totalSize d) (_totalBlocks d) (_totalItems d) (_totalSubDirs d)
            (_totalFiles d) (_latestMtime d) (_isMountPoint d) (_isExcluded d)
            (_summaryDirty d) (_beingDestroyed d) (_readState d).

Definition set_totalSize (v : Z) (d : DirInfo) : DirInfo :=
  mkDirInfo (_isDotEntry d) (_pendingReadJobs d) (_dotEntry d) (_firstChild d)
            v (_totalBlocks d) (_totalItems d) (_totalSubDirs d)
            (_totalFiles d) (_latestMtime d) (_isMountPoint d) (_isExcluded d)
            (_summaryDirty d) (_beingDestroyed d) (_readState d).

Definition set_totalBlocks (v : Z) (d : DirInfo) : DirInfo :=
  mkDirInfo (_isDotEntry d) (_pendingReadJobs d) (_dotEntry d) (_firstChild d)
            (_totalSize d) v (_totalItems d) (_totalSubDirs d)
            (_totalFiles d) (_latestMtime d) (_isMountPoint d) (_isExcluded d)
            (_summaryDirty d) (_beingDestroyed d) (_readState d).

Definition set_totalItems (v : Z) (d : DirInfo) : DirInfo :=
  mkDirInfo (_isDotEntry d) (_pendingReadJobs d) (_dotEntry d) (_firstChild d)
            (_totalSize d) (_totalBlocks d) v (_totalSubDirs d)
            (_totalFiles d) (_latestMtime d) (_isMountPoint d) (_isExcluded d)
            (_summaryDirty d) (_beingDestroyed d) (_readState d).

Definition set_totalSubDirs (v : Z) (d : DirInfo) : DirInfo :=
  mkDirInfo (_isDotEntry d) (_pendingReadJobs d) (_dotEntry d) (_firstChild d)
            (_totalSize d) (_totalBlocks d) (_totalItems d) v
            (_totalFiles d) (_latestMtime d) (_isMountPoint d) (_isExcluded d)
            (_summaryDirty d) (_beingDestroyed d) (_readState d).

Definition set_totalFiles (v : Z) (d : DirInfo) : DirInfo :=
  mkDirInfo (_isDotEntry d) (_pendingReadJobs d) (_dotEntry d) (_firstChild d)
            (_totalSize d) (_totalBlocks d) (_totalItems d) (_totalSubDirs d)
            v (_latestMtime d) (_isMountPoint d) (_isExcluded d)
            (_summaryDirty d) (_beingDestroyed d) (_readState d).

Definition set_latestMtime (v : Z) (d : DirInfo) : DirInfo :=
  mkDirInfo (_isDotEntry d) (_pendingReadJobs d) (_dotEntry d) (_firstChild d)
            (_totalSize d) (_totalBlocks d) (_totalItems d) (_totalSubDirs d)
            (_totalFiles d) v (_isMountPoint d) (_isExcluded d)
            (_summaryDirty d) (_beingDestroyed d) (_readState d).

Definition set_isMountPoint (v : bool) (d : DirInfo) : DirInfo :=
  mkDirInfo (_isDotEntry d) (_pendingReadJobs d) (_dotEntry d) (_firstChild d)
            (_totalSize d) (_totalBlocks d) (_totalItems d) (_totalSubDirs d)
            (_totalFiles d) (_latestMtime d) v (_isExcluded d)
            (_summaryDirty d) (_beingDestroyed d) (_readState d).

Definition set_summaryDirty (v : bool) (d : DirInfo) : DirInfo :=
  mkDirInfo (_isDotEntry d) (_pendingReadJobs d) (_dotEntry d) (_firstChild d)
            (_totalSize d) (_totalBlocks d) (_totalItems d) (_totalSubDirs d)
            (_totalFiles d) (_latestMtime d) (_isMountPoint d) (_isExcluded d)
            v (_beingDestroyed d) (_readState d).

Definition set_beingDestroyed (v : bool) (d : DirInfo) : DirInfo :=
  mkDirInfo (_isDotEntry d) (_pendingReadJobs d) (_dotEntry d) (_firstChild d)
            (_totalSize d) (_totalBlocks d) (_totalItems d) (_totalSubDirs d)
            (_totalFiles d) (_latestMtime d) (_isMountPoint d) (_isExcluded d)
            (_summaryDirty d) v (_readState d).

Definition set_readState (v : KDirReadState) (d : DirInfo) : DirInfo :=
  mkDirInfo (_isDotEntry d) (_pendingReadJobs d) (_dotEntry d) (_firstChild d)
            (_totalSize d) (_totalBlocks d) (_totalItems d) (_totalSubDirs d)
            (_totalFiles d) (_latestMtime d) (_isMountPoint d) (_isExcluded d)
            (_summaryDirty d) (_beingDestroyed d) v.

Definition with_heap (h : gmap addr FileInfo) (w : World) : World :=
  mkWorld h (errors w) (finalizeLocalSent w) (recalcs w).

(** ** The monad of the methods *)

Definition M (A : Type) : Type := World -> option (A * World).

Definition ret {A} (a : A) : M A := fun w => Some (a, w).

Definition bind {A B} (m : M A) (k : A -> M B) : M B :=
  fun w => match m w with
           | Some (a, w') => k a w'
           | None => None
           end.

Definition fail {A} : M A := fun _ => None.

Declare Scope dirinfo_scope.
Delimit Scope dirinfo_scope with dirinfo.
Notation "'let*' x := m 'in' k" := (bind m (fun x => k))
  (at level 10, x name, m at level 100, k at level 200, only parsing) : dirinfo_scope.
Notation "'run' m 'in' k" := (bind m (fun _ => k))
  (at level 10, m at level 100, k at level 200, only parsing) : dirinfo_scope.
Local Open Scope dirinfo_scope.

(** Dereferencing a pointer to a [FileInfo]. *)
Definition deref (a : addr) : M FileInfo :=
  fun w => match heap w !! a with
           | Some fi => Some (fi, w)
           | None => None
           end.

(** Dereferencing a pointer whose static type is [DirInfo *]. *)
Definition derefDir (a : addr) : M DirInfo :=
  let* fi := deref a in
  match _dir fi with
  | Some d => ret d
  | None => fail
  end.

(** Assigning to members of the [FileInfo] part of [*a]. *)
Definition modify (a : addr) (f : FileInfo -> FileInfo) : M unit :=
  fun w => match heap w !! a with
           | Some fi => Some (tt, with_heap (<[a := f fi]> (heap w)) w)
           | None => None
           end.

(** Assigning to members of the [DirInfo] part of [*a]. *)
Definition modifyDir (a : addr) (f : DirInfo -> DirInfo) : M unit :=
  fun w => match heap w !! a with
           | Some fi =>
               match _dir fi with
               | Some d => Some (tt, with_heap (<[a := set_dir (f d) fi]> (heap w)) w)
               | None => None
               end
           | None => None
           end.

Definition logError (l : LogLine) : M unit :=
  fun w => Some (tt, mkWorld (heap w) (l :: errors w) (finalizeLocalSent w) (recalcs w)).

(** [_tree->sendFinalizeLocal( this )]: the tree records the notification. *)
Definition sendFinalizeLocal (a : addr) : M unit :=
  fun w => Some (tt, mkWorld (heap w) (errors w) (a :: finalizeLocalSent w) (recalcs w)).

(** Instrumentation of the entry of [recalc()]. *)
Definition enterRecalc (a : addr) : M unit :=
  fun w => Some (tt, mkWorld (heap w) (errors w) (finalizeLocalSent w) (a :: recalcs w)).

(** [delete p] frees the object's storage. *)
Definition free (a : addr) : M unit :=
  fun w => match heap w !! a with
           | Some _ => Some (tt, with_heap (delete a (heap w)) w)
           | None => None
           end.

(** ** The [FileInfo] interface

    The class [FileInfo] is declared outside [DirInfo.cpp]. *)

(** Modelled from the spec: the accessors of [FileInfo] (kfileinfo.h, not
    among the sources) only read or write the stored member: "No behavior
    beyond storage". *)
Definition isDir (fi : FileInfo) : bool := bool_decide (_mode fi = ModeDir).
Definition isFile (fi : FileInfo) : bool := bool_decide (_mode fi = ModeRegular).
Definition size (fi : FileInfo) : Z := _size fi.
Definition blocks (fi : FileInfo) : Z := _blocks fi.
Definition mtime (fi : FileInfo) : Z := _mtime fi.
Definition parent (fi : FileInfo) : option addr := _parent fi.
Definition next (fi : FileInfo) : option addr := _next fi.
Definition setParent (a : addr) (p : option addr) : M unit := modify a (set_parent p).
Definition setNext (a : addr) (n : option addr) : M unit := modify a (set_next n).

(** ** Read state and read jobs *)

(** [DirInfo::setReadState] *)
Definition setReadState (this : addr) (newReadState : KDirReadState) : M unit :=
  let* d := derefDir this in
  if bool_decide (_readState d = KDirAborted) && bool_decide (newReadState = KDirFinished)
  then ret tt
  else modifyDir this (set_readState newReadState).

(** [DirInfo::readState] *)
Fixpoint readState (fuel : nat) (this : addr) : M KDirReadState :=
  match fuel with
  | O => fail
  | S fuel =>
      let* fi := deref this in
      match _dir fi with
      | None => fail
      | Some d =>
          match _isDotEntry d, _parent fi with
          | true, Some p => readState fuel p
          | _, _ => ret (_readState d)
          end
      end
  end.

(** [DirInfo::isBusy] *)
Definition isBusy (fuel : nat) (this : addr) : M bool :=
  let* d := derefDir this in
  if (0 <? _pendingReadJobs d) && negb (bool_decide (_readState d = KDirAborted))
  then ret true
  else
    let* r1 := readState fuel this in
    if bool_decide (r1 = KDirReading) then ret true
    else
      let* r2 := readState fuel this in
      if bool_decide (r2 = KDirQueued) then ret true
      else ret false.

(** [DirInfo::isFinished] *)
Definition isFinished (fuel : nat) (this : addr) : M bool :=
  let* b := isBusy fuel this in
  ret (negb b).

(** [DirInfo::readJobAdded] *)
Fixpoint readJobAdded (fuel : nat) (this : addr) : M unit :=
  match fuel with
  | O => fail
  | S fuel =>
      run modifyDir this (fun d => set_pendingReadJobs (_pendingReadJobs d + 1) d) in
      let* fi := deref this in
      match _parent fi with
      | Some p => readJobAdded fuel p
      | None => ret tt
      end
  end.

(** [DirInfo::readJobFinished] *)
Fixpoint readJobFinished (fuel : nat) (this : addr) : M unit :=
  match fuel with
  | O => fail
  | S fuel =>
      run modifyDir this (fun d => set_pendingReadJobs (_pendingReadJobs d - 1) d) in
      let* fi := deref this in
      match _parent fi with
      | Some p => readJobFinished fuel p
      | None => ret tt
      end
  end.

(** [DirInfo::readJobAborted] *)
Fixpoint readJobAborted (fuel : nat) (this : addr) : M unit :=
  match fuel with
  | O => fail
  | S fuel =>
      run modifyDir this (set_readState KDirAborted) in
      let* fi := deref this in
      match _parent fi with
      | Some p => readJobAborted fuel p
      | None => ret tt
      end
  end.

(** [DirInfo::setMountPoint] *)
Definition setMountPoint (this : addr) (isMountPoint : bool) : M unit :=
  modifyDir this (set_isMountPoint isMountPoint).

(** ** Children list *)

(** The summary update of [DirInfo::childAdded]: the body of its
    [if ( ! _summaryDirty )], with [nc] the object [*newChild]. *)
Definition childAdded_summaries (this : addr) (nc : FileInfo) : M unit :=
  run modifyDir this (fun d => set_totalSize (asKFileSize (_totalSize d + size nc)) d) in
  run modifyDir this (fun d => set_totalBlocks (asKFileSize (_totalBlocks d + blocks nc)) d) in
  run modifyDir this (fun d => set_totalItems (asInt (_totalItems d + 1)) d) in
  run (if isDir nc
       then modifyDir this (fun d => set_totalSubDirs (asInt (_totalSubDirs d + 1)) d)
       else ret tt) in
  run (if isFile nc
       then modifyDir this (fun d => set_totalFiles (asInt (_totalFiles d + 1)) d)
       else ret tt) in
  let* d' := derefDir this in
  if _latestMtime d' <? mtime nc
  then modifyDir this (set_latestMtime (mtime nc))
  else ret tt.

(** [DirInfo::childAdded] *)
Fixpoint childAdded (fuel : nat) (this newChild : addr) : M unit :=
  match fuel with
  | O => fail
  | S fuel =>
      let* d := derefDir this in
      let* nc := deref newChild in
      run (if negb (_summaryDirty d)
           then childAdded_summaries this nc
           else ret tt) in
      let* fi := deref this in
      match _parent fi with
      | Some p => childAdded fuel p newChild
      | None => ret tt
      end
  end.

(** [DirInfo::insertChild].  [CHECK_PTR( newChild )] aborts on a null
    pointer; here [newChild] is an address, and a dangling one fails. *)
Fixpoint insertChild (fuel : nat) (this newChild : addr) : M unit :=
  match fuel with
  | O => fail
  | S fuel =>
      let* nc := deref newChild in
      let* d := derefDir this in
      if isDir nc || bool_decide (_dotEntry d = None) || _isDotEntry d then
        run setNext newChild (_firstChild d) in
        run modifyDir this (set_firstChild (Some newChild)) in
        run setParent newChild (Some this) in
        childAdded fuel this newChild
      else
        match _dotEntry d with
        | Some dot => insertChild fuel dot newChild
        | None => fail
        end
  end.

(** The [while ( child )] loop of [DirInfo::unlinkChild]. *)
Fixpoint unlinkChild_scan (fuel : nat) (this deletedChild : addr)
    (child : option addr) : M unit :=
  match child with
  | None => logError (CouldntUnlink deletedChild this)
  | Some c =>
      match fuel with
      | O => fail
      | S fuel =>
          let* cf := deref c in
          if bool_decide (next cf = Some deletedChild) then
            let* dc := deref deletedChild in
            setNext c (next dc)
          else unlinkChild_scan fuel this deletedChild (next cf)
      end
  end.

(** [DirInfo::unlinkChild] *)
Definition unlinkChild (fuel : nat) (this deletedChild : addr) : M unit :=
  let* dc := deref deletedChild in
  if negb (bool_decide (parent dc = Some this)) then
    logError (NotAChild deletedChild this)
  else
    let* d := derefDir this in
    if bool_decide (Some deletedChild = _firstChild d) then
      modifyDir this (set_firstChild (next dc))
    else
      unlinkChild_scan fuel this deletedChild (_firstChild d).

(** [DirInfo::deletingChild] *)
Fixpoint deletingChild (fuel : nat) (this deletedChild : addr) : M unit :=
  match fuel with
  | O => fail
  | S fuel =>
      run modifyDir this (set_summaryDirty true) in
      let* fi := deref this in
      run (match _parent fi with
           | Some p => deletingChild fuel p deletedChild
           | None => ret tt
           end) in
      let* d := derefDir this in
      let* dc := deref deletedChild in
      if negb (_beingDestroyed d) && bool_decide (parent dc = Some this)
      then unlinkChild fuel this deletedChild
      else ret tt
  end.

(** ** Summary fields *)

(** The addresses reached from [p] along [_next]. *)
Fixpoint siblings (fuel : nat) (h : gmap addr FileInfo) (p : option addr)
    : option (list addr) :=
  match p with
  | None => Some []
  | Some a =>
      match fuel with
      | O => None
      | S fuel =>
          match h !! a with
          | Some fi => cons a <$> siblings fuel h (_next fi)
          | None => None
          end
      end
  end.

(** Modelled from the spec: [FileInfoIterator it( this, KDotEntryAsSubDir )]
    (kdirtreeiterators.h, not among the sources).  The spec describes the
    traversal of [recalc()] as one "that treats the dot-entry's children as
    if directly present": the iterator yields the direct children of [this]
    and then the children of its dot entry, and never the dot entry itself.
    The structure of the tree does not change during [recalc()], so the
    items are computed once. *)
Definition FileInfoIterator (fuel : nat) (this : addr) : M (list addr) :=
  let* d := derefDir this in
  fun w =>
    match siblings fuel (heap w) (_firstChild d) with
    | None => None
    | Some direct =>
        match _dotEntry d with
        | None => Some (direct, w)
        | Some dot =>
            match heap w !! dot with
            | Some dfi =>
                match _dir dfi with
                | Some dd =>
                    match siblings fuel (heap w) (_firstChild dd) with
                    | Some inDot => Some (direct ++ inDot, w)
                    | None => None
                    end
                | None => None
                end
            | None => None
            end
        end
    end.

(** A virtual summary accessor: [DirInfo]'s version recalculates a dirty
    summary first and returns the cached field.

    Modelled from the spec: the [FileInfo] version (kfileinfo.h, not among
    the sources), taken by an entry that is not a [DirInfo], returns the
    entry's own value [own]: a plain entry is a subtree with no
    descendant. *)
Definition summaryAccessor (recalc : addr -> M unit)
    (field : DirInfo -> Z) (own : FileInfo -> Z) (this : addr) : M Z :=
  let* fi := deref this in
  match _dir fi with
  | None => ret (own fi)
  | Some d =>
      run (if _summaryDirty d then recalc this else ret tt) in
      let* d' := derefDir this in
      ret (field d')
  end.

(** One round of the [while ( *it )] loop of [DirInfo::recalc]. *)
Definition recalc_item (recalc : addr -> M unit) (this it : addr) : M unit :=
  let* v := summaryAccessor recalc _totalSize size it in
  run modifyDir this (fun d => set_totalSize (asKFileSize (_totalSize d + v)) d) in
  let* v := summaryAccessor recalc _totalBlocks blocks it in
  run modifyDir this (fun d => set_totalBlocks (asKFileSize (_totalBlocks d + v)) d) in
  let* v := summaryAccessor recalc _totalItems (fun _ => 0) it in
  run modifyDir this (fun d => set_totalItems (asInt (_totalItems d + asInt (v + 1))) d) in
  let* v := summaryAccessor recalc _totalSubDirs (fun _ => 0) it in
  run modifyDir this (fun d => set_totalSubDirs (asInt (_totalSubDirs d + v)) d) in
  let* v := summaryAccessor recalc _totalFiles (fun _ => 0) it in
  run modifyDir this (fun d => set_totalFiles (asInt (_totalFiles d + v)) d) in
  let* ifi := deref it in
  run (if isDir ifi
       then modifyDir this (fun d => set_totalSubDirs (asInt (_totalSubDirs d + 1)) d)
       else ret tt) in
  run (if isFile ifi
       then modifyDir this (fun d => set_totalFiles (asInt (_totalFiles d + 1)) d)
       else ret tt) in
  let* childLatestMtime := summaryAccessor recalc _latestMtime mtime it in
  let* d := derefDir this in
  if _latestMtime d <? childLatestMtime
  then modifyDir this (set_latestMtime childLatestMtime)
  else ret tt.

Fixpoint recalc_loop (recalc : addr -> M unit) (this : addr) (items : list addr)
    : M unit :=
  match items with
  | [] => ret tt
  | it :: rest =>
      run recalc_item recalc this it in
      recalc_loop recalc this rest
  end.

(** [DirInfo::recalc] *)
Fixpoint recalc (fuel : nat) (this : addr) : M unit :=
  match fuel with
  | O => fail
  | S fuel =>
      run enterRecalc this in
      let* fi := deref this in
      run modifyDir this (set_totalSize (_size fi)) in
      run modifyDir this (set_totalBlocks (_blocks fi)) in
      run modifyDir this (set_totalItems 0) in
      run modifyDir this (set_totalSubDirs 0) in
      run modifyDir this (set_totalFiles 0) in
      run modifyDir this (set_latestMtime (_mtime fi)) in
      let* items := FileInfoIterator fuel this in
      run recalc_loop (recalc fuel) this items in
      modifyDir this (set_summaryDirty false)
  end.

(** [DirInfo::totalSize], [totalBlocks], [totalItems], [totalSubDirs],
    [totalFiles] and [latestMtime], called through a [FileInfo *]. *)
Definition totalSize (fuel : nat) : addr -> M Z :=
  summaryAccessor (recalc fuel) _totalSize size.
Definition totalBlocks (fuel : nat) : addr -> M Z :=
  summaryAccessor (recalc fuel) _totalBlocks blocks.
Definition totalItems (fuel : nat) : addr -> M Z :=
  summaryAccessor (recalc fuel) _totalItems (fun _ => 0).
Definition totalSubDirs (fuel : nat) : addr -> M Z :=
  summaryAccessor (recalc fuel) _totalSubDirs (fun _ => 0).
Definition totalFiles (fuel : nat) : addr -> M Z :=
  summaryAccessor (recalc fuel) _totalFiles (fun _ => 0).
Definition latestMtime (fuel : nat) : addr -> M Z :=
  summaryAccessor (recalc fuel) _latestMtime mtime.

(** ** Construction and destruction *)

(** [new]: the allocator returns the unused address [a]. *)
Definition alloc (a : addr) (fi : FileInfo) : M unit :=
  fun w => match heap w !! a with
           | Some _ => None
           | None => Some (tt, with_heap (<[a := fi]> (heap w)) w)
           end.

(** [DirInfo::init], run on the object under construction (whose
    [FileInfo] part is built already). *)
Definition init (this : addr) : M unit :=
  modify this (fun fi =>
    set_dir (mkDirInfo false 0 None None (_size fi) (_blocks fi) 0 0 0 (_mtime fi)
                       false false false false KDirQueued) fi).

(** Modelled from the spec: the constructor [FileInfo( tree, parent )]
    (kfileinfo.cpp, not among the sources) stores the parent and no stat
    data. *)
Definition FileInfo_blank (parent : option addr) : FileInfo :=
  mkFileInfo "" ModeOther 0 0 0 parent None None.

(** [new DirInfo( tree, parent, true )]: the dot entry constructor. *)
Definition newDotEntry (this : addr) (parent : option addr) : M unit :=
  run alloc this (FileInfo_blank parent) in
  run init this in
  run modifyDir this (set_isDotEntry true) in
  run modifyDir this (set_dotEntry None) in
  modify this (set_name ".").

(** [new DirInfo( tree, parent, asDotEntry )], the object at [this] and its
    dot entry, if any, at [dot]. *)
Definition newDirInfo (this dot : addr) (parent : option addr) (asDotEntry : bool)
    : M unit :=
  if asDotEntry then newDotEntry this parent
  else
    run alloc this (FileInfo_blank parent) in
    run init this in
    run modifyDir this (set_isDotEntry false) in
    run newDotEntry dot (Some this) in
    modifyDir this (set_dotEntry (Some dot)).

(** The other three constructors: the [FileInfo] part is built from the
    name and the stat data (by code outside [DirInfo.cpp]), then [init()]
    runs and the dot entry is created. *)
Definition newDirInfoStat (this dot : addr) (parent : option addr)
    (name : string) (mode : FileMode) (size blocks mtime : Z) : M unit :=
  run alloc this (mkFileInfo name mode size blocks mtime parent None None) in
  run init this in
  run newDotEntry dot (Some this) in
  modifyDir this (set_dotEntry (Some dot)).

(** [delete p] on a [FileInfo *]: the virtual destructor runs, then the
    storage is freed.  [DirInfo::~DirInfo] deletes the children and the dot
    entry first. *)
Fixpoint deleteObject (fuel : nat) (this : addr) : M unit :=
  match fuel with
  | O => fail
  | S fuel =>
      let* fi := deref this in
      match _dir fi with
      | None => free this
      | Some _ =>
          run modifyDir this (set_beingDestroyed true) in
          let* d := derefDir this in
          run (fix deleteChildren (n : nat) (child : option addr) : M unit :=
                 match child with
                 | None => ret tt
                 | Some c =>
                     match n with
                     | O => fail
                     | S n =>
                         let* cf := deref c in
                         let nextChild := next cf in
                         run deleteObject fuel c in
                         deleteChildren n nextChild
                     end
                 end) fuel (_firstChild d) in
          let* d' := derefDir this in
          run (match _dotEntry d' with
               | Some dot => deleteObject fuel dot
               | None => ret tt
               end) in
          free this
      end
  end.

(** ** Finalizing *)

(** The [while ( child )] loop of [DirInfo::cleanupDotEntries]. *)
Fixpoint reparentChildren (fuel : nat) (this : addr) (child : option addr) : M unit :=
  match child with
  | None => ret tt
  | Some c =>
      match fuel with
      | O => fail
      | S fuel =>
          run setParent c (Some this) in
          let* cf := deref c in
          reparentChildren fuel this (next cf)
      end
  end.

(** [DirInfo::cleanupDotEntries] *)
Definition cleanupDotEntries (fuel : nat) (this : addr) : M unit :=
  let* d := derefDir this in
  match _dotEntry d with
  | None => ret tt
  | Some dot =>
      if _isDotEntry d then ret tt
      else
        run (if bool_decide (_firstChild d = None) then
               let* dd := derefDir dot in
               let child := _firstChild dd in
               run modifyDir this (set_firstChild child) in
               run modifyDir dot (set_firstChild None) in
               reparentChildren fuel this child
             else ret tt) in
        let* dd := derefDir dot in
        if bool_decide (_firstChild dd = None) then
          run deleteObject fuel dot in
          modifyDir this (set_dotEntry None)
        else ret tt
  end.

(** [DirInfo::finalizeLocal] *)
Definition finalizeLocal (fuel : nat) (this : addr) : M unit :=
  cleanupDotEntries fuel this.

(** A [while ( child )] loop that runs [body] on each child and then
    follows the child's [next()]. *)
Fixpoint forEachChild (fuel : nat) (body : addr -> M unit) (child : option addr)
    : M unit :=
  match child with
  | None => ret tt
  | Some c =>
      match fuel with
      | O => fail
      | S fuel =>
          run body c in
          let* cf := deref c in
          forEachChild fuel body (next cf)
      end
  end.

(** [DirInfo::finalizeAll] *)
Fixpoint finalizeAll (fuel : nat) (this : addr) : M unit :=
  match fuel with
  | O => fail
  | S fuel =>
      let* d := derefDir this in
      if _isDotEntry d then ret tt
      else
        run forEachChild fuel
              (fun child =>
                 let* cf := deref child in
                 match _dir cf with
                 | Some dir => if negb (_isDotEntry dir) then finalizeAll fuel child
                               else ret tt
                 | None => ret tt
                 end)
              (_firstChild d) in
        run sendFinalizeLocal this in
        finalizeLocal fuel this
  end.

(** * Specification vocabulary *)

(** The [DirInfo] part of the object at [a], if there is one. *)
Definition dirOf (w : World) (a : addr) : option DirInfo :=
  heap w !! a ≫= _dir.

Definition storedReadState (w : World) (a : addr) : option KDirReadState :=
  _readState <$> dirOf w a.

Definition pendingReadJobs (w : World) (a : addr) : option Z :=
  _pendingReadJobs <$> dirOf w a.

Definition summaryDirty (w : World) (a : addr) : option bool :=
  _summaryDirty <$> dirOf w a.

(** [up_chain h a l]: [a] is a [DirInfo] whose chain of [_parent] pointers
    visits exactly the [DirInfo] objects [l], nearest first, and ends at a
    node without parent (the root). *)
Fixpoint up_chain (h : gmap addr FileInfo) (a : addr) (l : list addr) : Prop :=
  match l with
  | [] => exists fi, h !! a = Some fi /\ is_Some (_dir fi) /\ _parent fi = None
  | p :: l' =>
      (exists fi, h !! a = Some fi /\ is_Some (_dir fi) /\ _parent fi = Some p)
      /\ up_chain h p l'
  end.

(** The condition the specification gives for "busy", on a count of
    pending read jobs and a read state. *)
Definition busy_spec (pending : Z) (rs : KDirReadState) : bool :=
  ((0 <? pending) && negb (bool_decide (rs = KDirAborted)))
  || bool_decide (rs = KDirReading) || bool_decide (rs = KDirQueued).

(** *** Example worlds *)

Definition emptyWorld : World := mkWorld ∅ [] [] [].

(** The world after [m], started in the empty world (the empty world
    again if [m] fails). *)
Definition worldAfter {A} (m : M A) : World :=
  match m emptyWorld with
  | Some (_, w) => w
  | None => emptyWorld
  end.

(** A root directory at address 1 with its dot entry at address 2. *)
Definition rootWorld : World :=
  worldAfter (newDirInfoStat 1 2 None "R" ModeDir 0 0 0).

(** The root was aborted. *)
Definition abortedWorld : World :=
  worldAfter (run newDirInfoStat 1 2 None "R" ModeDir 0 0 0 in
              readJobAborted 1 1).

(** A read job was attributed to the dot entry of the root, then the root
    was aborted. *)
Definition dotJobAbortedWorld : World :=
  worldAfter (run newDirInfoStat 1 2 None "R" ModeDir 0 0 0 in
              run readJobAdded 2 2 in
              readJobAborted 1 1).

(** The common shape of [readJobAdded], [readJobFinished] and
    [readJobAborted]: apply [f] to the members of [this], then to those of
    each ancestor in turn. *)
Fixpoint walk_up (f : DirInfo -> DirInfo) (fuel : nat) (this : addr) : M unit :=
  match fuel with
  | O => fail
  | S fuel =>
      run modifyDir this f in
      let* fi := deref this in
      match _parent fi with
      | Some p => walk_up f fuel p
      | None => ret tt
      end
  end.






(** [lseg h p l q]: following [_next] from the pointer [p] visits exactly
    the objects [l], in this order, and arrives at the pointer [q]. *)
Fixpoint lseg (h : gmap addr FileInfo) (p : option addr) (l : list addr)
    (q : option addr) : Prop :=
  match l with
  | [] => p = q
  | a :: l' => p = Some a /\ exists fi, h !! a = Some fi /\ lseg h (_next fi) l' q
  end.

(** [children h this l]: [this] is a [DirInfo] whose children list, from
    [_firstChild] to the null pointer, is [l]. *)
Definition children (h : gmap addr FileInfo) (this : addr) (l : list addr) : Prop :=
  exists fi d, h !! this = Some fi /\ _dir fi = Some d /\ lseg h (_firstChild d) l None.

Definition with_errors (e : list LogLine) (w : World) : World :=
  mkWorld (heap w) e (finalizeLocalSent w) (recalcs w).

(** The root with three plain files linked directly into its children
    list (its dot entry, address 2, was detached by hand: the root lists
    5, 4, 3), and a stray file 6 whose parent pointer names the root
    although it is in no list, and a file 7 without parent. *)
Definition threeChildrenWorld : World :=
  worldAfter (
    run newDirInfoStat 1 2 None "R" ModeDir 0 0 0 in
    run modifyDir 1 (set_dotEntry None) in
    run alloc 3 (mkFileInfo "a" ModeRegular 10 1 100 None None None) in
    run alloc 4 (mkFileInfo "b" ModeRegular 20 1 200 None None None) in
    run alloc 5 (mkFileInfo "c" ModeRegular 30 1 300 None None None) in
    run alloc 6 (mkFileInfo "stray" ModeRegular 1 1 1 (Some 1%positive) None None) in
    run alloc 7 (mkFileInfo "other" ModeRegular 1 1 1 None None None) in
    run insertChild 3 1 3 in
    run insertChild 3 1 4 in
    insertChild 3 1 5).

(** What [childAdded( newChild )] does to the members of one node, with
    [nc] the object [*newChild]: nothing when the summary is dirty. *)
Definition added (nc : FileInfo) (d : DirInfo) : DirInfo :=
  if _summaryDirty d then d
  else
    mkDirInfo (_isDotEntry d) (_pendingReadJobs d) (_dotEntry d) (_firstChild d)
              (asKFileSize (_totalSize d + size nc))
              (asKFileSize (_totalBlocks d + blocks nc))
              (asInt (_totalItems d + 1))
              (if isDir nc then asInt (_totalSubDirs d + 1) else _totalSubDirs d)
              (if isFile nc then asInt (_totalFiles d + 1) else _totalFiles d)
              (Z.max (_latestMtime d) (mtime nc))
              (_isMountPoint d) (_isExcluded d) (_summaryDirty d)
              (_beingDestroyed d) (_readState d).

(** The store after the three assignments by which [insertChild] links
    [newChild] (the object [nc]) at the head of the children of [this]
    (the object [fi] with [DirInfo] members [d]). *)
Definition linked (h : gmap addr FileInfo) (this newChild : addr)
    (fi : FileInfo) (d : DirInfo) (nc : FileInfo) : gmap addr FileInfo :=
  <[newChild := set_parent (Some this) (set_next (_firstChild d) nc)]>
    (<[this := set_dir (set_firstChild (Some newChild) d) fi]> h).

(** The six summary values of a subtree. *)
Record Summary := mkSummary {
  sumSize : Z;
  sumBlocks : Z;
  sumItems : Z;
  sumSubDirs : Z;
  sumFiles : Z;
  sumMtime : Z
}.

(** The summary cached in the members of a [DirInfo]. *)
Definition cached (d : DirInfo) : Summary :=
  mkSummary (_totalSize d) (_totalBlocks d) (_totalItems d)
            (_totalSubDirs d) (_totalFiles d) (_latestMtime d).

(** A summary with the entry [nc] counted in, by its own size, blocks,
    type and modification time, each sum in the width of its member. *)
Definition plusEntry (s : Summary) (nc : FileInfo) : Summary :=
  mkSummary (asKFileSize (sumSize s + size nc))
            (asKFileSize (sumBlocks s + blocks nc))
            (asInt (sumItems s + 1))
            (if isDir nc then asInt (sumSubDirs s + 1) else sumSubDirs s)
            (if isFile nc then asInt (sumFiles s + 1) else sumFiles s)
            (Z.max (sumMtime s) (mtime nc)).

(** The node into whose children list [insertChild( c )], called on
    [this], links [c]: [this] itself or, by delegation, its dot entry. *)
Fixpoint insertTarget (n : nat) (h : gmap addr FileInfo) (this c : addr)
    : option addr :=
  match n with
  | O => None
  | S n =>
      match h !! c, h !! this with
      | Some nc, Some fi =>
          match _dir fi with
          | Some d =>
              if isDir nc || bool_decide (_dotEntry d = None) || _isDotEntry d
              then Some this
              else match _dotEntry d with
                   | Some dot => insertTarget n h dot c
                   | None => None
                   end
          | None => None
          end
      | _, _ => None
      end
  end.

(** The ancestors of the [DirInfo] [a], nearest first. *)
Fixpoint ancestors (n : nat) (h : gmap addr FileInfo) (a : addr)
    : option (list addr) :=
  match n with
  | O => None
  | S n =>
      match h !! a with
      | Some fi =>
          match _dir fi with
          | Some _ =>
              match _parent fi with
              | None => Some []
              | Some p => cons p <$> ancestors n h p
              end
          | None => None
          end
      | None => None
      end
  end.

(** A sequence of [insertChild] calls, each a pair of the node it is
    called on and the new child. *)
Fixpoint insertAll (fuel : nat) (ops : list (addr * addr)) : M unit :=
  match ops with
  | [] => ret tt
  | (this, c) :: ops => run insertChild fuel this c in insertAll fuel ops
  end.

(** The bookkeeping of a sequence of insertions: for each call, the
    inserted object and the nodes whose subtree receives it (the node it
    is linked into and that node's ancestors).  [None] when a call is not
    well formed: an object is missing, a parent chain is longer than [n],
    or the new child is one of the nodes that receive it. *)
Fixpoint insertLedger (fuel n : nat) (ops : list (addr * addr)) (w : World)
    : option (list (FileInfo * list addr)) :=
  match ops with
  | [] => Some []
  | (this, c) :: ops =>
      match heap w !! c, insertTarget n (heap w) this c with
      | Some nc, Some tgt =>
          match ancestors n (heap w) tgt with
          | Some l =>
              if bool_decide (c ∈ tgt :: l) then None
              else
                match insertChild fuel this c w with
                | Some (_, w1) =>
                    cons (nc, tgt :: l) <$> insertLedger fuel n ops w1
                | None => None
                end
          | None => None
          end
      | _, _ => None
      end
  end.

(** The running sum, for the node [a], of a ledger: the entries whose
    receiving nodes include [a], each counted by [plusEntry]. *)
Fixpoint runningSum (a : addr) (s : Summary) (ledger : list (FileInfo * list addr))
    : Summary :=
  match ledger with
  | [] => s
  | (nc, path) :: ledger =>
      runningSum a (if bool_decide (a ∈ path) then plusEntry s nc else s) ledger
  end.

(** The entries of a ledger that the node [a] receives, in the order of
    the calls. *)
Fixpoint received (a : addr) (ledger : list (FileInfo * list addr)) : list FileInfo :=
  match ledger with
  | [] => []
  | (nc, path) :: ledger =>
      if bool_decide (a ∈ path) then nc :: received a ledger else received a ledger
  end.

(** The sum of the values [f] of a list of entries, as a number. *)
Definition sumOf (f : FileInfo -> Z) (l : list FileInfo) : Z :=
  foldr (fun nc z => f nc + z) 0 l.

(** [f] applied to the [DirInfo] members of an object, and of the objects
    at the addresses [l] of a store. *)
Definition onDir (f : DirInfo -> DirInfo) (fi : FileInfo) : FileInfo :=
  match _dir fi with
  | Some d => set_dir (f d) fi
  | None => fi
  end.

Definition applyOn (f : DirInfo -> DirInfo) (l : list addr)
    (h : gmap addr FileInfo) : gmap addr FileInfo :=
  foldr (fun a h => alter (onDir f) a h) h l.

(** The scenario of the specification: a root [R] (address 1, dot entry
    2) of size 0; the file [F1] (address 3) of size 100 and modification
    time [t1] inserted into [R]; the directory [D] (address 4, dot entry
    5) of size 0 inserted into [R]; the file [F2] (address 6) of size 50
    and modification time [t2] inserted into [D]. *)
Definition scenarioInserts : list (addr * addr) :=
  [(1, 3); (1, 4); (4, 6)]%positive.

(** The scenario does not state the modification times [tR] and [tD] of
    the two directories. *)
Definition scenarioStartAt (tR tD t1 t2 : Z) : World :=
  worldAfter (
    run newDirInfoStat 1 2 None "R" ModeDir 0 0 tR in
    run alloc 3 (mkFileInfo "F1" ModeRegular 100 1 t1 None None None) in
    run newDirInfoStat 4 5 None "D" ModeDir 0 0 tD in
    alloc 6 (mkFileInfo "F2" ModeRegular 50 1 t2 None None None)).

Definition scenarioWorldAt (tR tD t1 t2 : Z) : World :=
  match insertAll 5 scenarioInserts (scenarioStartAt tR tD t1 t2) with
  | Some (_, w) => w
  | None => emptyWorld
  end.

(** The scenario with directories of modification time 0. *)
Definition scenarioStart (t1 t2 : Z) : World := scenarioStartAt 0 0 t1 t2.

Definition scenarioWorld (t1 t2 : Z) : World := scenarioWorldAt 0 0 t1 t2.

(** The root [R] (address 1, dot entry 2) of size 1 and a file (address
    3) of the largest size a [KFileSize] holds. *)
Definition overflowStart : World :=
  worldAfter (
    run newDirInfoStat 1 2 None "R" ModeDir 1 0 0 in
    alloc 3 (mkFileInfo "big" ModeRegular KFileSize_MAX 0 0 None None None)).

(** A root (address 1) whose dot entry (address 2) holds two plain files
    (addresses 4 and 3) and which has no direct child. *)
Definition twoFilesWorld : World :=
  worldAfter (
    run newDirInfoStat 1 2 None "R" ModeDir 0 0 0 in
    run alloc 3 (mkFileInfo "a" ModeRegular 10 1 100 None None None) in
    run alloc 4 (mkFileInfo "b" ModeRegular 20 1 200 None None None) in
    run insertChild 4 1 3 in
    insertChild 4 1 4).

(** ** Subtrees

    A [Tree] names the objects of a subtree of the store: the node at its
    root, the subtrees of the node's direct children in list order, the
    node's dot entry if it has one, and the subtrees of the dot entry's
    children.  An entry that is not a [DirInfo] has no children and no dot
    entry. *)
#[local] Set Warnings "-register-all".
Inductive Tree :=
  | Node (a : addr) (kids : list Tree) (dot : option addr) (dotKids : list Tree).

Definition root (t : Tree) : addr :=
  match t with Node a _ _ _ => a end.

(** The subtrees the iteration of [recalc()] visits: the direct children,
    then the children of the dot entry. *)
Definition items (t : Tree) : list Tree :=
  match t with Node _ kids _ dotKids => kids ++ dotKids end.

(** Every address of the subtree, dot entries included. *)
Fixpoint addrs (t : Tree) : list addr :=
  match t with
  | Node a kids dot dotKids =>
      a :: (kids ≫= addrs) ++ option_list dot ++ (dotKids ≫= addrs)
  end.

(** The entries below the root: every descendant, the children of dot
    entries included and the dot entries themselves left out. *)
Fixpoint entries (t : Tree) : list addr :=
  match t with
  | Node a kids dot dotKids =>
      (kids ≫= fun k => root k :: entries k)
      ++ (dotKids ≫= fun k => root k :: entries k)
  end.

(** Fuel that suffices for [recalc()] on the subtree. *)
Fixpoint treeFuel (t : Tree) : nat :=
  match t with
  | Node a kids dot dotKids =>
      S (foldr Nat.max (foldr Nat.max (S (length kids + length dotKids))
                          (treeFuel <$> dotKids))
           (treeFuel <$> kids))
  end.

(** [repr h t]: the store [h] holds the subtree [t]. *)
Inductive repr (h : gmap addr FileInfo) : Tree -> Prop :=
  | repr_plain a fi :
      h !! a = Some fi -> _dir fi = None ->
      repr h (Node a [] None [])
  | repr_dir a fi d kids dotKids :
      h !! a = Some fi -> _dir fi = Some d ->
      lseg h (_firstChild d) (root <$> kids) None ->
      Forall (repr h) kids ->
      match _dotEntry d with
      | None => dotKids = []
      | Some dot =>
          exists dfi dd, h !! dot = Some dfi /\ _dir dfi = Some dd /\
                         lseg h (_firstChild dd) (root <$> dotKids) None
      end ->
      Forall (repr h) dotKids ->
      repr h (Node a kids (_dotEntry d) dotKids).

(** The summary [recalc()] starts from, and the values the accessors
    return on an entry that is not a [DirInfo]. *)
Definition ownSummary (fi : FileInfo) : Summary :=
  mkSummary (_size fi) (_blocks fi) 0 0 0 (_mtime fi).

(** One round of the loop of [recalc()] on the summary [s]: the item
    [ifi] with the summary [v] its accessors return. *)
Definition plusItem (s : Summary) (ifi : FileInfo) (v : Summary) : Summary :=
  mkSummary (asKFileSize (sumSize s + sumSize v))
            (asKFileSize (sumBlocks s + sumBlocks v))
            (asInt (sumItems s + asInt (sumItems v + 1)))
            (if isDir ifi then asInt (asInt (sumSubDirs s + sumSubDirs v) + 1)
             else asInt (sumSubDirs s + sumSubDirs v))
            (if isFile ifi then asInt (asInt (sumFiles s + sumFiles v) + 1)
             else asInt (sumFiles s + sumFiles v))
            (Z.max (sumMtime s) (sumMtime v)).

(** The two type counts of a summary are values of an [int]. *)
Definition countsInInt (s : Summary) : Prop :=
  INT_MIN <= sumSubDirs s <= INT_MAX /\ INT_MIN <= sumFiles s <= INT_MAX.

(** The members of a [DirInfo] with the summary [s] stored, and with the
    dirty flag cleared. *)
Definition withSummary (s : Summary) (d : DirInfo) : DirInfo :=
  mkDirInfo (_isDotEntry d) (_pendingReadJobs d) (_dotEntry d) (_firstChild d)
            (sumSize s) (sumBlocks s) (sumItems s) (sumSubDirs s) (sumFiles s)
            (sumMtime s) (_isMountPoint d) (_isExcluded d) (_summaryDirty d)
            (_beingDestroyed d) (_readState d).

Definition storeSummary (s : Summary) (d : DirInfo) : DirInfo :=
  set_summaryDirty false (withSummary s d).

Definition storeIn (s : Summary) (fi : FileInfo) : FileInfo :=
  match _dir fi with
  | Some d => set_dir (storeSummary s d) fi
  | None => fi
  end.

(** What the summary accessors return on the object [fi] when they do not
    recalculate. *)
Definition reported (fi : FileInfo) : Summary :=
  match _dir fi with
  | Some d => cached d
  | None => ownSummary fi
  end.

Definition infoAt (h : gmap addr FileInfo) (a : addr) : FileInfo :=
  default (FileInfo_blank None) (h !! a).

Definition dirtyAt (h : gmap addr FileInfo) (a : addr) : bool :=
  match h !! a with
  | Some fi => match _dir fi with
               | Some d => _summaryDirty d
               | None => false
               end
  | None => false
  end.

(** The summary the accessors return on the root of [t]: the cached one
    when the root is not dirty, otherwise the one [recalc()] computes from
    the items, each asked in turn. *)
Fixpoint calc (h : gmap addr FileInfo) (t : Tree) : Summary :=
  match t with
  | Node a kids dot dotKids =>
      if dirtyAt h a then
        foldl (fun s k => plusItem s (infoAt h (root k)) (calc h k))
          (foldl (fun s k => plusItem s (infoAt h (root k)) (calc h k))
             (ownSummary (infoAt h a)) kids)
          dotKids
      else reported (infoAt h a)
  end.

(** What [recalc()] computes on the root of [t], dirty or not. *)
Definition recalcValue (h : gmap addr FileInfo) (t : Tree) : Summary :=
  foldl (fun s k => plusItem s (infoAt h (root k)) (calc h k))
    (ownSummary (infoAt h (root t))) (items t).

(** The nodes an accessor call on the root of [t] recalculates, in the
    order in which [recalc()] is entered, each with the summary computed
    for it: the root if it is dirty, and then, item by item, what the
    accessor calls on the items recalculate. *)
Fixpoint computed (h : gmap addr FileInfo) (t : Tree) : list (addr * Summary) :=
  match t with
  | Node a kids dot dotKids =>
      if dirtyAt h a then
        (a, foldl (fun s k => plusItem s (infoAt h (root k)) (calc h k))
              (foldl (fun s k => plusItem s (infoAt h (root k)) (calc h k))
                 (ownSummary (infoAt h a)) kids)
              dotKids)
        :: (kids ≫= computed h) ++ (dotKids ≫= computed h)
      else []
  end.

(** The store [h'] is [h] with each summary of [L] stored in its node. *)
Definition cleaned_by (L : list (addr * Summary)) (h h' : gmap addr FileInfo) : Prop :=
  forall x, h' !! x = match (list_to_map L : gmap addr Summary) !! x with
                      | Some s => storeIn s <$> h !! x
                      | None => h !! x
                      end.

(** The sum over the entire subtree: the root's own size, blocks and
    modification time, and every entry below it counted in by its own
    values ([plusEntry]: its size and blocks, one item, one subdirectory
    or file according to its type, its modification time if it is
    later). *)
Definition trueSummary (h : gmap addr FileInfo) (t : Tree) : Summary :=
  foldr (fun e s => plusEntry s (infoAt h e)) (ownSummary (infoAt h (root t)))
        (entries t).

(** All subtrees of [t], [t] included. *)
Fixpoint subtrees (t : Tree) : list Tree :=
  match t with
  | Node a kids dot dotKids =>
      t :: (kids ≫= subtrees) ++ (dotKids ≫= subtrees)
  end.

(** The root of [t], if it is a [DirInfo] that is not dirty, caches the
    sum over [t]. *)
Definition summary_ok (h : gmap addr FileInfo) (t : Tree) : Prop :=
  forall fi d, h !! root t = Some fi -> _dir fi = Some d ->
    _summaryDirty d = false -> cached d = trueSummary h t.

(** The links of an object: what [repr] reads. *)
Definition skel (fi : FileInfo) : option addr * option (option addr * option addr) :=
  (_next fi, (fun d => (_firstChild d, _dotEntry d)) <$> _dir fi).

(** An object on which the accessors do not recalculate. *)
Definition settled (fc : FileInfo) : Prop :=
  match _dir fc with
  | Some dc => _summaryDirty dc = false
  | None => True
  end.

(** [accessorOf field own proj]: the summary accessor reading the member
    [field] of a [DirInfo], and [own] on another entry, returns the
    component [proj] of a summary. *)
Definition accessorOf (field : DirInfo -> Z) (own : FileInfo -> Z)
    (proj : Summary -> Z) : Prop :=
  (forall d, field d = proj (cached d)) /\
  (forall fi, own fi = proj (ownSummary fi)).

(** What a summary accessor call on the root of [t] does: it returns the
    component of [calc]; the store afterwards holds the summaries of
    [computed]; [recalc()] was entered on the nodes of [computed], in this
    order, and nothing else changed. *)
Definition accessSpec (t : Tree) : Prop :=
  forall w fuel field own proj,
    accessorOf field own proj ->
    repr (heap w) t -> NoDup (addrs t) -> (treeFuel t <= fuel)%nat ->
    exists h',
      summaryAccessor (recalc fuel) field own (root t) w
      = Some (proj (calc (heap w) t),
              mkWorld h' (errors w) (finalizeLocalSent w)
                      (rev (computed (heap w) t).*1 ++ recalcs w)) /\
      cleaned_by (computed (heap w) t) (heap w) h'.

(** What [recalc()] on the root of [t] does, dirty or not. *)
Definition recalcSpec (t : Tree) : Prop :=
  forall w fuel fi d,
    repr (heap w) t -> NoDup (addrs t) ->
    heap w !! root t = Some fi -> _dir fi = Some d ->
    (treeFuel t <= fuel)%nat ->
    exists h',
      recalc fuel (root t) w
      = Some (tt, mkWorld h' (errors w) (finalizeLocalSent w)
                    (rev (root t :: (items t ≫= computed (heap w)).*1) ++ recalcs w)) /\
      cleaned_by ((root t, recalcValue (heap w) t) :: (items t ≫= computed (heap w)))
                 (heap w) h'.

(** [cleaned_by], but for the object at [a]. *)
Definition cleaned_except (a : addr) (L : list (addr * Summary))
    (h h' : gmap addr FileInfo) : Prop :=
  forall x, x <> a ->
    h' !! x = match (list_to_map L : gmap addr Summary) !! x with
              | Some s => storeIn s <$> h !! x
              | None => h !! x
              end.

(** The nodes [recalc()] on the root of [t] recalculates, with their
    summaries: the root, dirty or not, and what the accessor calls on the
    items recalculate. *)
Definition recalculated (h : gmap addr FileInfo) (t : Tree) : list (addr * Summary) :=
  (root t, recalcValue h t) :: (items t ≫= computed h).

(** The subtree of the root in the scenario of the specification. *)
Definition scenarioTree : Tree :=
  Node 1 [Node 4 [] (Some 5%positive) [Node 6 [] None []]]
         (Some 2%positive) [Node 3 [] None []].

(** Modelled from the spec: deleting an entry (the tree's code, not among
    the sources) is "deletingChild" on the entry's parent, which unlinks
    the entry, followed by [delete]. *)
Definition deleteEntry (fuel : nat) (c : addr) : M unit :=
  let* dc := deref c in
  run (match parent dc with
       | Some p => deletingChild fuel p c
       | None => ret tt
       end) in
  deleteObject fuel c.

(** The scenario after [F1] (address 3) was deleted; its parent is the dot
    entry of the root. *)
Definition scenarioDeleted (t1 t2 : Z) : World :=
  match deleteEntry 3 3 (scenarioWorld t1 t2) with
  | Some (_, w) => w
  | None => emptyWorld
  end.

(** The six summary accessors. *)
Inductive SummaryField :=
  | FTotalSize | FTotalBlocks | FTotalItems | FTotalSubDirs | FTotalFiles
  | FLatestMtime.

Definition accessor (f : SummaryField) (fuel : nat) : addr -> M Z :=
  match f with
  | FTotalSize => totalSize fuel
  | FTotalBlocks => totalBlocks fuel
  | FTotalItems => totalItems fuel
  | FTotalSubDirs => totalSubDirs fuel
  | FTotalFiles => totalFiles fuel
  | FLatestMtime => latestMtime fuel
  end.

Definition component (f : SummaryField) : Summary -> Z :=
  match f with
  | FTotalSize => sumSize
  | FTotalBlocks => sumBlocks
  | FTotalItems => sumItems
  | FTotalSubDirs => sumSubDirs
  | FTotalFiles => sumFiles
  | FLatestMtime => sumMtime
  end.

(** The nodes an accessor call on the root of [t] visits, that is, on
    which a summary accessor is called: the root, and, if the root is
    dirty, what the accessor calls of its [recalc()] on the items visit. *)
Fixpoint visited (h : gmap addr FileInfo) (t : Tree) : list addr :=
  match t with
  | Node a kids dot dotKids =>
      a :: (if dirtyAt h a
            then (kids ≫= visited h) ++ (dotKids ≫= visited h)
            else [])
  end.

(** The values the scenario reads after the deletion, with the trace of
    [recalc()] after each read. *)
Definition scenarioReads (w : World) : option (Z * list addr * Z * list addr) :=
  match totalSize 4 1 w with
  | Some (s, w1) =>
      match totalItems 4 1 w1 with
      | Some (i, w2) => Some (s, recalcs w1, i, recalcs w2)
      | None => None
      end
  | None => None
  end.

Definition scenarioDeletedTree : Tree :=
  Node 1 [Node 4 [] (Some 5%positive) [Node 6 [] None []]] (Some 2%positive) [].

(** A directory [E] (address 7, dot entry 8) that already holds the file
    [F] (address 6) is inserted into the directory [D] (address 4, dot
    entry 5), and [D] then into the root (address 1, dot entry 2). *)
Definition nestedDirWorld : World :=
  worldAfter (
    run newDirInfoStat 1 2 None "R" ModeDir 0 0 0 in
    run newDirInfoStat 4 5 None "D" ModeDir 0 0 0 in
    run newDirInfoStat 7 8 None "E" ModeDir 0 0 0 in
    run alloc 6 (mkFileInfo "F" ModeRegular 50 1 20 None None None) in
    run insertChild 4 7 6 in
    run insertChild 4 4 7 in
    insertChild 4 1 4).

Definition nestedDirTree : Tree :=
  Node 1 [Node 4 [Node 7 [] (Some 8%positive) [Node 6 [] None []]]
                 (Some 5%positive) []]
         (Some 2%positive) [].

(** ** Construction *)

(** The members [init()] gives a [DirInfo] whose [FileInfo] part is [fi],
    with the dot entry flag and the dot entry pointer the constructor
    stores afterwards. *)
Definition initialMembers (asDotEntry : bool) (dotEntry : option addr)
    (fi : FileInfo) : DirInfo :=
  mkDirInfo asDotEntry 0 dotEntry None (_size fi) (_blocks fi) 0 0 0 (_mtime fi)
            false false false false KDirQueued.

(** The object a dot entry constructor builds, and the object the other
    constructors build on the [FileInfo] part [base]. *)
Definition dotObject (parent : option addr) : FileInfo :=
  set_name "." (set_dir (initialMembers true None (FileInfo_blank parent))
                        (FileInfo_blank parent)).

Definition dirObject (base : FileInfo) (dot : addr) : FileInfo :=
  set_dir (initialMembers false (Some dot) base) base.

(** ** Destruction *)

(** The [while ( child )] loop of the destructor, with [del] for
    [delete child]. *)
Definition deleteChildrenWith (del : addr -> M unit) : nat -> option addr -> M unit :=
  fix deleteChildren (n : nat) (child : option addr) : M unit :=
    match child with
    | None => ret tt
    | Some c =>
        match n with
        | O => fail
        | S n =>
            let* cf := deref c in
            let nextChild := next cf in
            run del c in
            deleteChildren n nextChild
        end
    end.

(** The dot entries of a subtree. *)
Fixpoint dots (t : Tree) : list addr :=
  match t with
  | Node a kids dot dotKids =>
      option_list dot ++ (kids ≫= dots) ++ (dotKids ≫= dots)
  end.

(** No dot entry of the subtree owns a dot entry. *)
Definition plainDots (h : gmap addr FileInfo) (t : Tree) : Prop :=
  forall x, x ∈ dots t ->
    exists fi d, h !! x = Some fi /\ _dir fi = Some d /\ _dotEntry d = None.

(** The store [h'] is [h] without the objects [L]. *)
Definition removed (L : list addr) (h h' : gmap addr FileInfo) : Prop :=
  forall x, h' !! x = if bool_decide (x ∈ L) then None else h !! x.

(** ** Finalizing a subtree *)

(** The body of the loop of [finalizeAll], with [fin] for
    [dir->finalizeAll()]. *)
Definition finalizeChildWith (fin : addr -> M unit) (child : addr) : M unit :=
  let* cf := deref child in
  match _dir cf with
  | Some dir => if negb (_isDotEntry dir) then fin child else ret tt
  | None => ret tt
  end.

(** The object at [a] is a [DirInfo] that is not a dot entry. *)
Definition isDirNode (h : gmap addr FileInfo) (a : addr) : bool :=
  match h !! a with
  | Some fi => match _dir fi with
               | Some d => negb (_isDotEntry d)
               | None => false
               end
  | None => false
  end.

(** The nodes [finalizeAll] on the root of [t] finalizes, in the order
    of their notifications: what it finalizes below each direct child
    that is a directory, child by child, and then the root.  The
    children of dot entries are not visited. *)
Fixpoint finalized (h : gmap addr FileInfo) (t : Tree) : list addr :=
  match t with
  | Node a kids dot dotKids =>
      if isDirNode h a then (kids ≫= finalized h) ++ [a] else []
  end.

(** The node at [x] has no degenerate dot entry: if it owns a dot entry
    (one of the objects [A]), then both the node and the dot entry have
    a child. *)
Definition collapsedIn (A : list addr) (h : gmap addr FileInfo) (x : addr) : Prop :=
  forall fi d dt, h !! x = Some fi -> _dir fi = Some d -> _dotEntry d = Some dt ->
    dt ∈ A /\ _firstChild d <> None /\
    exists dfi dd, h !! dt = Some dfi /\ _dir dfi = Some dd /\ _firstChild dd <> None.

(** What finalizing one child guarantees to the loop. *)
Definition finalizesChild (body : addr -> M unit) (k : Tree) : Prop :=
  forall w, repr (heap w) k -> plainDots (heap w) k ->
    exists h',
      body (root k) w
      = Some (tt, mkWorld h' (errors w)
                    (rev (finalized (heap w) k) ++ finalizeLocalSent w) (recalcs w)) /\
      (forall x, x ∉ addrs k -> h' !! x = heap w !! x) /\
      (exists fi fi', heap w !! root k = Some fi /\ h' !! root k = Some fi' /\
                      _next fi' = _next fi) /\
      (forall x, x ∈ finalized (heap w) k -> collapsedIn (addrs k) h' x).

(** * Fixed-width additions *)

Lemma wrapSigned_add_l bits a b :
  wrapSigned bits (wrapSigned bits a + b) = wrapSigned bits (a + b).
Proof.
  unfold wrapSigned. f_equal.
  replace ((a + 2 ^ (bits - 1)) mod 2 ^ bits - 2 ^ (bits - 1) + b + 2 ^ (bits - 1))
    with ((a + 2 ^ (bits - 1)) mod 2 ^ bits + b) by lia.
  rewrite Zplus_mod_idemp_l. f_equal. lia.
Qed.

Lemma wrapSigned_add_r bits a b :
  wrapSigned bits (a + wrapSigned bits b) = wrapSigned bits (a + b).
Proof. rewrite (Z.add_comm a), wrapSigned_add_l. f_equal. lia. Qed.

Lemma wrapSigned_range bits z :
  0 < bits -> - 2 ^ (bits - 1) <= wrapSigned bits z <= 2 ^ (bits - 1) - 1.
Proof.
  intros Hb. unfold wrapSigned.
  assert (2 ^ bits = 2 * 2 ^ (bits - 1)) as E.
  { rewrite <- Z.pow_succ_r by lia. f_equal. lia. }
  assert (0 < 2 ^ (bits - 1)) by (apply Z.pow_pos_nonneg; lia).
  pose proof (Z.mod_pos_bound (z + 2 ^ (bits - 1)) (2 ^ bits) ltac:(lia)). lia.
Qed.

Lemma wrapSigned_id bits z :
  0 < bits -> - 2 ^ (bits - 1) <= z <= 2 ^ (bits - 1) - 1 -> wrapSigned bits z = z.
Proof.
  intros Hb Hz. unfold wrapSigned.
  assert (2 ^ bits = 2 * 2 ^ (bits - 1)) as E.
  { rewrite <- Z.pow_succ_r by lia. f_equal. lia. }
  rewrite Z.mod_small by lia. lia.
Qed.

Lemma asKFileSize_add_l a b : asKFileSize (asKFileSize a + b) = asKFileSize (a + b).
Proof. apply wrapSigned_add_l. Qed.

Lemma asKFileSize_add_r a b : asKFileSize (a + asKFileSize b) = asKFileSize (a + b).
Proof. apply wrapSigned_add_r. Qed.

Lemma asInt_add_l a b : asInt (asInt a + b) = asInt (a + b).
Proof. apply wrapSigned_add_l. Qed.

Lemma asInt_add_r a b : asInt (a + asInt b) = asInt (a + b).
Proof. apply wrapSigned_add_r. Qed.

Lemma asKFileSize_range z : KFileSize_MIN <= asKFileSize z <= KFileSize_MAX.
Proof. apply (wrapSigned_range 64 z). lia. Qed.

Lemma asInt_range z : INT_MIN <= asInt z <= INT_MAX.
Proof. apply (wrapSigned_range 32 z). lia. Qed.

Lemma asKFileSize_id z : KFileSize_MIN <= z <= KFileSize_MAX -> asKFileSize z = z.
Proof. intros H. apply (wrapSigned_id 64 z); [lia|exact H]. Qed.

Lemma asInt_id z : INT_MIN <= z <= INT_MAX -> asInt z = z.
Proof. intros H. apply (wrapSigned_id 32 z); [lia|exact H]. Qed.

Lemma asKFileSize_add_m a b c :
  asKFileSize (a + asKFileSize b + c) = asKFileSize (a + b + c).
Proof.
  replace (a + asKFileSize b + c) with (asKFileSize b + (a + c)) by lia.
  rewrite asKFileSize_add_l. f_equal. lia.
Qed.

Lemma asInt_add_m a b c : asInt (a + asInt b + c) = asInt (a + b + c).
Proof.
  replace (a + asInt b + c) with (asInt b + (a + c)) by lia.
  rewrite asInt_add_l. f_equal. lia.
Qed.

Lemma asKFileSize_add_ll a b c :
  asKFileSize (asKFileSize a + b + c) = asKFileSize (a + b + c).
Proof. rewrite <- !Z.add_assoc. apply asKFileSize_add_l. Qed.

Lemma asInt_add_ll a b c : asInt (asInt a + b + c) = asInt (a + b + c).
Proof. rewrite <- !Z.add_assoc. apply asInt_add_l. Qed.

(** Sums of fixed-width additions: inner reductions are absorbed. *)
Ltac wrap_norm :=
  repeat first [ rewrite asKFileSize_add_l | rewrite asKFileSize_add_r
               | rewrite asKFileSize_add_m | rewrite asKFileSize_add_ll
               | rewrite asInt_add_l | rewrite asInt_add_r
               | rewrite asInt_add_m | rewrite asInt_add_ll ].

(** * Reasoning about the monad *)

Lemma bind_Some {A B} (m : M A) (k : A -> M B) w r :
  bind m k w = Some r <-> exists a w', m w = Some (a, w') /\ k a w' = Some r.
Proof.
  unfold bind. split.
  - destruct (m w) as [[a w']|] eqn:E; [|done]. intros H. by exists a, w'.
  - intros (a & w' & -> & H). done.
Qed.

Lemma bind_eq {A B} (m : M A) (k : A -> M B) w a w' :
  m w = Some (a, w') -> bind m k w = k a w'.
Proof. unfold bind. by intros ->. Qed.

Lemma deref_eq w a fi : heap w !! a = Some fi -> deref a w = Some (fi, w).
Proof. unfold deref. by intros ->. Qed.

Lemma deref_Some w a fi w' :
  deref a w = Some (fi, w') -> w' = w /\ heap w !! a = Some fi.
Proof. unfold deref. destruct (heap w !! a); naive_solver. Qed.

Lemma derefDir_eq w a fi d :
  heap w !! a = Some fi -> _dir fi = Some d -> derefDir a w = Some (d, w).
Proof.
  intros H1 H2. unfold derefDir. rewrite (bind_eq _ _ _ _ _ (deref_eq _ _ _ H1)).
  by rewrite H2.
Qed.

Lemma derefDir_Some w a d w' :
  derefDir a w = Some (d, w') ->
  w' = w /\ exists fi, heap w !! a = Some fi /\ _dir fi = Some d.
Proof.
  unfold derefDir. intros (fi & w1 & H1 & H2)%bind_Some.
  apply deref_Some in H1 as [-> H1].
  destruct (_dir fi) eqn:E; [|done]. unfold ret in H2. naive_solver.
Qed.

Lemma modify_eq w a f fi :
  heap w !! a = Some fi ->
  modify a f w = Some (tt, with_heap (<[a := f fi]> (heap w)) w).
Proof. unfold modify. by intros ->. Qed.

Lemma modifyDir_eq w a f fi d :
  heap w !! a = Some fi -> _dir fi = Some d ->
  modifyDir a f w = Some (tt, with_heap (<[a := set_dir (f d) fi]> (heap w)) w).
Proof. unfold modifyDir. by intros -> ->. Qed.

Lemma modifyDir_Some w a f u w' :
  modifyDir a f w = Some (u, w') ->
  exists fi d, heap w !! a = Some fi /\ _dir fi = Some d /\
    w' = with_heap (<[a := set_dir (f d) fi]> (heap w)) w.
Proof.
  unfold modifyDir. destruct (heap w !! a) as [fi|]; [|done].
  destruct (_dir fi) as [d|] eqn:E; [|done]. intros [= <- <-]. eauto.
Qed.

Lemma modify_Some w a f u w' :
  modify a f w = Some (u, w') ->
  exists fi, heap w !! a = Some fi /\
    w' = with_heap (<[a := f fi]> (heap w)) w.
Proof.
  unfold modify. destruct (heap w !! a) as [fi|]; [|done].
  intros [= <- <-]. eauto.
Qed.

Lemma dirOf_eq w a fi d :
  heap w !! a = Some fi -> _dir fi = Some d -> dirOf w a = Some d.
Proof. unfold dirOf. intros -> H. done. Qed.

Lemma dirOf_Some w a d :
  dirOf w a = Some d -> exists fi, heap w !! a = Some fi /\ _dir fi = Some d.
Proof. unfold dirOf. destruct (heap w !! a) as [fi|]; simpl; [eauto|done]. Qed.

(** * The parent chain *)

Lemma up_chain_head h a l :
  up_chain h a l ->
  exists fi d, h !! a = Some fi /\ _dir fi = Some d /\ _parent fi = head l.
Proof.
  destruct l as [|p l]; simpl.
  - intros (fi & H1 & [d H2] & H3). eauto.
  - intros [(fi & H1 & [d H2] & H3) _]. eauto.
Qed.

Lemma up_chain_tail h a p l : up_chain h a (p :: l) -> up_chain h p l.
Proof. simpl. tauto. Qed.

Lemma up_chain_fun h a l1 l2 : up_chain h a l1 -> up_chain h a l2 -> l1 = l2.
Proof.
  revert a l2. induction l1 as [|p l1 IH]; intros a l2 H1 H2.
  - destruct l2 as [|q l2]; [done|].
    apply up_chain_head in H1 as (fi & d & E1 & _ & P1).
    apply up_chain_head in H2 as (fi' & d' & E2 & _ & P2).
    simpl in *. congruence.
  - destruct l2 as [|q l2].
    + apply up_chain_head in H1 as (fi & d & E1 & _ & P1).
      apply up_chain_head in H2 as (fi' & d' & E2 & _ & P2).
      simpl in *. congruence.
    + pose proof (up_chain_head _ _ _ H1) as (fi & d & E1 & _ & P1).
      pose proof (up_chain_head _ _ _ H2) as (fi' & d' & E2 & _ & P2).
      simpl in P1, P2. assert (p = q) as <- by congruence.
      f_equal. eapply IH; eapply up_chain_tail; eauto.
Qed.

Lemma up_chain_suffix h a l x :
  up_chain h a l -> x ∈ l -> exists l1 l2, l = l1 ++ x :: l2 /\ up_chain h x l2.
Proof.
  revert a. induction l as [|p l IH]; intros a H Hx.
  - by apply elem_of_nil in Hx.
  - apply elem_of_cons in Hx as [->|Hx].
    + exists [], l. split; [done|]. by eapply up_chain_tail.
    + destruct (IH p (up_chain_tail _ _ _ _ H) Hx) as (l1 & l2 & -> & H2).
      exists (p :: l1), l2. done.
Qed.

Lemma up_chain_not_self h a l : up_chain h a l -> a ∉ l.
Proof.
  intros H Ha. destruct (up_chain_suffix _ _ _ _ H Ha) as (l1 & l2 & -> & H2).
  pose proof (up_chain_fun _ _ _ _ H H2) as E.
  apply (f_equal length) in E. rewrite length_app in E. simpl in E. lia.
Qed.

Lemma up_chain_NoDup h a l : up_chain h a l -> NoDup (a :: l).
Proof.
  revert a. induction l as [|p l IH]; intros a H.
  - apply NoDup_singleton.
  - apply NoDup_cons. split; [by eapply up_chain_not_self|].
    apply IH. by eapply up_chain_tail.
Qed.

(** Updating the [DirInfo] members of a node keeps every parent chain. *)
Lemma up_chain_set_dir h b fi d x l :
  h !! b = Some fi -> is_Some (_dir fi) ->
  up_chain h x l -> up_chain (<[b := set_dir d fi]> h) x l.
Proof.
  intros Hb Hd. revert x. induction l as [|p l IH]; intros x; simpl.
  - intros (fx & H1 & H2 & H3). destruct (decide (b = x)) as [->|Hne].
    + rewrite lookup_insert_eq. exists (set_dir d fi). simpl.
      split; [done|]. split; [eauto|]. congruence.
    + rewrite lookup_insert_ne by done. eauto.
  - intros [(fx & H1 & H2 & H3) H4]. split; [|by apply IH].
    destruct (decide (b = x)) as [->|Hne].
    + rewrite lookup_insert_eq. exists (set_dir d fi). simpl.
      split; [done|]. split; [eauto|]. congruence.
    + rewrite lookup_insert_ne by done. eauto.
Qed.

(** * Propagation to the ancestors *)

Lemma walk_up_spec f w this l fuel :
  up_chain (heap w) this l -> (length l < fuel)%nat ->
  exists h',
    walk_up f fuel this w = Some (tt, with_heap h' w) /\
    (forall a, a ∈ this :: l ->
       exists fi d, heap w !! a = Some fi /\ _dir fi = Some d /\
                    h' !! a = Some (set_dir (f d) fi)) /\
    (forall a, a ∉ this :: l -> h' !! a = heap w !! a).
Proof.
  revert w this fuel. induction l as [|p l IH]; intros w this fuel Hc Hf.
  - destruct fuel as [|fuel]; [simpl in Hf; lia|].
    destruct Hc as (fi & H1 & [d H2] & H3). simpl.
    rewrite (bind_eq _ _ _ _ _ (modifyDir_eq _ _ f _ _ H1 H2)).
    erewrite bind_eq by (apply deref_eq; simpl; apply lookup_insert_eq).
    simpl. rewrite H3. eexists. split; [reflexivity|]. split.
    + intros a ->%list_elem_of_singleton. exists fi, d.
      by rewrite lookup_insert_eq.
    + intros a Ha. rewrite lookup_insert_ne; [done|].
      intros ->. apply Ha. apply list_elem_of_here.
  - destruct fuel as [|fuel]; [simpl in Hf; lia|].
    pose proof (up_chain_not_self _ _ _ Hc) as Hnot.
    destruct Hc as [(fi & H1 & [d H2] & H3) Hc]. simpl.
    rewrite (bind_eq _ _ _ _ _ (modifyDir_eq _ _ f _ _ H1 H2)).
    erewrite bind_eq by (apply deref_eq; simpl; apply lookup_insert_eq).
    simpl. rewrite H3.
    set (w1 := with_heap (<[this := set_dir (f d) fi]> (heap w)) w).
    destruct (IH w1 p fuel) as (h' & E & In & Out).
    { simpl. apply up_chain_set_dir; eauto. }
    { simpl in Hf. lia. }
    exists h'. split; [exact E|]. split.
    + intros a [->|Ha]%elem_of_cons.
      * exists fi, d. split; [done|]. split; [done|].
        rewrite Out by done. simpl. apply lookup_insert_eq.
      * destruct (In a Ha) as (fa & da & E1 & E2 & E3).
        assert (a <> this) by (intros ->; done).
        simpl in E1. rewrite lookup_insert_ne in E1 by done. eauto.
    + intros a Ha. rewrite Out.
      * simpl. apply lookup_insert_ne. intros ->. apply Ha, list_elem_of_here.
      * intros Hin. apply Ha. by apply list_elem_of_further.
Qed.

Lemma readJobAdded_walk fuel this w :
  readJobAdded fuel this w
  = walk_up (fun d => set_pendingReadJobs (_pendingReadJobs d + 1) d) fuel this w.
Proof.
  revert this w. induction fuel as [|fuel IH]; intros this w; [done|].
  simpl. unfold bind. destruct (modifyDir _ _ _) as [[? w1]|]; [|done].
  destruct (deref this w1) as [[fi w2]|]; [|done].
  destruct (_parent fi); [apply IH|done].
Qed.

Lemma readJobFinished_walk fuel this w :
  readJobFinished fuel this w
  = walk_up (fun d => set_pendingReadJobs (_pendingReadJobs d - 1) d) fuel this w.
Proof.
  revert this w. induction fuel as [|fuel IH]; intros this w; [done|].
  simpl. unfold bind. destruct (modifyDir _ _ _) as [[? w1]|]; [|done].
  destruct (deref this w1) as [[fi w2]|]; [|done].
  destruct (_parent fi); [apply IH|done].
Qed.

Lemma readJobAborted_walk fuel this w :
  readJobAborted fuel this w = walk_up (set_readState KDirAborted) fuel this w.
Proof.
  revert this w. induction fuel as [|fuel IH]; intros this w; [done|].
  simpl. unfold bind. destruct (modifyDir _ _ _) as [[? w1]|]; [|done].
  destruct (deref this w1) as [[fi w2]|]; [|done].
  destruct (_parent fi); [apply IH|done].
Qed.

Lemma up_chain_ext h h' x l :
  (forall a fi, h !! a = Some fi ->
     exists fi', h' !! a = Some fi' /\ _parent fi' = _parent fi /\
                 (is_Some (_dir fi) -> is_Some (_dir fi'))) ->
  up_chain h x l -> up_chain h' x l.
Proof.
  intros Hext. revert x. induction l as [|p l IH]; intros x; simpl.
  - intros (fx & H1 & H2 & H3).
    destruct (Hext _ _ H1) as (fx' & E1 & E2 & E3).
    exists fx'. split; [done|]. split; [auto|congruence].
  - intros [(fx & H1 & H2 & H3) H4]. split; [|by apply IH].
    destruct (Hext _ _ H1) as (fx' & E1 & E2 & E3).
    exists fx'. split; [done|]. split; [auto|congruence].
Qed.


Lemma walk_up_chain (f : DirInfo -> DirInfo) w this l h' :
  up_chain (heap w) this l ->
  (forall a, a ∈ this :: l ->
     exists fi d, heap w !! a = Some fi /\ _dir fi = Some d /\
                  h' !! a = Some (set_dir (f d) fi)) ->
  (forall a, a ∉ this :: l -> h' !! a = heap w !! a) ->
  up_chain h' this l.
Proof.
  intros Hc In Out. eapply up_chain_ext; [|exact Hc].
  intros a fi Ha. destruct (decide (a ∈ this :: l)) as [Hin|Hout].
  - destruct (In a Hin) as (fa & da & E1 & E2 & E3).
    assert (fa = fi) as -> by congruence.
    exists (set_dir (f da) fi). simpl. eauto.
  - exists fi. rewrite Out by done. eauto.
Qed.



Lemma with_heap_with_heap h1 h2 w : with_heap h1 (with_heap h2 w) = with_heap h1 w.
Proof. done. Qed.


(** * Claims on the read jobs and the read state *)


Ltac solve_chain := vm_compute; repeat (first [done | split | eexists]).


Lemma storedReadState_Some w a s :
  storedReadState w a = Some s ->
  exists fi d, heap w !! a = Some fi /\ _dir fi = Some d /\ _readState d = s.
Proof.
  unfold storedReadState. destruct (dirOf w a) as [d|] eqn:E; [|done].
  intros [= <-]. apply dirOf_Some in E as (fi & ? & ?). eauto.
Qed.

Lemma setReadState_spec w this fi d newReadState :
  heap w !! this = Some fi -> _dir fi = Some d ->
  exists w',
    setReadState this newReadState w = Some (tt, w') /\
    storedReadState w' this
    = Some (if bool_decide (_readState d = KDirAborted /\ newReadState = KDirFinished)
            then _readState d else newReadState) /\
    (forall a, a <> this -> heap w' !! a = heap w !! a).
Proof.
  intros H1 H2. unfold setReadState.
  rewrite (bind_eq _ _ _ _ _ (derefDir_eq _ _ _ _ H1 H2)).
  destruct (decide (_readState d = KDirAborted)) as [Ea|Ea];
    destruct (decide (newReadState = KDirFinished)) as [En|En].
  - rewrite !bool_decide_eq_true_2 by done. simpl. exists w.
    split; [done|]. split; [|done].
    unfold storedReadState. by rewrite (dirOf_eq _ _ _ _ H1 H2).
  - rewrite (bool_decide_eq_false_2 (newReadState = _)) by done.
    rewrite andb_false_r, (modifyDir_eq _ _ _ _ _ H1 H2).
    eexists. split; [done|]. split.
    + unfold storedReadState, dirOf. simpl. rewrite lookup_insert_eq. simpl.
      rewrite bool_decide_eq_false_2; [done|tauto].
    + intros a Ha. simpl. by rewrite lookup_insert_ne.
  - rewrite (bool_decide_eq_false_2 (_readState d = _)) by done. simpl.
    rewrite (modifyDir_eq _ _ _ _ _ H1 H2).
    eexists. split; [done|]. split.
    + unfold storedReadState, dirOf. simpl. rewrite lookup_insert_eq. simpl.
      rewrite bool_decide_eq_false_2; [done|tauto].
    + intros a Ha. simpl. by rewrite lookup_insert_ne.
  - rewrite (bool_decide_eq_false_2 (_readState d = _)) by done. simpl.
    rewrite (modifyDir_eq _ _ _ _ _ H1 H2).
    eexists. split; [done|]. split.
    + unfold storedReadState, dirOf. simpl. rewrite lookup_insert_eq. simpl.
      rewrite bool_decide_eq_false_2; [done|tauto].
    + intros a Ha. simpl. by rewrite lookup_insert_ne.
Qed.

(** C6, as stated, fails: on the aborted root, [setReadState( KDirReading )]
    stores [KDirReading]. *)
Lemma setReadState_aborted_overwritten :
  storedReadState abortedWorld 1 = Some KDirAborted /\
  exists w', setReadState 1 KDirReading abortedWorld = Some (tt, w') /\
             storedReadState w' 1 = Some KDirReading.
Proof. split; [reflexivity|]. eexists. split; reflexivity. Qed.

(** C6, amended: on a node whose stored read state is [KDirAborted],
    [setReadState( KDirFinished )] (and [setReadState( KDirAborted )])
    leaves it [KDirAborted]; [setReadState( KDirQueued )] and
    [setReadState( KDirReading )] store the new state.  No other object
    changes. *)
Theorem setReadState_after_abort w this newReadState :
  storedReadState w this = Some KDirAborted ->
  exists w',
    setReadState this newReadState w = Some (tt, w') /\
    storedReadState w' this
    = Some (match newReadState with
            | KDirFinished => KDirAborted
            | s => s
            end) /\
    (forall a, a <> this -> heap w' !! a = heap w !! a).
Proof.
  intros (fi & d & H1 & H2 & H3)%storedReadState_Some.
  destruct (setReadState_spec w this fi d newReadState H1 H2) as (w' & E & S & O).
  exists w'. split; [done|]. split; [|done]. rewrite S, H3.
  by destruct newReadState.
Qed.

Lemma setReadState_after_abort_witness :
  storedReadState abortedWorld 1 = Some KDirAborted /\
  exists w', setReadState 1 KDirFinished abortedWorld = Some (tt, w') /\
             storedReadState w' 1 = Some KDirAborted.
Proof.
  split; [reflexivity|].
  destruct (setReadState_after_abort abortedWorld 1 KDirFinished) as (w' & E & S & _);
    [reflexivity|].
  exists w'. split; [exact E | exact S].
Defined.

(** ** [readState()] *)

Lemma readState_unfold fuel this w fi d :
  heap w !! this = Some fi -> _dir fi = Some d ->
  readState (S fuel) this w
  = match _isDotEntry d, _parent fi with
    | true, Some p => readState fuel p w
    | _, _ => Some (_readState d, w)
    end.
Proof.
  intros H1 H2. simpl. rewrite (bind_eq _ _ _ _ _ (deref_eq _ _ _ H1)), H2.
  by destruct (_isDotEntry d), (_parent fi).
Qed.

Lemma readState_total w this l : forall fuel,
  up_chain (heap w) this l -> (length l < fuel)%nat ->
  exists r, readState fuel this w = Some (r, w).
Proof.
  revert this. induction l as [|p l IH]; intros this fuel Hc Hf;
    (destruct fuel as [|fuel]; [simpl in Hf; lia|]);
    pose proof (up_chain_head _ _ _ Hc) as (fi & d & H1 & H2 & H3); simpl in H3;
    rewrite (readState_unfold _ _ _ _ _ H1 H2), H3.
  - destruct (_isDotEntry d); eauto.
  - destruct (_isDotEntry d); [|eauto].
    apply IH; [by eapply up_chain_tail | simpl in Hf; lia].
Qed.

Lemma readState_fuel w this l : forall fuel1 fuel2,
  up_chain (heap w) this l -> (length l < fuel1)%nat -> (length l < fuel2)%nat ->
  readState fuel1 this w = readState fuel2 this w.
Proof.
  revert this. induction l as [|p l IH]; intros this fuel1 fuel2 Hc Hf1 Hf2;
    (destruct fuel1 as [|fuel1]; [simpl in Hf1; lia|]);
    (destruct fuel2 as [|fuel2]; [simpl in Hf2; lia|]);
    pose proof (up_chain_head _ _ _ Hc) as (fi & d & H1 & H2 & H3); simpl in H3;
    rewrite !(readState_unfold _ _ _ _ _ H1 H2), H3.
  - by destruct (_isDotEntry d).
  - destruct (_isDotEntry d); [|done].
    apply IH; [by eapply up_chain_tail | simpl in *; lia ..].
Qed.

(** The value [readState()] returns on [p] does not depend on the members
    of an object that is not on the parent chain of [p]. *)
Lemma readState_frame w p l this fi' : forall fuel,
  up_chain (heap w) p l -> this ∉ p :: l ->
  fst <$> readState fuel p (with_heap (<[this := fi']> (heap w)) w)
  = fst <$> readState fuel p w.
Proof.
  revert p. induction l as [|q l IH]; intros p fuel Hc Hn;
    (destruct fuel as [|fuel]; [done|]);
    pose proof (up_chain_head _ _ _ Hc) as (fi & d & H1 & H2 & H3); simpl in H3;
    assert (this <> p) by (intros ->; apply Hn, list_elem_of_here);
    rewrite (readState_unfold _ _ w _ _ H1 H2);
    erewrite readState_unfold by (simpl; rewrite ?lookup_insert_ne by done; eauto);
    rewrite H3.
  - by destruct (_isDotEntry d).
  - destruct (_isDotEntry d); [|done].
    apply IH; [by eapply up_chain_tail|].
    intros Hin. apply Hn. by apply list_elem_of_further.
Qed.

(** C8: on a dot entry [this] that has a parent [p], [readState()] returns
    what [readState()] returns on [p] (both calls return, given enough fuel
    for the parent chain [l] of [p]), and this value stays the same
    whatever state [v] is stored in the dot entry's own [_readState];
    a node that is not a dot entry, or that has no parent, reports its
    stored [_readState]. *)
Theorem readState_of_dot_entry w this fi d :
  heap w !! this = Some fi -> _dir fi = Some d ->
  (forall p l fuel fuelp,
     _isDotEntry d = true -> _parent fi = Some p ->
     up_chain (heap w) p l -> (length l < fuelp)%nat -> (S (length l) < fuel)%nat ->
     exists r,
       readState fuelp p w = Some (r, w) /\
       readState fuel this w = Some (r, w) /\
       forall v,
         let w' := with_heap (<[this := set_dir (set_readState v d) fi]> (heap w)) w in
         readState fuel this w' = Some (r, w')) /\
  (forall fuel,
     _isDotEntry d = false \/ _parent fi = None ->
     readState (S fuel) this w = Some (_readState d, w)).
Proof.
  intros H1 H2. split.
  - intros p l fuel fuelp Hdot Hp Hc Hfp Hf.
    destruct (readState_total w p l fuelp Hc Hfp) as (r & Er).
    exists r. split; [done|].
    destruct fuel as [|fuel]; [lia|].
    assert (readState fuel p w = Some (r, w)) as Er'.
    { rewrite <- Er. apply (readState_fuel w p l); [done|lia|done]. }
    split.
    + by rewrite (readState_unfold _ _ _ _ _ H1 H2), Hdot, Hp.
    + intros v w'.
      assert (up_chain (heap w) this (p :: l)) as Hc'.
      { simpl. split; [|done]. exists fi. eauto. }
      pose proof (up_chain_not_self _ _ _ Hc') as Hn.
      assert (heap w' !! this = Some (set_dir (set_readState v d) fi)) as Ew
        by (subst w'; simpl; apply lookup_insert_eq).
      rewrite (readState_unfold _ _ _ _ _ Ew eq_refl).
      simpl. rewrite Hdot, Hp.
      assert (up_chain (heap w') p l) as Hcw.
      { subst w'. simpl. apply up_chain_set_dir; eauto. }
      destruct (readState_total w' p l fuel Hcw ltac:(lia)) as (r' & Er2).
      rewrite Er2. f_equal. f_equal.
      pose proof (readState_frame w p l this (set_dir (set_readState v d) fi) fuel Hc Hn) as F.
      fold w' in F. rewrite Er2, Er' in F. simpl in F. congruence.
  - intros fuel Hor. rewrite (readState_unfold _ _ _ _ _ H1 H2).
    destruct Hor as [-> | ->]; [done|]. by destruct (_isDotEntry d).
Qed.

(** On the aborted root: the dot entry (address 2) stores [KDirQueued] but
    reports the root's [KDirAborted]. *)
Lemma readState_of_dot_entry_witness :
  storedReadState abortedWorld 2 = Some KDirQueued /\
  exists r, readState 1 1 abortedWorld = Some (r, abortedWorld) /\
            readState 2 2 abortedWorld = Some (r, abortedWorld) /\
            r = KDirAborted.
Proof.
  split; [reflexivity|].
  destruct (heap abortedWorld !! 2%positive) as [fi|] eqn:E1; [|discriminate E1].
  destruct (_dir fi) as [d|] eqn:E2;
    [|vm_compute in E1; injection E1 as <-; discriminate E2].
  destruct (readState_of_dot_entry abortedWorld 2 fi d E1 E2) as [Hdot _].
  destruct (Hdot 1%positive [] 2%nat 1%nat) as (r & Ep & Ed & _).
  - vm_compute in E1. injection E1 as <-. vm_compute in E2. by injection E2 as <-.
  - vm_compute in E1. by injection E1 as <-.
  - solve_chain.
  - simpl; lia.
  - simpl; lia.
  - exists r. split; [exact Ep|]. split; [exact Ed|].
    vm_compute in Ep. by injection Ep as <-.
Defined.

(** ** [isBusy()] *)

(** What the code of [isBusy()] computes: the first test reads the stored
    member [_readState], the second the accessor [readState()]. *)
Lemma isBusy_code w this fi d l fuel :
  heap w !! this = Some fi -> _dir fi = Some d ->
  up_chain (heap w) this l -> (length l < fuel)%nat ->
  exists r,
    readState fuel this w = Some (r, w) /\
    isBusy fuel this w
    = Some ((0 <? _pendingReadJobs d) && negb (bool_decide (_readState d = KDirAborted))
            || bool_decide (r = KDirReading) || bool_decide (r = KDirQueued), w) /\
    isFinished fuel this w
    = Some (negb ((0 <? _pendingReadJobs d) && negb (bool_decide (_readState d = KDirAborted))
                  || bool_decide (r = KDirReading) || bool_decide (r = KDirQueued)), w).
Proof.
  intros H1 H2 Hc Hf. destruct (readState_total w this l fuel Hc Hf) as (r & Er).
  exists r. split; [done|].
  assert (isBusy fuel this w
    = Some ((0 <? _pendingReadJobs d) && negb (bool_decide (_readState d = KDirAborted))
            || bool_decide (r = KDirReading) || bool_decide (r = KDirQueued), w)) as Eb.
  { unfold isBusy. rewrite (bind_eq _ _ _ _ _ (derefDir_eq _ _ _ _ H1 H2)).
    destruct ((0 <? _pendingReadJobs d) && negb (bool_decide (_readState d = KDirAborted)));
      [done|].
    rewrite (bind_eq _ _ _ _ _ Er). simpl.
    destruct (bool_decide (r = KDirReading)); [done|].
    rewrite (bind_eq _ _ _ _ _ Er). by destruct (bool_decide (r = KDirQueued)). }
  split; [done|]. unfold isFinished. by rewrite (bind_eq _ _ _ _ _ Eb).
Qed.

(** On a node that is not a dot entry, or has no parent, the accessor
    reports the stored state, and [isBusy()] is the condition of the
    specification. *)
Lemma isBusy_not_dot_entry w this fi d l fuel :
  heap w !! this = Some fi -> _dir fi = Some d ->
  _isDotEntry d = false \/ _parent fi = None ->
  up_chain (heap w) this l -> (length l < fuel)%nat ->
  readState fuel this w = Some (_readState d, w) /\
  isBusy fuel this w = Some (busy_spec (_pendingReadJobs d) (_readState d), w) /\
  isFinished fuel this w = Some (negb (busy_spec (_pendingReadJobs d) (_readState d)), w).
Proof.
  intros H1 H2 Hor Hc Hf.
  destruct (isBusy_code w this fi d l fuel H1 H2 Hc Hf) as (r & Er & Eb & Ef).
  destruct fuel as [|fuel]; [lia|].
  destruct (readState_of_dot_entry w this fi d H1 H2) as [_ Hst].
  rewrite (Hst fuel Hor) in Er. injection Er as <-.
  split; [apply (Hst fuel Hor)|]. unfold busy_spec. split; assumption.
Qed.

(** C7 fails on a dot entry.  In [dotJobAbortedWorld] the dot entry
    (address 2) has one pending read job and stores [KDirQueued], and its
    [readState()] accessor reports the root's [KDirAborted].  [isBusy()]
    returns [true] and [isFinished()] returns [false], where the condition
    of the claim, taken on the accessor's value, is [false]. *)
Theorem isBusy_dot_entry_reads_stored_state :
  pendingReadJobs dotJobAbortedWorld 2 = Some 1 /\
  storedReadState dotJobAbortedWorld 2 = Some KDirQueued /\
  readState 2 2 dotJobAbortedWorld = Some (KDirAborted, dotJobAbortedWorld) /\
  busy_spec 1 KDirAborted = false /\
  isBusy 2 2 dotJobAbortedWorld = Some (true, dotJobAbortedWorld) /\
  isFinished 2 2 dotJobAbortedWorld = Some (false, dotJobAbortedWorld).
Proof. repeat split; reflexivity. Qed.

(** * Sibling lists *)

Lemma lseg_app h p l1 l2 q :
  lseg h p (l1 ++ l2) q <-> exists m, lseg h p l1 m /\ lseg h m l2 q.
Proof.
  revert p. induction l1 as [|a l1 IH]; intros p; simpl.
  - split; [intros H; by exists p | by intros (m & -> & H)].
  - split.
    + intros (-> & fi & Ha & H). apply IH in H as (m & H1 & H2).
      exists m. split; [|done]. split; [done|]. eauto.
    + intros (m & (-> & fi & Ha & H1) & H2). split; [done|].
      exists fi. split; [done|]. apply IH. eauto.
Qed.

Lemma lseg_fun h p l1 l2 : lseg h p l1 None -> lseg h p l2 None -> l1 = l2.
Proof.
  revert p l2. induction l1 as [|a l1 IH]; intros p l2; simpl.
  - intros ->. destruct l2; simpl; [done|]. by intros [? _].
  - intros (-> & fi & Ha & H1). destruct l2 as [|b l2]; simpl; [done|].
    intros ([= <-] & fi' & Ha' & H2). f_equal.
    assert (fi' = fi) as -> by congruence. eauto.
Qed.

Lemma lseg_not_in_tail h a fi l :
  h !! a = Some fi -> lseg h (_next fi) l None -> a ∉ l.
Proof.
  intros Ha H Hin. apply list_elem_of_split in Hin as (l1 & l2 & ->).
  pose proof H as H'. apply lseg_app in H' as (m & _ & H2).
  simpl in H2. destruct H2 as (-> & fi' & Ha' & H2).
  assert (fi' = fi) as -> by congruence.
  pose proof (lseg_fun _ _ _ _ H H2) as E.
  apply (f_equal length) in E. rewrite length_app in E. simpl in E. lia.
Qed.

Lemma lseg_NoDup h p l : lseg h p l None -> NoDup l.
Proof.
  revert p. induction l as [|a l IH]; intros p; simpl.
  - intros _. apply NoDup_nil_2.
  - intros (-> & fi & Ha & H). apply NoDup_cons. split; [|by eapply IH].
    by eapply lseg_not_in_tail.
Qed.

(** Only the [_next] members of the objects of the list matter. *)
Lemma lseg_ext h h' p l q :
  (forall a fi, a ∈ l -> h !! a = Some fi ->
     exists fi', h' !! a = Some fi' /\ _next fi' = _next fi) ->
  lseg h p l q -> lseg h' p l q.
Proof.
  revert p. induction l as [|a l IH]; intros p Hext; simpl; [done|].
  intros (-> & fi & Ha & H). split; [done|].
  destruct (Hext a fi (list_elem_of_here _ _) Ha) as (fi' & Ha' & En).
  exists fi'. split; [done|]. rewrite En. apply IH; [|done].
  intros b fb Hb. apply Hext. by apply list_elem_of_further.
Qed.

Lemma lseg_insert_other h b fb p l q :
  b ∉ l -> lseg h p l q -> lseg (<[b := fb]> h) p l q.
Proof.
  intros Hb. apply lseg_ext. intros a fi Ha E. exists fi.
  rewrite lookup_insert_ne; [done|]. intros ->. done.
Qed.

Lemma lseg_insert_same_next h b fb fb' p l q :
  h !! b = Some fb -> _next fb' = _next fb ->
  lseg h p l q -> lseg (<[b := fb']> h) p l q.
Proof.
  intros Hb En. apply lseg_ext. intros a fi Ha E.
  destruct (decide (b = a)) as [->|Hne].
  - rewrite lookup_insert_eq. exists fb'. split; [done|]. congruence.
  - rewrite lookup_insert_ne by done. eauto.
Qed.

Lemma lseg_in_heap h p l q a : lseg h p l q -> a ∈ l -> is_Some (h !! a).
Proof.
  revert p. induction l as [|b l IH]; intros p; simpl.
  - intros _ Hin. by apply elem_of_nil in Hin.
  - intros (-> & fi & Hb & H) [->|Hin]%elem_of_cons; [eauto|]. eauto.
Qed.

Lemma siblings_lseg h p l : forall fuel,
  lseg h p l None -> (length l < fuel)%nat -> siblings fuel h p = Some l.
Proof.
  revert p. induction l as [|a l IH]; intros p fuel; simpl.
  - intros -> _. by destruct fuel.
  - intros (-> & fi & Ha & H) Hf. destruct fuel as [|fuel]; [lia|].
    simpl. rewrite Ha. rewrite (IH _ fuel H); [done|lia].
Qed.

(** ** [unlinkChild()] *)

(** The scan stops at the first child whose [next()] is [deletedChild]. *)
Lemma unlinkChild_scan_found w this c dc l1 pred pfi l2 : forall p fuel,
  lseg (heap w) p (l1 ++ [pred]) (Some c) ->
  c ∉ l1 -> c <> pred ->
  heap w !! pred = Some pfi -> heap w !! c = Some dc ->
  (length l1 < fuel)%nat ->
  unlinkChild_scan fuel this c p w
  = Some (tt, with_heap (<[pred := set_next (next dc) pfi]> (heap w)) w) /\
  (lseg (heap w) (next dc) l2 None -> pred ∉ l1 -> pred ∉ l2 ->
   (forall a, a ∈ l1 -> a ∉ l2) ->
   lseg (<[pred := set_next (next dc) pfi]> (heap w)) p (l1 ++ pred :: l2) None).
Proof.
  induction l1 as [|a l1 IH]; intros p fuel Hl Hc Hcp Hp Hd Hf.
  - simpl in Hl. destruct Hl as (-> & fi & E & Hn).
    assert (fi = pfi) as -> by congruence.
    destruct fuel as [|fuel]; [simpl in Hf; lia|]. simpl.
    rewrite (bind_eq _ _ _ _ _ (deref_eq _ _ _ Hp)).
    rewrite bool_decide_eq_true_2 by done.
    rewrite (bind_eq _ _ _ _ _ (deref_eq _ _ _ Hd)).
    unfold setNext. rewrite (modify_eq _ _ _ _ Hp). split; [done|].
    intros H2 _ Hp2 _. simpl. split; [done|].
    exists (set_next (next dc) pfi). rewrite lookup_insert_eq. split; [done|].
    simpl. by apply lseg_insert_other.
  - simpl in Hl. destruct Hl as (-> & fi & E & Hn).
    destruct fuel as [|fuel]; [simpl in Hf; lia|]. simpl.
    rewrite (bind_eq _ _ _ _ _ (deref_eq _ _ _ E)).
    assert (next fi <> Some c) as Hne.
    { intros Heq. unfold next in Heq. rewrite Heq in Hn.
      destruct l1; simpl in Hn; destruct Hn as [[= ->] _]; [done|].
      apply Hc, list_elem_of_further, list_elem_of_here. }
    rewrite bool_decide_eq_false_2 by done.
    destruct (IH (next fi) fuel) as [E1 E2]; try done.
    { intros Hin. apply Hc. by apply list_elem_of_further. }
    { simpl in Hf. lia. }
    split; [done|].
    intros H2 Hp1 Hp2 Hdisj. simpl. split; [done|].
    assert (pred <> a) by (intros ->; apply Hp1, list_elem_of_here).
    exists fi. rewrite lookup_insert_ne by done. split; [done|].
    apply E2; [done| |done|].
    + intros Hin. apply Hp1. by apply list_elem_of_further.
    + intros b Hb. apply Hdisj. by apply list_elem_of_further.
Qed.

(** The scan reaches the end of a list that does not contain
    [deletedChild], mutates nothing and logs the failure. *)
Lemma unlinkChild_scan_missing w this c l : forall p fuel,
  lseg (heap w) p l None -> c ∉ l -> (length l <= fuel)%nat ->
  unlinkChild_scan fuel this c p w
  = Some (tt, with_errors (CouldntUnlink c this :: errors w) w).
Proof.
  induction l as [|a l IH]; intros p fuel Hl Hc Hf.
  - simpl in Hl. subst p. by destruct fuel.
  - simpl in Hl. destruct Hl as (-> & fi & E & Hn).
    destruct fuel as [|fuel]; [simpl in Hf; lia|]. simpl.
    rewrite (bind_eq _ _ _ _ _ (deref_eq _ _ _ E)).
    assert (next fi <> Some c) as Hne.
    { intros Heq. unfold next in Heq. rewrite Heq in Hn.
      destruct l; simpl in Hn; [done|]. destruct Hn as [[= ->] _].
      apply Hc, list_elem_of_further, list_elem_of_here. }
    rewrite bool_decide_eq_false_2 by done.
    apply IH; [done| |simpl in Hf; lia].
    intros Hin. apply Hc. by apply list_elem_of_further.
Qed.

Lemma lseg_cons_inv h a l q fi :
  lseg h (Some a) (a :: l) q -> h !! a = Some fi -> lseg h (_next fi) l q.
Proof. simpl. intros (_ & fi' & E & H) E'. congruence. Qed.

Lemma unlinkChild_not_a_child w this c dc fuel :
  heap w !! c = Some dc -> parent dc <> Some this ->
  unlinkChild fuel this c w
  = Some (tt, with_errors (NotAChild c this :: errors w) w).
Proof.
  intros Hc Hp. unfold unlinkChild.
  rewrite (bind_eq _ _ _ _ _ (deref_eq _ _ _ Hc)).
  by rewrite bool_decide_eq_false_2.
Qed.

Lemma unlinkChild_not_in_list w this c dc l fuel :
  heap w !! c = Some dc -> parent dc = Some this ->
  children (heap w) this l -> c ∉ l -> (length l <= fuel)%nat ->
  unlinkChild fuel this c w
  = Some (tt, with_errors (CouldntUnlink c this :: errors w) w).
Proof.
  intros Hc Hp (fi & d & H1 & H2 & Hl) Hn Hf. unfold unlinkChild.
  rewrite (bind_eq _ _ _ _ _ (deref_eq _ _ _ Hc)).
  rewrite bool_decide_eq_true_2 by done. simpl.
  rewrite (bind_eq _ _ _ _ _ (derefDir_eq _ _ _ _ H1 H2)).
  rewrite bool_decide_eq_false_2.
  - by eapply unlinkChild_scan_missing.
  - intros Heq. rewrite <- Heq in Hl. destruct l; simpl in Hl; [done|].
    destruct Hl as [[= <-] _]. apply Hn, list_elem_of_here.
Qed.

Lemma unlinkChild_in_list w this c dc l1 l2 fuel :
  heap w !! c = Some dc -> parent dc = Some this ->
  children (heap w) this (l1 ++ c :: l2) -> (length l1 <= fuel)%nat ->
  exists h',
    unlinkChild fuel this c w = Some (tt, with_heap h' w) /\
    children h' this (l1 ++ l2) /\
    ((l1 = [] /\ exists fi d, heap w !! this = Some fi /\ _dir fi = Some d /\
        h' = <[this := set_dir (set_firstChild (next dc) d) fi]> (heap w)) \/
     (exists l0 pred pfi, l1 = l0 ++ [pred] /\ heap w !! pred = Some pfi /\
        h' = <[pred := set_next (next dc) pfi]> (heap w))).
Proof.
  intros Hc Hp (fi & d & H1 & H2 & Hl) Hf. unfold unlinkChild.
  rewrite (bind_eq _ _ _ _ _ (deref_eq _ _ _ Hc)).
  rewrite bool_decide_eq_true_2 by done. simpl.
  rewrite (bind_eq _ _ _ _ _ (derefDir_eq _ _ _ _ H1 H2)).
  pose proof (lseg_NoDup _ _ _ Hl) as Hnd.
  destruct l1 as [|pred l0 _] using rev_ind.
  - simpl in Hl. pose proof Hl as [E _]. rewrite <- E.
    rewrite bool_decide_eq_true_2 by done.
    rewrite (modifyDir_eq _ _ _ _ _ H1 H2).
    eexists. split; [done|]. split.
    + exists (set_dir (set_firstChild (next dc) d) fi), (set_firstChild (next dc) d).
      rewrite lookup_insert_eq. split; [done|]. split; [done|]. simpl.
      eapply lseg_insert_same_next; [done|done|].
      rewrite E in Hl. by eapply lseg_cons_inv.
    + left. split; [done|]. by exists fi, d.
  - rewrite <- app_assoc in Hl, Hnd. simpl in Hl, Hnd.
    apply NoDup_app in Hnd as (Hnd0 & Hdisj & Hnd1).
    apply NoDup_cons in Hnd1 as (Hp1 & Hnd2).
    apply NoDup_cons in Hnd2 as (Hc2 & Hnd2).
    pose proof Hl as Hl'.
    apply lseg_app in Hl' as (m & Hl0 & Hl1). simpl in Hl1.
    destruct Hl1 as (-> & pfi & Epred & (Enext & fc & Ec & Hl2)).
    assert (fc = dc) as -> by congruence.
    assert (c ∉ l0) as Hc0.
    { intros Hin. apply (Hdisj c Hin). apply list_elem_of_further, list_elem_of_here. }
    assert (c <> pred) as Hcp.
    { intros ->. apply Hp1, list_elem_of_here. }
    assert (pred ∉ l0) as Hp0.
    { intros Hin. apply (Hdisj pred Hin), list_elem_of_here. }
    assert (pred ∉ l2) as Hp2.
    { intros Hin. apply Hp1. by apply list_elem_of_further. }
    assert (forall a, a ∈ l0 -> a ∉ l2) as Hd02.
    { intros a Ha Hin. apply (Hdisj a Ha). by do 2 apply list_elem_of_further. }
    assert (lseg (heap w) (_firstChild d) (l0 ++ [pred]) (Some c)) as Hseg.
    { apply lseg_app. exists (Some pred). split; [done|]. simpl.
      split; [done|]. by exists pfi. }
    rewrite bool_decide_eq_false_2.
    2:{ intros Heq. rewrite <- Heq in Hseg.
        destruct l0; simpl in Hseg; destruct Hseg as [[= ->] _]; [done|].
        apply Hc0, list_elem_of_here. }
    destruct (unlinkChild_scan_found w this c dc l0 pred pfi l2 (_firstChild d) fuel)
      as [E1 E2]; try done.
    { rewrite length_app in Hf. simpl in Hf. lia. }
    eexists. split; [exact E1|]. split.
    + specialize (E2 Hl2 Hp0 Hp2 Hd02). rewrite <- app_assoc. simpl.
      destruct (decide (pred = this)) as [->|Hne].
      * assert (pfi = fi) as -> by congruence.
        exists (set_next (next dc) fi), d. rewrite lookup_insert_eq. done.
      * exists fi, d. rewrite lookup_insert_ne by done. done.
    + right. by exists l0, pred, pfi.
Qed.

(** C9: [unlinkChild( c )] on [this].
    - When the recorded parent of [c] is not [this], the call returns with
      the world unchanged but for one line in the error log.
    - When the parent of [c] is [this] and [c] is not in the children list
      [l] of [this], likewise.
    - When [c] is in the list, [l1 ++ c :: l2], the call returns and the
      list is [l1 ++ l2]; one member of one object changed: [_firstChild]
      of [this] when [c] was the head, otherwise [_next] of the child
      before [c]; nothing is logged. *)
Theorem unlinkChild_spec :
  (forall w this c dc fuel,
     heap w !! c = Some dc -> parent dc <> Some this ->
     unlinkChild fuel this c w
     = Some (tt, with_errors (NotAChild c this :: errors w) w)) /\
  (forall w this c dc l fuel,
     heap w !! c = Some dc -> parent dc = Some this ->
     children (heap w) this l -> c ∉ l -> (length l <= fuel)%nat ->
     unlinkChild fuel this c w
     = Some (tt, with_errors (CouldntUnlink c this :: errors w) w)) /\
  (forall w this c dc l1 l2 fuel,
     heap w !! c = Some dc -> parent dc = Some this ->
     children (heap w) this (l1 ++ c :: l2) -> (length l1 <= fuel)%nat ->
     exists h',
       unlinkChild fuel this c w = Some (tt, with_heap h' w) /\
       children h' this (l1 ++ l2) /\
       ((l1 = [] /\ exists fi d, heap w !! this = Some fi /\ _dir fi = Some d /\
           h' = <[this := set_dir (set_firstChild (next dc) d) fi]> (heap w)) \/
        (exists l0 pred pfi, l1 = l0 ++ [pred] /\ heap w !! pred = Some pfi /\
           h' = <[pred := set_next (next dc) pfi]> (heap w)))).
Proof.
  split; [exact unlinkChild_not_a_child|].
  split; [exact unlinkChild_not_in_list | exact unlinkChild_in_list].
Qed.

Ltac solve_children :=
  vm_compute; repeat (first [done | split | eexists]).

(** In [threeChildrenWorld] the root lists 5, 4, 3.  Unlinking 7 (whose
    parent is not the root) and 6 (not in the list) change only the log;
    unlinking 4 leaves the list 5, 3. *)
Lemma unlinkChild_spec_witness :
  children (heap threeChildrenWorld) 1 [5; 4; 3]%positive /\
  unlinkChild 3 1 7 threeChildrenWorld
  = Some (tt, with_errors [NotAChild 7 1] threeChildrenWorld) /\
  unlinkChild 3 1 6 threeChildrenWorld
  = Some (tt, with_errors [CouldntUnlink 6 1] threeChildrenWorld) /\
  exists h', unlinkChild 3 1 4 threeChildrenWorld
             = Some (tt, with_heap h' threeChildrenWorld) /\
             children h' 1 [5; 3]%positive.
Proof.
  destruct unlinkChild_spec as (HA & HB & HC).
  split; [solve_children|]. split; [|split].
  - eapply (HA threeChildrenWorld 1 7)%positive; [reflexivity|vm_compute; congruence].
  - eapply (HB threeChildrenWorld 1 6 _ [5; 4; 3])%positive;
      [reflexivity | reflexivity | solve_children | | simpl; lia].
    vm_compute. intros H. repeat (apply elem_of_cons in H as [H|H]; [discriminate H|]).
    by apply elem_of_nil in H.
  - destruct (HC threeChildrenWorld 1 4 (mkFileInfo "b" ModeRegular 20 1 200
                (Some 1) (Some 3) None) [5] [3] 3%nat)%positive
      as (h' & E & Hch & _);
      [reflexivity | reflexivity | solve_children | simpl; lia |].
    exists h'. split; [exact E | exact Hch].
Defined.

(** * Inserting children *)

Lemma set_dir_id fi d : _dir fi = Some d -> set_dir d fi = fi.
Proof. destruct fi; simpl; intros ->; reflexivity. Qed.

Lemma with_heap_id w : with_heap (heap w) w = w.
Proof. by destruct w. Qed.

Lemma world_normal w a fi :
  heap w !! a = Some fi -> w = with_heap (<[a := fi]> (heap w)) w.
Proof. intros H. by rewrite insert_id, with_heap_id. Qed.

Lemma modifyDir_upd w0 h a fi d f :
  _dir fi = Some d ->
  modifyDir a f (with_heap (<[a := fi]> h) w0)
  = Some (tt, with_heap (<[a := set_dir (f d) fi]> h) w0).
Proof.
  intros Hd. erewrite modifyDir_eq; [|simpl; apply lookup_insert_eq|exact Hd].
  simpl. by rewrite insert_insert_eq.
Qed.

Lemma derefDir_upd w0 h a fi d :
  _dir fi = Some d ->
  derefDir a (with_heap (<[a := fi]> h) w0) = Some (d, with_heap (<[a := fi]> h) w0).
Proof. intros Hd. eapply derefDir_eq; [simpl; apply lookup_insert_eq|done]. Qed.

Lemma max_ltb a b : Z.max a b = if a <? b then b else a.
Proof. destruct (Z.ltb_spec a b); lia. Qed.

Lemma childAdded_summaries_upd w0 h this fi d nc :
  _dir fi = Some d -> _summaryDirty d = false ->
  childAdded_summaries this nc (with_heap (<[this := fi]> h) w0)
  = Some (tt, with_heap (<[this := set_dir (added nc d) fi]> h) w0).
Proof.
  intros Hd Hclean. unfold childAdded_summaries.
  rewrite (bind_eq _ _ _ _ _ (modifyDir_upd _ _ _ _ _ _ Hd)).
  erewrite bind_eq by (by apply modifyDir_upd).
  erewrite bind_eq by (by apply modifyDir_upd).
  unfold added. rewrite max_ltb.
  destruct d as [a1 a2 a3 a4 a5 a6 a7 a8 a9 a10 a11 a12 a13 a14 a15];
    simpl in Hclean; subst; simpl.
  destruct (isDir nc), (isFile nc); rewrite ?Z.add_0_r;
    repeat (erewrite bind_eq by (first [by apply modifyDir_upd | reflexivity]));
    (erewrite bind_eq by (by apply derefDir_upd)); simpl;
    (destruct (_ <? mtime nc);
     [erewrite modifyDir_upd by reflexivity; reflexivity | reflexivity]).
Qed.

(** One level of [childAdded]. *)
Lemma childAdded_level w this fi d c nc fuel :
  heap w !! this = Some fi -> _dir fi = Some d ->
  heap w !! c = Some nc -> c <> this ->
  let w1 := with_heap (<[this := set_dir (added nc d) fi]> (heap w)) w in
  modifyDir this (added nc) w = Some (tt, w1) /\
  childAdded (S fuel) this c w
  = match _parent fi with
    | Some p => childAdded fuel p c w1
    | None => Some (tt, w1)
    end.
Proof.
  intros H1 H2 Hc Hne w1. split; [by apply modifyDir_eq|].
  simpl. rewrite (bind_eq _ _ _ _ _ (derefDir_eq _ _ _ _ H1 H2)).
  rewrite (bind_eq _ _ _ _ _ (deref_eq _ _ _ Hc)).
  assert ((if negb (_summaryDirty d) then childAdded_summaries this nc else ret tt) w
          = Some (tt, w1)) as E.
  { destruct (_summaryDirty d) eqn:Hdirty; simpl.
    - unfold ret, w1, added. rewrite Hdirty, (set_dir_id _ _ H2).
      by rewrite <- world_normal.
    - rewrite (world_normal w this fi H1) at 1.
      by rewrite (childAdded_summaries_upd _ _ _ _ d). }
  rewrite (bind_eq _ _ _ _ _ E).
  erewrite bind_eq by (apply deref_eq; subst w1; simpl; apply lookup_insert_eq).
  simpl. by destruct (_parent fi).
Qed.

Lemma childAdded_walk w this c nc l : forall fuel,
  up_chain (heap w) this l -> heap w !! c = Some nc -> c ∉ this :: l ->
  childAdded fuel this c w = walk_up (added nc) fuel this w.
Proof.
  revert w this. induction l as [|p l IH]; intros w this fuel Hc Hn Hnot;
    (destruct fuel as [|fuel]; [done|]);
    pose proof (up_chain_head _ _ _ Hc) as (fi & d & H1 & H2 & H3); simpl in H3;
    assert (c <> this) as Hne by (intros ->; apply Hnot, list_elem_of_here);
    destruct (childAdded_level w this fi d c nc fuel H1 H2 Hn Hne) as [E1 E2];
    rewrite E2; simpl; rewrite (bind_eq _ _ _ _ _ E1);
    (erewrite bind_eq by (apply deref_eq; simpl; apply lookup_insert_eq));
    simpl; rewrite H3; [done|].
  apply IH.
  - simpl. apply up_chain_set_dir; eauto. by eapply up_chain_tail.
  - simpl. by rewrite lookup_insert_ne.
  - intros Hin. apply Hnot. by apply list_elem_of_further.
Qed.

(** [childAdded] returns, applies [added] to [this] and to every
    ancestor, and changes nothing else. *)
Lemma childAdded_spec w this c nc l fuel :
  up_chain (heap w) this l -> heap w !! c = Some nc -> c ∉ this :: l ->
  (length l < fuel)%nat ->
  exists h',
    childAdded fuel this c w = Some (tt, with_heap h' w) /\
    (forall a, a ∈ this :: l ->
       exists fi d, heap w !! a = Some fi /\ _dir fi = Some d /\
                    h' !! a = Some (set_dir (added nc d) fi)) /\
    (forall a, a ∉ this :: l -> h' !! a = heap w !! a).
Proof.
  intros Hc Hn Hnot Hf. rewrite (childAdded_walk w this c nc l fuel Hc Hn Hnot).
  by apply walk_up_spec.
Qed.

(** ** [insertChild()] *)

Lemma insertChild_direct w this c nc fi d fuel :
  heap w !! c = Some nc -> heap w !! this = Some fi -> _dir fi = Some d ->
  c <> this ->
  isDir nc = true \/ _dotEntry d = None \/ _isDotEntry d = true ->
  insertChild (S fuel) this c w
  = childAdded fuel this c (with_heap (linked (heap w) this c fi d nc) w).
Proof.
  intros Hc H1 H2 Hne Hor. simpl.
  rewrite (bind_eq _ _ _ _ _ (deref_eq _ _ _ Hc)).
  rewrite (bind_eq _ _ _ _ _ (derefDir_eq _ _ _ _ H1 H2)).
  assert (isDir nc || bool_decide (_dotEntry d = None) || _isDotEntry d = true) as ->.
  { destruct Hor as [-> | [-> | ->]]; [done| |].
    - rewrite bool_decide_eq_true_2 by done. by rewrite orb_true_r.
    - by rewrite orb_true_r. }
  unfold setNext, setParent.
  rewrite (bind_eq _ _ _ _ _ (modify_eq _ _ _ _ Hc)).
  erewrite bind_eq by (eapply modifyDir_eq;
    [simpl; rewrite lookup_insert_ne by done; exact H1 | exact H2]).
  erewrite bind_eq by (eapply modify_eq; simpl;
    rewrite lookup_insert_ne by done; apply lookup_insert_eq).
  simpl. unfold linked. rewrite !with_heap_with_heap.
  rewrite (insert_insert_ne _ this c) by done.
  by rewrite insert_insert_eq.
Qed.

Lemma insertChild_delegated w this c nc fi d dot fuel :
  heap w !! c = Some nc -> heap w !! this = Some fi -> _dir fi = Some d ->
  isDir nc = false -> _dotEntry d = Some dot -> _isDotEntry d = false ->
  insertChild (S fuel) this c w = insertChild fuel dot c w.
Proof.
  intros Hc H1 H2 Hnd Hdot Hnot. simpl.
  rewrite (bind_eq _ _ _ _ _ (deref_eq _ _ _ Hc)).
  rewrite (bind_eq _ _ _ _ _ (derefDir_eq _ _ _ _ H1 H2)).
  rewrite Hnd, Hnot, Hdot. by rewrite bool_decide_eq_false_2.
Qed.

(** The links after the three assignments. *)
Lemma linked_children h this c fi d nc l :
  h !! this = Some fi -> _dir fi = Some d -> h !! c = Some nc ->
  c <> this -> c ∉ l -> lseg h (_firstChild d) l None ->
  children (linked h this c fi d nc) this (c :: l) /\
  (exists nc', linked h this c fi d nc !! c = Some nc' /\
               _parent nc' = Some this /\ _next nc' = _firstChild d /\
               _dir nc' = _dir nc) /\
  (forall a, a <> this -> a <> c -> linked h this c fi d nc !! a = h !! a).
Proof.
  intros H1 H2 Hc Hne Hnot Hl. unfold linked. split; [|split].
  - exists (set_dir (set_firstChild (Some c) d) fi), (set_firstChild (Some c) d).
    rewrite lookup_insert_ne by done. rewrite lookup_insert_eq.
    split; [done|]. split; [done|]. simpl. split; [done|].
    eexists. rewrite lookup_insert_eq. split; [done|]. simpl.
    apply lseg_insert_other; [done|].
    by eapply lseg_insert_same_next.
  - eexists. rewrite lookup_insert_eq. done.
  - intros a Ha1 Ha2. by rewrite !lookup_insert_ne.
Qed.

Lemma linked_up_chain h this c fi d nc x l :
  h !! this = Some fi -> _dir fi = Some d -> h !! c = Some nc ->
  c ∉ x :: l -> up_chain h x l -> up_chain (linked h this c fi d nc) x l.
Proof.
  intros H1 H2 Hc Hnot Hch. unfold linked.
  assert (up_chain (<[this := set_dir (set_firstChild (Some c) d) fi]> h) x l) as Hch1.
  { apply up_chain_set_dir; eauto. }
  clear Hch. revert x Hnot Hch1. induction l as [|p l IH]; intros x Hnot; simpl.
  - intros (fx & E1 & E2 & E3). exists fx. rewrite lookup_insert_ne; [done|].
    intros ->. apply Hnot, list_elem_of_here.
  - intros [(fx & E1 & E2 & E3) Hch]. split.
    + exists fx. rewrite lookup_insert_ne; [done|].
      intros ->. apply Hnot, list_elem_of_here.
    + apply IH; [|done]. intros Hin. apply Hnot. by apply list_elem_of_further.
Qed.

Lemma cached_added nc d :
  cached (added nc d)
  = if _summaryDirty d then cached d else plusEntry (cached d) nc.
Proof. unfold added. by destruct (_summaryDirty d). Qed.

Lemma summaryDirty_added nc d : _summaryDirty (added nc d) = _summaryDirty d.
Proof. unfold added. by destruct (_summaryDirty d) eqn:E. Qed.

Lemma ancestors_up_chain n : forall h a l,
  ancestors n h a = Some l -> up_chain h a l /\ (length l < n)%nat.
Proof.
  induction n as [|n IH]; intros h a l; [done|]. simpl.
  destruct (h !! a) as [fi|] eqn:E; [|done].
  destruct (_dir fi) as [d|] eqn:Ed; [|done].
  destruct (_parent fi) as [p|] eqn:Ep.
  - destruct (ancestors n h p) as [l'|] eqn:El; [|done]. simpl.
    intros [= <-]. destruct (IH _ _ _ El) as [Hc Hlen]. split; [|simpl; lia].
    simpl. split; [|done]. exists fi. eauto.
  - intros [= <-]. split; [|simpl; lia]. exists fi. eauto.
Qed.

Lemma insertTarget_spec n : forall w this c tgt,
  insertTarget n (heap w) this c = Some tgt -> c <> tgt ->
  exists k nc fi d,
    (1 <= k <= n)%nat /\
    heap w !! c = Some nc /\ heap w !! tgt = Some fi /\ _dir fi = Some d /\
    (isDir nc = true \/ _dotEntry d = None \/ _isDotEntry d = true) /\
    forall f, insertChild (k + f) this c w
              = childAdded f tgt c (with_heap (linked (heap w) tgt c fi d nc) w).
Proof.
  induction n as [|n IH]; intros w this c tgt; [done|]. simpl.
  destruct (heap w !! c) as [nc|] eqn:Ec; [|done].
  destruct (heap w !! this) as [fi|] eqn:Et; [|done].
  destruct (_dir fi) as [d|] eqn:Ed; [|done].
  destruct (isDir nc || bool_decide (_dotEntry d = None) || _isDotEntry d) eqn:Eb.
  - intros [= <-] Hne. exists 1%nat, nc, fi, d.
    assert (isDir nc = true \/ _dotEntry d = None \/ _isDotEntry d = true) as Hor.
    { apply orb_true_iff in Eb as [Eb|Eb]; [|auto].
      apply orb_true_iff in Eb as [Eb|Eb]; [auto|].
      apply bool_decide_eq_true in Eb. auto. }
    repeat (split; [done || lia|]). intros f. by apply insertChild_direct.
  - destruct (_dotEntry d) as [dot|] eqn:Edot; [|done].
    intros Ht Hne. destruct (IH w dot c tgt Ht Hne)
      as (k & nc' & fi' & d' & Hk & Ec' & Et' & Ed' & Hor & Hins).
    assert (nc' = nc) as -> by congruence.
    exists (S k), nc, fi', d'. repeat (split; [done || lia|]).
    intros f. simpl plus. rewrite <- Hins.
    apply orb_false_iff in Eb as [Eb E3].
    apply orb_false_iff in Eb as [E1 E2].
    eapply insertChild_delegated; eauto.
Qed.

(** One [insertChild] call: it returns; the dirty flag of every node is
    what it was; the summary of each clean node among the receiving nodes
    (the node [tgt] the child is linked into and the ancestors [l] of
    [tgt]) has the new child counted in by its own values, and every
    other summary is unchanged; nothing is logged and no [recalc()] is
    entered. *)
Lemma insertChild_step w this c nc n tgt l fuel :
  insertTarget n (heap w) this c = Some tgt -> heap w !! c = Some nc ->
  up_chain (heap w) tgt l -> c ∉ tgt :: l -> (n + length l < fuel)%nat ->
  exists h',
    insertChild fuel this c w = Some (tt, with_heap h' w) /\
    (forall a d, dirOf w a = Some d ->
       exists d', dirOf (with_heap h' w) a = Some d' /\
         _summaryDirty d' = _summaryDirty d /\
         cached d' = if bool_decide (a ∈ tgt :: l) && negb (_summaryDirty d)
                     then plusEntry (cached d) nc else cached d) /\
    (forall a, a ∉ tgt :: l -> a <> c -> h' !! a = heap w !! a) /\
    (exists nc', h' !! c = Some nc' /\ _parent nc' = Some tgt /\ _dir nc' = _dir nc) /\
    (forall lc, children (heap w) tgt lc -> c ∉ lc -> children h' tgt (c :: lc)).
Proof.
  intros Ht Hc Hch Hnot Hf.
  assert (c <> tgt) as Hne by (intros ->; apply Hnot, list_elem_of_here).
  destruct (insertTarget_spec n w this c tgt Ht Hne)
    as (k & nc' & fi & d & Hk & Ec & Et & Ed & Hor & Hins).
  assert (nc' = nc) as -> by congruence.
  set (w1 := with_heap (linked (heap w) tgt c fi d nc) w).
  assert (up_chain (heap w1) tgt l) as Hch1.
  { subst w1. simpl. by apply linked_up_chain. }
  assert (heap w1 !! c = Some (set_parent (Some tgt) (set_next (_firstChild d) nc))) as Ec1.
  { subst w1. simpl. unfold linked. by rewrite lookup_insert_eq. }
  destruct (childAdded_spec w1 tgt c _ l (fuel - k) Hch1 Ec1 Hnot ltac:(lia))
    as (h' & E & In & Out).
  exists h'. split.
  { replace fuel with (k + (fuel - k))%nat by lia. rewrite Hins. exact E. }
  assert (forall a, a <> tgt -> a <> c -> heap w1 !! a = heap w !! a) as Hw1.
  { intros a H1 H2. subst w1. simpl. unfold linked. by rewrite !lookup_insert_ne. }
  assert (heap w1 !! tgt = Some (set_dir (set_firstChild (Some c) d) fi)) as Et1.
  { subst w1. simpl. unfold linked. rewrite lookup_insert_ne by done.
    by rewrite lookup_insert_eq. }
  split; [|split; [|split]].
  - intros a da Ha. apply dirOf_Some in Ha as (fa & Ea & Eda).
    destruct (decide (a ∈ tgt :: l)) as [Hin|Hout].
    + rewrite bool_decide_eq_true_2 by done. simpl.
      destruct (In a Hin) as (fa1 & da1 & E1 & E2 & E3).
      assert (a <> c) as Hac by (intros ->; done).
      assert (_summaryDirty da1 = _summaryDirty da /\ cached da1 = cached da) as [Ed1 Ec1'].
      { destruct (decide (a = tgt)) as [->|Hat].
        - rewrite Et1 in E1. injection E1 as <-. simpl in E2. injection E2 as <-.
          assert (da = d) as -> by congruence. done.
        - rewrite Hw1 in E1 by done. assert (fa1 = fa) as -> by congruence.
          assert (da1 = da) as -> by congruence. done. }
      exists (added (set_parent (Some tgt) (set_next (_firstChild d) nc)) da1).
      split; [by apply (dirOf_eq (with_heap h' w) _ _ _ E3)|].
      rewrite summaryDirty_added, cached_added, Ed1, Ec1'.
      split; [done|]. by destruct (_summaryDirty da).
    + rewrite bool_decide_eq_false_2 by done. simpl.
      exists da. split; [|done]. unfold dirOf. simpl. rewrite (Out a Hout).
      destruct (decide (a = c)) as [->|Hac].
      * rewrite Ec1. simpl. congruence.
      * rewrite Hw1; [by rewrite Ea| |done].
        intros ->. apply Hout, list_elem_of_here.
  - intros a Ha Hac. rewrite (Out a Ha). apply Hw1; [|done].
    intros ->. apply Ha, list_elem_of_here.
  - eexists. rewrite (Out c Hnot), Ec1. done.
  - intros lc (fi' & d' & E1 & E2 & Hl) Hclc.
    assert (fi' = fi) as -> by congruence. assert (d' = d) as -> by congruence.
    destruct (linked_children (heap w) tgt c fi d nc lc Et Ed Ec Hne Hclc Hl)
      as ((fl & dl & El1 & El2 & Hl1) & _ & _).
    destruct (In tgt (list_elem_of_here _ _)) as (ft & dt & F1 & F2 & F3).
    fold w1 in El1. simpl in El1.
    assert (ft = fl) as -> by (subst w1; simpl in F1; congruence).
    assert (dt = dl) as -> by congruence.
    exists (set_dir (added (set_parent (Some tgt) (set_next (_firstChild d) nc)) dl) fl),
           (added (set_parent (Some tgt) (set_next (_firstChild d) nc)) dl).
    split; [done|]. split; [done|].
    assert (_firstChild (added (set_parent (Some tgt) (set_next (_firstChild d) nc)) dl)
            = _firstChild dl) as ->.
    { unfold added. by destruct (_summaryDirty dl). }
    eapply lseg_ext; [|exact Hl1].
    intros a fa Ha Efa. destruct (decide (a ∈ tgt :: l)) as [Hin|Hout].
    + destruct (In a Hin) as (fa1 & da1 & G1 & G2 & G3).
      fold w1 in Efa. simpl in Efa. assert (fa1 = fa) as -> by (simpl in G1; congruence).
      eexists. split; [exact G3|done].
    + exists fa. by rewrite (Out a Hout).
Qed.

(** A summary accessor on a node whose summary is not dirty returns the
    cached member and changes nothing. *)
Lemma summaryAccessor_clean rec field own w this fi d :
  heap w !! this = Some fi -> _dir fi = Some d -> _summaryDirty d = false ->
  summaryAccessor rec field own this w = Some (field d, w).
Proof.
  intros H1 H2 H3. unfold summaryAccessor.
  rewrite (bind_eq _ _ _ _ _ (deref_eq _ _ _ H1)), H2, H3.
  unfold bind at 1. simpl. by rewrite (bind_eq _ _ _ _ _ (derefDir_eq _ _ _ _ H1 H2)).
Qed.

Lemma summaryAccessor_plain rec field own w this fi :
  heap w !! this = Some fi -> _dir fi = None ->
  summaryAccessor rec field own this w = Some (own fi, w).
Proof.
  intros H1 H2. unfold summaryAccessor.
  by rewrite (bind_eq _ _ _ _ _ (deref_eq _ _ _ H1)), H2.
Qed.

Lemma insertAll_running_sums ops : forall w fuel n ledger,
  (2 * n <= fuel)%nat ->
  insertLedger fuel n ops w = Some ledger ->
  exists h',
    insertAll fuel ops w = Some (tt, with_heap h' w) /\
    forall a d, dirOf w a = Some d ->
      exists d', dirOf (with_heap h' w) a = Some d' /\
        _summaryDirty d' = _summaryDirty d /\
        (_summaryDirty d = false -> cached d' = runningSum a (cached d) ledger).
Proof.
  induction ops as [|[this c] ops IH]; intros w fuel n ledger Hf.
  - simpl. intros [= <-]. exists (heap w). rewrite with_heap_id. split; [done|].
    intros a d Ha. exists d. done.
  - simpl. destruct (heap w !! c) as [nc|] eqn:Ec; [|done].
    destruct (insertTarget n (heap w) this c) as [tgt|] eqn:Et; [|done].
    destruct (ancestors n (heap w) tgt) as [l|] eqn:El; [|done].
    destruct (decide (c ∈ tgt :: l)) as [Hin|Hnot].
    { by rewrite bool_decide_eq_true_2. }
    rewrite bool_decide_eq_false_2 by done.
    destruct (ancestors_up_chain _ _ _ _ El) as [Hch Hlen].
    destruct (insertChild_step w this c nc n tgt l fuel Et Ec Hch Hnot ltac:(lia))
      as (h1 & E1 & Hsum & _).
    rewrite E1. rewrite (bind_eq _ _ _ _ _ E1).
    destruct (insertLedger fuel n ops (with_heap h1 w)) as [ledger'|] eqn:Eled; [|done].
    simpl. intros [= <-].
    destruct (IH (with_heap h1 w) fuel n ledger' Hf Eled) as (h' & E2 & Hrest).
    exists h'. split; [exact E2|].
    intros a d Ha. destruct (Hsum a d Ha) as (d1 & Ha1 & Hd1 & Hc1).
    destruct (Hrest a d1 Ha1) as (d' & Ha' & Hd' & Hc').
    exists d'. split; [exact Ha'|]. split; [congruence|].
    intros Hclean. rewrite Hc' by congruence. simpl.
    rewrite Hc1, Hclean, andb_true_r. done.
Qed.

(** ** The running sums as numbers *)

Lemma runningSum_received a ledger : forall s,
  runningSum a s ledger = foldl plusEntry s (received a ledger).
Proof.
  induction ledger as [|[nc path] ledger IH]; intros s; [done|]. simpl.
  rewrite IH. by destruct (bool_decide (a ∈ path)).
Qed.

(** From the first entry on, each of the three sums is the sum of the
    numbers reduced to the width of the member. *)
Lemma foldl_plusEntry_sums l : forall s,
  l <> [] ->
  sumSize (foldl plusEntry s l) = asKFileSize (sumSize s + sumOf size l) /\
  sumBlocks (foldl plusEntry s l) = asKFileSize (sumBlocks s + sumOf blocks l) /\
  sumItems (foldl plusEntry s l) = asInt (sumItems s + Z.of_nat (length l)).
Proof.
  induction l as [|x l IH]; intros s Hne; [done|]. simpl foldl.
  destruct l as [|y l].
  - simpl. rewrite !Z.add_0_r. done.
  - destruct (IH (plusEntry s x) ltac:(done)) as (E1 & E2 & E3).
    rewrite E1, E2, E3. simpl sumSize. simpl sumBlocks. simpl sumItems.
    wrap_norm. unfold sumOf. simpl foldr.
    repeat split; f_equal; simpl length; lia.
Qed.

(** Sums that fit the member are stored as they are. *)
Lemma foldl_plusEntry_exact l s :
  (KFileSize_MIN <= sumSize s + sumOf size l <= KFileSize_MAX ->
   sumSize (foldl plusEntry s l) = sumSize s + sumOf size l) /\
  (KFileSize_MIN <= sumBlocks s + sumOf blocks l <= KFileSize_MAX ->
   sumBlocks (foldl plusEntry s l) = sumBlocks s + sumOf blocks l) /\
  (INT_MIN <= sumItems s + Z.of_nat (length l) <= INT_MAX ->
   sumItems (foldl plusEntry s l) = sumItems s + Z.of_nat (length l)).
Proof.
  destruct (decide (l = [])) as [->|Hne].
  - simpl. repeat split; intros _; lia.
  - destruct (foldl_plusEntry_sums l s Hne) as (E1 & E2 & E3).
    rewrite E1, E2, E3.
    repeat split; intros H; [by apply asKFileSize_id..|by apply asInt_id].
Qed.

(** ** One call, as a store *)

Lemma applyOn_lookup f l (h : gmap addr FileInfo) a :
  NoDup l ->
  applyOn f l h !! a = if bool_decide (a ∈ l) then onDir f <$> h !! a else h !! a.
Proof.
  induction l as [|x l IH]; intros Hnd; [done|].
  apply NoDup_cons in Hnd as [Hx Hnd]. simpl.
  destruct (decide (a = x)) as [->|Hne].
  - rewrite lookup_alter_eq, (IH Hnd).
    rewrite (bool_decide_eq_false_2 _ Hx).
    by rewrite bool_decide_eq_true_2 by apply list_elem_of_here.
  - rewrite lookup_alter_ne by done. rewrite (IH Hnd).
    destruct (decide (a ∈ l)) as [Hin|Hout].
    + rewrite !bool_decide_eq_true_2; [done| |done]. by apply list_elem_of_further.
    + rewrite !bool_decide_eq_false_2; [done| |done].
      by intros [?|?]%elem_of_cons.
Qed.

(** [insertChild( c )], called on [this], links [c] into [tgt] and
    applies [childAdded] to [tgt] and its ancestors [l]. *)
Lemma insertChild_explicit w this c nc n tgt l fi d fuel :
  insertTarget n (heap w) this c = Some tgt -> heap w !! c = Some nc ->
  heap w !! tgt = Some fi -> _dir fi = Some d ->
  up_chain (heap w) tgt l -> c ∉ tgt :: l -> (n + length l < fuel)%nat ->
  insertChild fuel this c w
  = Some (tt, with_heap
                (applyOn (added (set_parent (Some tgt) (set_next (_firstChild d) nc)))
                         (tgt :: l) (linked (heap w) tgt c fi d nc)) w).
Proof.
  intros Ht Hc Et Ed Hch Hnot Hf.
  assert (c <> tgt) as Hne by (intros ->; apply Hnot, list_elem_of_here).
  destruct (insertTarget_spec n w this c tgt Ht Hne)
    as (k & nc' & fi' & d' & Hk & Ec & Et' & Ed' & Hor & Hins).
  assert (nc' = nc) as -> by congruence.
  assert (fi' = fi) as -> by congruence. assert (d' = d) as -> by congruence.
  set (w1 := with_heap (linked (heap w) tgt c fi d nc) w).
  assert (up_chain (heap w1) tgt l) as Hch1.
  { subst w1. simpl. by apply linked_up_chain. }
  assert (heap w1 !! c = Some (set_parent (Some tgt) (set_next (_firstChild d) nc))) as Ec1.
  { subst w1. simpl. unfold linked. by rewrite lookup_insert_eq. }
  destruct (childAdded_spec w1 tgt c _ l (fuel - k) Hch1 Ec1 Hnot ltac:(lia))
    as (h' & E & In & Out).
  replace fuel with (k + (fuel - k))%nat by lia. rewrite Hins. fold w1. rewrite E.
  do 2 f_equal. unfold with_heap. simpl. f_equal.
  change (h' = applyOn (added (set_parent (Some tgt) (set_next (_firstChild d) nc)))
                 (tgt :: l) (linked (heap w) tgt c fi d nc)).
  apply map_eq. intros a.
  rewrite applyOn_lookup by (by eapply up_chain_NoDup).
  destruct (decide (a ∈ tgt :: l)) as [Hin|Hout].
  - rewrite bool_decide_eq_true_2 by done.
    destruct (In a Hin) as (fa & da & E1 & E2 & E3).
    rewrite E3. simpl in E1. rewrite E1. simpl. unfold onDir. by rewrite E2.
  - rewrite bool_decide_eq_false_2 by done. by apply Out.
Qed.

(** ** The scenario *)

Ltac not_in :=
  let H := fresh in
  intros H; repeat (apply elem_of_cons in H as [H|H]; [discriminate H|]);
  apply elem_of_nil in H; destruct H.

(** One [insertChild] call of a sequence, run on a store whose links are
    known: [n], [tgt] and [l] as in [insertChild_explicit]. *)
Ltac insert_step n tgt l :=
  lazymatch goal with
  | |- bind (insertChild ?fuel ?this ?c) ?k ?w = _ =>
      let E := fresh "E" in
      eassert (insertChild fuel this c w = Some (tt, _)) as E;
      [ erewrite (insertChild_explicit w this c _ n tgt l);
        [ | vm_compute; reflexivity | vm_compute; reflexivity | vm_compute; reflexivity
          | reflexivity | solve_chain | not_in | simpl; lia ];
        vm_compute; reflexivity
      | rewrite (bind_eq _ _ _ _ _ E); clear E ]
  end.

Lemma scenario_cases t1 t2 :
  0 <= t1 < t2 ->
  exists p2, t2 = Z.pos p2 /\
    (t1 = 0 \/ exists p1, t1 = Z.pos p1 /\ (Z.pos p1 <? Z.pos p2) = true).
Proof.
  intros H. destruct t2 as [|p2|p2]; [lia| |lia]. exists p2. split; [done|].
  destruct t1 as [|p1|p1]; [by left| |lia].
  right. exists p1. split; [done|]. apply Z.ltb_lt. lia.
Qed.

(** The three calls of the scenario return; the root is left clean and
    caches 150 bytes, 3 items, 1 subdirectory and the latest of the four
    modification times. *)
Lemma scenarioAt_root tR tD t1 t2 :
  exists w fi d,
    insertAll 5 scenarioInserts (scenarioStartAt tR tD t1 t2) = Some (tt, w) /\
    recalcs w = [] /\
    heap w !! 1%positive = Some fi /\ _dir fi = Some d /\
    _summaryDirty d = false /\
    _totalSize d = 150 /\ _totalItems d = 3 /\ _totalSubDirs d = 1 /\
    _latestMtime d = Z.max (Z.max (Z.max tR t1) tD) t2.
Proof.
  eexists _, _, _. split.
  { unfold scenarioInserts, insertAll.
    insert_step 2%nat 2%positive [1%positive].
    insert_step 1%nat 1%positive (@nil addr).
    insert_step 2%nat 5%positive [4; 1]%positive.
    reflexivity. }
  split; [reflexivity|]. split; [vm_compute; reflexivity|].
  split; [reflexivity|]. split; [reflexivity|]. split; [vm_compute; reflexivity|].
  split; [vm_compute; reflexivity|]. split; [vm_compute; reflexivity|].
  vm_compute; reflexivity.
Qed.

Lemma scenarioAt_runs tR tD t1 t2 :
  let w := scenarioWorldAt tR tD t1 t2 in
  insertAll 5 scenarioInserts (scenarioStartAt tR tD t1 t2) = Some (tt, w) /\
  recalcs w = [] /\
  totalSize 5 1 w = Some (150, w) /\
  totalItems 5 1 w = Some (3, w) /\
  totalSubDirs 5 1 w = Some (1, w) /\
  latestMtime 5 1 w = Some (Z.max (Z.max (Z.max tR t1) tD) t2, w).
Proof.
  destruct (scenarioAt_root tR tD t1 t2)
    as (w' & fi & d & E & Hr & H1 & H2 & H3 & S1 & S2 & S3 & S4).
  intros w. assert (w = w') as ->.
  { subst w. unfold scenarioWorldAt. by rewrite E. }
  split; [exact E|]. split; [exact Hr|].
  unfold totalSize, totalItems, totalSubDirs, latestMtime.
  rewrite !(summaryAccessor_clean _ _ _ _ _ _ _ H1 H2 H3).
  by rewrite S1, S2, S3, S4.
Qed.

(** C3, amended: insertions without deletions.  An addition to a summary
    member is made in the type of the member: 8 bytes for [_totalSize]
    and [_totalBlocks], an [int] for [_totalItems].
    - One [insertChild( c )] on [this], where the call links [c] into
      [tgt] and [l] are the ancestors of [tgt]: the call returns; no dirty
      flag changes; the summary (so [_totalSize], [_totalBlocks],
      [_totalItems]) of every clean node of [tgt :: l] has [c] counted in
      by its own values and no other summary changes; no [recalc()] is
      entered (the world differs in its store only).
    - A sequence of calls with ledger [ledger]: every node that was clean
      is still clean and its summary is the running sum of the entries
      [r] its subtree received, one addition per entry.  As numbers:
      [_totalSize], [_totalBlocks] and [_totalItems] are the initial
      value plus the sizes, the blocks and the number of the entries of
      [r] whenever this number fits the member; and once the node has
      received an entry, they are this number reduced to the width of
      the member.
    - In the scenario of the specification, whatever the modification
      times [tR] and [tD] of the two directories and [t1], [t2] of the
      files: the calls return, no [recalc()] ran, and the accessors of
      the root return 150, 3, 1 and the latest of the four times, which
      is [t2] when [t1 < t2] and neither directory is later than
      [t2]. *)
Theorem insertChild_running_sums :
  (forall w this c nc n tgt l fuel,
     insertTarget n (heap w) this c = Some tgt -> heap w !! c = Some nc ->
     up_chain (heap w) tgt l -> c ∉ tgt :: l -> (n + length l < fuel)%nat ->
     exists h',
       insertChild fuel this c w = Some (tt, with_heap h' w) /\
       forall a d, dirOf w a = Some d ->
         exists d', dirOf (with_heap h' w) a = Some d' /\
           _summaryDirty d' = _summaryDirty d /\
           cached d' = if bool_decide (a ∈ tgt :: l) && negb (_summaryDirty d)
                       then plusEntry (cached d) nc else cached d) /\
  (forall ops w fuel n ledger,
     (2 * n <= fuel)%nat ->
     insertLedger fuel n ops w = Some ledger ->
     exists h',
       insertAll fuel ops w = Some (tt, with_heap h' w) /\
       forall a d, dirOf w a = Some d ->
         exists d', dirOf (with_heap h' w) a = Some d' /\
           _summaryDirty d' = _summaryDirty d /\
           (_summaryDirty d = false ->
            let r := received a ledger in
            cached d' = runningSum a (cached d) ledger /\
            (KFileSize_MIN <= _totalSize d + sumOf size r <= KFileSize_MAX ->
             _totalSize d' = _totalSize d + sumOf size r) /\
            (KFileSize_MIN <= _totalBlocks d + sumOf blocks r <= KFileSize_MAX ->
             _totalBlocks d' = _totalBlocks d + sumOf blocks r) /\
            (INT_MIN <= _totalItems d + Z.of_nat (length r) <= INT_MAX ->
             _totalItems d' = _totalItems d + Z.of_nat (length r)) /\
            (r <> [] ->
             _totalSize d' = asKFileSize (_totalSize d + sumOf size r) /\
             _totalBlocks d' = asKFileSize (_totalBlocks d + sumOf blocks r) /\
             _totalItems d' = asInt (_totalItems d + Z.of_nat (length r))))) /\
  (forall tR tD t1 t2,
     let w := scenarioWorldAt tR tD t1 t2 in
     insertAll 5 scenarioInserts (scenarioStartAt tR tD t1 t2) = Some (tt, w) /\
     recalcs w = [] /\
     totalSize 5 1 w = Some (150, w) /\
     totalItems 5 1 w = Some (3, w) /\
     totalSubDirs 5 1 w = Some (1, w) /\
     latestMtime 5 1 w = Some (Z.max (Z.max (Z.max tR t1) tD) t2, w) /\
     (t1 < t2 -> tR <= t2 -> tD <= t2 -> latestMtime 5 1 w = Some (t2, w))).
Proof.
  split; [|split].
  - intros w this c nc n tgt l fuel Ht Hc Hch Hnot Hf.
    destruct (insertChild_step w this c nc n tgt l fuel Ht Hc Hch Hnot Hf)
      as (h' & E & Hsum & _).
    exists h'. done.
  - intros ops w fuel n ledger Hf Hled.
    destruct (insertAll_running_sums ops w fuel n ledger Hf Hled) as (h' & E & Hsum).
    exists h'. split; [exact E|]. intros a d Ha.
    destruct (Hsum a d Ha) as (d' & E1 & E2 & E3).
    exists d'. split; [exact E1|]. split; [exact E2|].
    intros Hclean r. specialize (E3 Hclean). split; [exact E3|].
    rewrite runningSum_received in E3. fold r in E3.
    destruct (foldl_plusEntry_exact r (cached d)) as (X1 & X2 & X3).
    rewrite <- E3 in X1, X2, X3. simpl in X1, X2, X3.
    split; [exact X1|]. split; [exact X2|]. split; [exact X3|].
    intros Hne. destruct (foldl_plusEntry_sums r (cached d) Hne) as (Y1 & Y2 & Y3).
    rewrite <- E3 in Y1, Y2, Y3. done.
  - intros tR tD t1 t2 w.
    destruct (scenarioAt_runs tR tD t1 t2) as (E & Hr & A1 & A2 & A3 & A4).
    fold w in E, Hr, A1, A2, A3, A4.
    repeat (split; [done|]).
    intros H1 H2 H3. rewrite A4. do 2 f_equal. lia.
Qed.

(** The scenario with [t1 = 10], [t2 = 20] and directories of
    modification time 0: the ledger of the three calls; the root
    receives the three entries, whose sizes sum to 150, within the range
    of the member; the accessor returns [t2]. *)
Lemma insertChild_running_sums_witness :
  insertLedger 6 3 scenarioInserts (scenarioStart 10 20)
  = Some [(mkFileInfo "F1" ModeRegular 100 1 10 None None None, [2; 1]%positive);
          (mkFileInfo "D" ModeDir 0 0 0 None None
             (Some (mkDirInfo false 0 (Some 5%positive) None 0 0 0 0 0 0
                      false false false false KDirQueued)), [1%positive]);
          (mkFileInfo "F2" ModeRegular 50 1 20 None None None, [5; 4; 1]%positive)] /\
  (exists h',
     insertAll 6 scenarioInserts (scenarioStart 10 20)
     = Some (tt, with_heap h' (scenarioStart 10 20)) /\
     exists d', dirOf (with_heap h' (scenarioStart 10 20)) 1 = Some d' /\
                _summaryDirty d' = false /\
                cached d' = mkSummary 150 2 3 1 2 20 /\
                _totalSize d' = 0 + (100 + (0 + (50 + 0)))) /\
  latestMtime 5 1 (scenarioWorldAt 0 0 10 20) = Some (20, scenarioWorldAt 0 0 10 20).
Proof.
  split; [reflexivity|].
  destruct insertChild_running_sums as (_ & Hseq & Hscen). split.
  - destruct (Hseq scenarioInserts (scenarioStart 10 20) 6%nat 3%nat _
                ltac:(simpl; lia) eq_refl) as (h' & E & Hsum).
    exists h'. split; [exact E|].
    destruct (Hsum 1%positive
                (mkDirInfo false 0 (Some 2%positive) None 0 0 0 0 0 0
                   false false false false KDirQueued) eq_refl)
      as (d' & E1 & E2 & E3).
    exists d'. split; [exact E1|]. split; [exact E2|].
    destruct (E3 eq_refl) as (F1 & F2 & _).
    split; [exact F1|]. apply F2. vm_compute. split; discriminate.
  - destruct (Hscen 0 0 10 20) as (_ & _ & _ & _ & _ & _ & H).
    apply H; lia.
Defined.

(** C3, as stated, fails when a running sum leaves the range of the
    member.  The root of [overflowStart] is clean and caches its own
    size 1; the file of size [KFileSize_MAX] is inserted.  The call
    returns, enters no [recalc()] and leaves the root clean; the running
    sum of the root is [1 + KFileSize_MAX = 2^63], and the member and
    [totalSize()] hold [- 2^63]. *)
Lemma insertChild_sum_overflows :
  exists w ledger d d',
    insertLedger 4 2 [(1, 3)]%positive overflowStart = Some ledger /\
    insertAll 4 [(1, 3)]%positive overflowStart = Some (tt, w) /\
    recalcs w = [] /\
    dirOf overflowStart 1 = Some d /\ _summaryDirty d = false /\
    dirOf w 1 = Some d' /\ _summaryDirty d' = false /\
    _totalSize d + sumOf size (received 1 ledger) = 2 ^ 63 /\
    _totalSize d' = - 2 ^ 63 /\
    totalSize 3 1 w = Some (- 2 ^ 63, w) /\
    _totalSize d' <> _totalSize d + sumOf size (received 1 ledger).
Proof.
  eexists _, _, _, _.
  split; [vm_compute; reflexivity|]. split; [vm_compute; reflexivity|].
  split; [reflexivity|]. split; [vm_compute; reflexivity|].
  split; [reflexivity|]. split; [vm_compute; reflexivity|].
  split; [reflexivity|]. split; [vm_compute; reflexivity|].
  split; [vm_compute; reflexivity|]. split; [vm_compute; reflexivity|].
  vm_compute. discriminate.
Qed.

(** * Finalizing: the dot entry clean-up *)

Lemma reparentChildren_spec this l : forall h p fuel,
  lseg h p l None -> (length l <= fuel)%nat ->
  exists h',
    (forall e f r, reparentChildren fuel this p (mkWorld h e f r)
                   = Some (tt, mkWorld h' e f r)) /\
    (forall c, c ∈ l ->
       exists cf, h !! c = Some cf /\ h' !! c = Some (set_parent (Some this) cf)) /\
    (forall a, a ∉ l -> h' !! a = h !! a).
Proof.
  induction l as [|c l IH]; intros h p fuel Hl Hf.
  - simpl in Hl. subst p. exists h.
    split; [intros; by destruct fuel|]. split; [|done].
    intros c Hc. by apply elem_of_nil in Hc.
  - pose proof (lseg_NoDup _ _ _ Hl) as Hnd. apply NoDup_cons in Hnd as [Hc Hnd].
    simpl in Hl. destruct Hl as (-> & cf & Ec & Hl).
    destruct fuel as [|fuel]; [simpl in Hf; lia|].
    destruct (IH (<[c := set_parent (Some this) cf]> h) (_next cf) fuel)
      as (h' & E & In & Out).
    { eapply lseg_insert_other; eauto. }
    { simpl in Hf. lia. }
    exists h'. split; [|split].
    + intros e f r. simpl. unfold setParent.
      erewrite bind_eq by (by apply modify_eq).
      erewrite bind_eq by (apply deref_eq; simpl; apply lookup_insert_eq).
      apply E.
    + intros a [->|Ha]%elem_of_cons.
      * exists cf. split; [done|]. rewrite (Out c Hc). apply lookup_insert_eq.
      * destruct (In a Ha) as (fa & E1 & E2). exists fa. split; [|done].
        rewrite lookup_insert_ne in E1; [done|]. intros ->. done.
    + intros a Ha. rewrite Out.
      * apply lookup_insert_ne. intros ->. apply Ha, list_elem_of_here.
      * intros Hin. apply Ha. by apply list_elem_of_further.
Qed.

(** Deleting a [DirInfo] that has neither children nor a dot entry frees
    it, and only it. *)
Lemma deleteObject_empty_dir w a fi d fuel :
  heap w !! a = Some fi -> _dir fi = Some d ->
  _firstChild d = None -> _dotEntry d = None ->
  deleteObject (S fuel) a w = Some (tt, with_heap (delete a (heap w)) w).
Proof.
  intros H1 H2 H3 H4. simpl.
  rewrite (bind_eq _ _ _ _ _ (deref_eq _ _ _ H1)), H2.
  rewrite (bind_eq _ _ _ _ _ (modifyDir_eq _ _ _ _ _ H1 H2)).
  erewrite bind_eq by (eapply derefDir_eq; [simpl; apply lookup_insert_eq|done]).
  simpl. rewrite H3.
  assert (forall (k : unit -> M unit) w0,
    bind ((fix deleteChildren (n : nat) (child : option addr) {struct n} : M unit :=
             match child with
             | Some c =>
                 match n with
                 | 0%nat => fail
                 | S n0 =>
                     bind (deref c) (fun cf =>
                       bind (deleteObject fuel c) (fun _ => deleteChildren n0 (next cf)))
                 end
             | None => ret ()
             end) fuel None) k w0 = k tt w0) as Hloop.
  { intros k w0. by destruct fuel. }
  rewrite Hloop.
  erewrite bind_eq by (eapply derefDir_eq; [simpl; apply lookup_insert_eq|done]).
  simpl. rewrite H4. unfold bind at 1. simpl. unfold free. simpl.
  rewrite lookup_insert_eq. simpl. by rewrite delete_insert_eq.
Qed.

(** [cleanupDotEntries] on a node without children: the children of the
    dot entry move to the node and the dot entry is deleted.  The store
    [h'] afterwards does not depend on the logs of the world. *)
Lemma cleanupDotEntries_reparents h this fi d dot dfi dd ld fuel :
  h !! this = Some fi -> _dir fi = Some d ->
  _isDotEntry d = false -> _dotEntry d = Some dot -> _firstChild d = None ->
  h !! dot = Some dfi -> _dir dfi = Some dd -> _dotEntry dd = None ->
  this <> dot ->
  lseg h (_firstChild dd) ld None -> this ∉ ld -> dot ∉ ld ->
  (length ld < fuel)%nat ->
  exists h',
    (forall e f r, cleanupDotEntries fuel this (mkWorld h e f r)
                   = Some (tt, mkWorld h' e f r)) /\
    children h' this ld /\
    (forall c, c ∈ ld ->
       exists cf, h !! c = Some cf /\ h' !! c = Some (set_parent (Some this) cf)) /\
    h' !! dot = None /\
    h' !! this
    = Some (set_dir (set_dotEntry None (set_firstChild (_firstChild dd) d)) fi) /\
    (forall a, a <> this -> a <> dot -> a ∉ ld -> h' !! a = h !! a).
Proof.
  intros H1 H2 Hnd Hdot Hfc D1 D2 Ddot Hne Hl Htl Hdl Hf.
  destruct fuel as [|fuel]; [lia|].
  set (h1 := <[this := set_dir (set_firstChild (_firstChild dd) d) fi]> h).
  set (h2 := <[dot := set_dir (set_firstChild None dd) dfi]> h1).
  assert (lseg h2 (_firstChild dd) ld None) as Hl2.
  { subst h2 h1. apply lseg_insert_other; [done|]. by apply lseg_insert_other. }
  destruct (reparentChildren_spec this ld h2 (_firstChild dd) (S fuel))
    as (h3 & E3 & In3 & Out3); [done|lia|].
  assert (h3 !! dot = Some (set_dir (set_firstChild None dd) dfi)) as E3d.
  { rewrite (Out3 dot Hdl). subst h2. apply lookup_insert_eq. }
  assert (h3 !! this = Some (set_dir (set_firstChild (_firstChild dd) d) fi)) as E3t.
  { rewrite (Out3 this Htl). subst h2 h1.
    rewrite lookup_insert_ne by done. apply lookup_insert_eq. }
  set (h' := <[this := set_dir (set_dotEntry None (set_firstChild (_firstChild dd) d)) fi]>
               (delete dot h3)).
  exists h'. split.
  { intros e f r. unfold cleanupDotEntries.
    erewrite bind_eq by (by eapply derefDir_eq).
    rewrite Hdot, Hnd. rewrite bool_decide_eq_true_2 by done.
    unfold bind at 1.
    assert ((let* dd0 := derefDir dot in
             run modifyDir this (set_firstChild (_firstChild dd0)) in
             run modifyDir dot (set_firstChild None) in
             reparentChildren (S fuel) this (_firstChild dd0)) (mkWorld h e f r)
            = Some (tt, mkWorld h3 e f r)) as ->.
    { erewrite bind_eq by (by eapply derefDir_eq).
      erewrite bind_eq by (by eapply modifyDir_eq).
      erewrite bind_eq by (eapply modifyDir_eq;
        [simpl; rewrite lookup_insert_ne by done; exact D1 | exact D2]).
      apply E3. }
    erewrite bind_eq by (eapply derefDir_eq; [simpl; exact E3d | done]).
    simpl _firstChild. rewrite bool_decide_eq_true_2 by done.
    erewrite bind_eq by (eapply deleteObject_empty_dir; [simpl; exact E3d|done..]).
    erewrite modifyDir_eq; [|simpl; rewrite lookup_delete_ne by done; exact E3t|done].
    done. }
  assert (forall c, c ∈ ld ->
    exists cf, h !! c = Some cf /\ h' !! c = Some (set_parent (Some this) cf)) as Hin.
  { intros c Hc. destruct (In3 c Hc) as (cf & Ec & Ec3).
    assert (c <> this) by (intros ->; done). assert (c <> dot) by (intros ->; done).
    exists cf. split.
    - subst h2 h1. by rewrite !lookup_insert_ne in Ec.
    - subst h'. rewrite lookup_insert_ne by done. by rewrite lookup_delete_ne. }
  split; [|split; [exact Hin|split; [|split]]].
  - eexists _, _. split; [subst h'; apply lookup_insert_eq|]. split; [done|].
    simpl. eapply lseg_ext; [|exact Hl].
    intros a fa Ha Efa. destruct (Hin a Ha) as (cf & Ec & Ec').
    assert (cf = fa) as -> by congruence. eexists. split; [exact Ec'|done].
  - subst h'. rewrite lookup_insert_ne by done. apply lookup_delete_eq.
  - subst h'. apply lookup_insert_eq.
  - intros a Ha1 Ha2 Ha3. subst h'. rewrite lookup_insert_ne by done.
    rewrite lookup_delete_ne by done. rewrite (Out3 a Ha3). subst h2 h1.
    by rewrite !lookup_insert_ne.
Qed.

(** [cleanupDotEntries] on a node that has children: an empty dot entry
    is deleted, a dot entry with children stays. *)
Lemma cleanupDotEntries_keeps_children w this fi d dot dfi dd fuel :
  heap w !! this = Some fi -> _dir fi = Some d ->
  _isDotEntry d = false -> _dotEntry d = Some dot -> _firstChild d <> None ->
  heap w !! dot = Some dfi -> _dir dfi = Some dd -> _dotEntry dd = None ->
  this <> dot ->
  cleanupDotEntries (S fuel) this w
  = Some (tt, if bool_decide (_firstChild dd = None)
              then with_heap (<[this := set_dir (set_dotEntry None d) fi]>
                                (delete dot (heap w))) w
              else w).
Proof.
  intros H1 H2 Hnd Hdot Hfc D1 D2 Ddot Hne. unfold cleanupDotEntries.
  rewrite (bind_eq _ _ _ _ _ (derefDir_eq _ _ _ _ H1 H2)), Hdot, Hnd.
  rewrite bool_decide_eq_false_2 by done. unfold bind at 1. simpl.
  rewrite (bind_eq _ _ _ _ _ (derefDir_eq _ _ _ _ D1 D2)).
  destruct (decide (_firstChild dd = None)) as [E|E].
  - rewrite !bool_decide_eq_true_2 by done.
    erewrite bind_eq by (by eapply deleteObject_empty_dir).
    erewrite modifyDir_eq; [|simpl; rewrite lookup_delete_ne by done; exact H1|done].
    done.
  - by rewrite !bool_decide_eq_false_2.
Qed.

(** [finalizeAll] on a node without children runs no recursive call,
    notifies the tree and then finalizes locally. *)
Lemma finalizeAll_no_children w this fi d fuel :
  heap w !! this = Some fi -> _dir fi = Some d ->
  _isDotEntry d = false -> _firstChild d = None ->
  finalizeAll (S fuel) this w
  = cleanupDotEntries fuel this
      (mkWorld (heap w) (errors w) (this :: finalizeLocalSent w) (recalcs w)).
Proof.
  intros H1 H2 Hnd Hfc. simpl.
  rewrite (bind_eq _ _ _ _ _ (derefDir_eq _ _ _ _ H1 H2)), Hnd, Hfc.
  assert (forall body, forEachChild fuel body None = ret tt) as ->.
  { intros body. by destruct fuel. }
  done.
Qed.

(** [insertChild] links a new child directly into a node that owns a
    dot entry (and is not one itself) only if the child is a directory:
    the direct children of such a node are directories. *)
Lemma insertTarget_direct_is_dir n h this c nc fi d dot :
  insertTarget n h this c = Some this ->
  h !! c = Some nc -> h !! this = Some fi -> _dir fi = Some d ->
  _dotEntry d = Some dot -> _isDotEntry d = false ->
  (forall m, insertTarget m h dot c <> Some this) ->
  isDir nc = true.
Proof.
  destruct n as [|n]; [done|]. simpl. intros Ht Hc H1 H2 Hdot Hnd Hnot.
  rewrite Hc, H1, H2, Hdot, Hnd in Ht.
  destruct (isDir nc); [done|]. simpl in Ht.
  by apply Hnot in Ht.
Qed.

(** [cleanupDotEntries] on a node [this] that is not a dot entry and
    owns the dot entry [dot].  The direct children [lt] of [this] are
    directories (see [insertTarget_direct_is_dir]); [ld] are the children
    of [dot], which owns no dot entry itself.
    - If [this] has no direct subdirectory child, the call returns; the
      children list of [this] is [ld]; every object of [ld] is what it was
      but for its parent pointer, now [this]; [dot] is deleted, and the
      [_dotEntry] of [this] is null; no other object changes.
      [finalizeAll] does the same after it has notified the tree.
    - If [this] has a direct subdirectory child and [dot] has no
      children, [dot] is deleted and the [_dotEntry] of [this] is null,
      and nothing else changes.
    - If both have children, nothing changes. *)
Theorem cleanupDotEntries_spec w this fi d dot dfi dd lt ld fuel :
  heap w !! this = Some fi -> _dir fi = Some d ->
  _isDotEntry d = false -> _dotEntry d = Some dot ->
  heap w !! dot = Some dfi -> _dir dfi = Some dd -> _dotEntry dd = None ->
  this <> dot ->
  lseg (heap w) (_firstChild d) lt None ->
  (forall c, c ∈ lt -> exists cf, heap w !! c = Some cf /\ isDir cf = true) ->
  lseg (heap w) (_firstChild dd) ld None -> this ∉ ld -> dot ∉ ld ->
  (length ld < fuel)%nat ->
  ((forall c cf, c ∈ lt -> heap w !! c = Some cf -> isDir cf = false) ->
   exists h',
     cleanupDotEntries fuel this w = Some (tt, with_heap h' w) /\
     finalizeAll (S fuel) this w
     = Some (tt, mkWorld h' (errors w) (this :: finalizeLocalSent w) (recalcs w)) /\
     children h' this ld /\
     (forall c, c ∈ ld ->
        exists cf, heap w !! c = Some cf /\ h' !! c = Some (set_parent (Some this) cf)) /\
     h' !! dot = None /\
     (_dotEntry <$> (h' !! this ≫= _dir)) = Some None /\
     (forall a, a <> this -> a <> dot -> a ∉ ld -> h' !! a = heap w !! a)) /\
  ((exists c cf, c ∈ lt /\ heap w !! c = Some cf /\ isDir cf = true) ->
   (ld = [] ->
    cleanupDotEntries fuel this w
    = Some (tt, with_heap (<[this := set_dir (set_dotEntry None d) fi]>
                             (delete dot (heap w))) w)) /\
   (ld <> [] -> cleanupDotEntries fuel this w = Some (tt, w))).
Proof.
  intros H1 H2 Hnd Hdot D1 D2 Ddot Hne Hlt Hdirs Hld Htl Hdl Hf. split.
  - intros Hnone.
    assert (lt = []) as ->.
    { destruct lt as [|c lt]; [done|].
      destruct (Hdirs c (list_elem_of_here _ _)) as (cf & Ec & Edir).
      rewrite (Hnone c cf (list_elem_of_here _ _) Ec) in Edir. done. }
    simpl in Hlt.
    destruct (cleanupDotEntries_reparents (heap w) this fi d dot dfi dd ld fuel)
      as (h' & E & Hch & Hin & Hd & Ht & Hout); try done.
    exists h'. split; [destruct w; apply E|]. split.
    { rewrite (finalizeAll_no_children w this fi d fuel H1 H2 Hnd Hlt). apply E. }
    split; [exact Hch|]. split; [exact Hin|]. split; [exact Hd|].
    split; [by rewrite Ht|exact Hout].
  - intros (c & cf & Hc & Ec & Edir).
    assert (_firstChild d <> None) as Hfc.
    { destruct lt; [by apply elem_of_nil in Hc|]. simpl in Hlt.
      destruct Hlt as [-> _]. done. }
    destruct fuel as [|fuel]; [lia|].
    rewrite (cleanupDotEntries_keeps_children w this fi d dot dfi dd fuel); try done.
    split.
    + intros ->. simpl in Hld. by rewrite bool_decide_eq_true_2.
    + intros Hnil. rewrite bool_decide_eq_false_2; [done|].
      intros E. rewrite E in Hld. destruct ld; [done|]. simpl in Hld. by destruct Hld.
Qed.

(** In [twoFilesWorld] the root has no direct child and its dot entry
    holds the files 4 and 3: after [finalizeAll] the root lists 4 and 3
    and the dot entry (address 2) is gone. *)
Lemma cleanupDotEntries_spec_witness :
  exists h',
    cleanupDotEntries 3 1 twoFilesWorld = Some (tt, with_heap h' twoFilesWorld) /\
    finalizeAll 4 1 twoFilesWorld
    = Some (tt, mkWorld h' (errors twoFilesWorld)
                  (1%positive :: finalizeLocalSent twoFilesWorld)
                  (recalcs twoFilesWorld)) /\
    children h' 1 [4; 3]%positive /\
    h' !! 2%positive = None.
Proof.
  edestruct (cleanupDotEntries_spec twoFilesWorld 1%positive)
    with (dot := 2%positive) (lt := @nil addr) (ld := [4; 3]%positive) (fuel := 3%nat)
    as [HA _].
  - vm_compute. reflexivity.
  - reflexivity.
  - reflexivity.
  - reflexivity.
  - vm_compute. reflexivity.
  - reflexivity.
  - reflexivity.
  - done.
  - vm_compute. reflexivity.
  - intros c Hc. apply elem_of_nil in Hc. destruct Hc.
  - solve_children.
  - intros H. repeat (apply elem_of_cons in H as [H|H]; [discriminate H|]).
    by apply elem_of_nil in H.
  - intros H. repeat (apply elem_of_cons in H as [H|H]; [discriminate H|]).
    by apply elem_of_nil in H.
  - simpl. lia.
  - destruct HA as (h' & E1 & E2 & Hch & _ & Hd & _).
    + intros c cf Hc. apply elem_of_nil in Hc. destruct Hc.
    + exists h'. split; [exact E1|]. split; [exact E2|]. split; [exact Hch|exact Hd].
Defined.

(** * Subtrees of the store *)

Lemma Tree_ind' (P : Tree -> Prop) :
  (forall a kids dot dotKids,
     Forall P kids -> Forall P dotKids -> P (Node a kids dot dotKids)) ->
  forall t, P t.
Proof.
  intros H. fix IH 1. intros [a kids dot dotKids]. apply H.
  - induction kids as [|k kids IHk]; constructor; [apply IH | exact IHk].
  - induction dotKids as [|k dotKids IHk]; constructor; [apply IH | exact IHk].
Qed.

Lemma root_in_addrs t : root t ∈ addrs t.
Proof. destruct t. simpl. apply list_elem_of_here. Qed.

Lemma addrs_kid a kids dot dotKids k x :
  k ∈ kids -> x ∈ addrs k -> x ∈ addrs (Node a kids dot dotKids).
Proof.
  intros Hk Hx. simpl. apply list_elem_of_further, elem_of_app. left.
  apply list_elem_of_bind. eauto.
Qed.

Lemma addrs_dotKid a kids dot dotKids k x :
  k ∈ dotKids -> x ∈ addrs k -> x ∈ addrs (Node a kids dot dotKids).
Proof.
  intros Hk Hx. simpl. apply list_elem_of_further, elem_of_app. right.
  apply elem_of_app. right. apply list_elem_of_bind. eauto.
Qed.

Lemma addrs_item t k x : k ∈ items t -> x ∈ addrs k -> x ∈ addrs t.
Proof.
  destruct t as [a kids dot dotKids]. simpl.
  intros [Hk|Hk]%elem_of_app Hx; [by eapply addrs_kid | by eapply addrs_dotKid].
Qed.

Lemma addrs_items_bind a kids dot dotKids x :
  x ∈ (kids ++ dotKids) ≫= addrs -> x ∈ addrs (Node a kids dot dotKids).
Proof.
  intros (k & Hx & Hk)%list_elem_of_bind.
  eapply (addrs_item (Node a kids dot dotKids)); eauto.
Qed.

(** The items of a tree without repeated address: their addresses are
    pairwise disjoint and do not contain the root. *)
Lemma NoDup_addrs_items a kids dot dotKids :
  NoDup (addrs (Node a kids dot dotKids)) ->
  NoDup ((kids ++ dotKids) ≫= addrs) /\ a ∉ (kids ++ dotKids) ≫= addrs.
Proof.
  simpl. intros [Ha Hnd]%NoDup_cons.
  apply NoDup_app in Hnd as (N1 & D1 & Hnd).
  apply NoDup_app in Hnd as (N2 & D2 & N3).
  rewrite bind_app. split.
  - apply NoDup_app. split; [done|]. split; [|done].
    intros x Hx Hx'. apply (D1 x Hx). apply elem_of_app. by right.
  - intros [Hx|Hx]%elem_of_app; apply Ha; apply elem_of_app; [by left|].
    right. apply elem_of_app. by right.
Qed.

Lemma NoDup_bind_cons {A B} (f : A -> list B) k ks :
  NoDup ((k :: ks) ≫= f) ->
  NoDup (f k) /\ NoDup (ks ≫= f) /\ (forall x, x ∈ f k -> x ∉ ks ≫= f).
Proof. rewrite bind_cons. intros (? & ? & ?)%NoDup_app. done. Qed.

(** ** Only the objects of a subtree matter *)

Lemma infoAt_agree h1 h2 x : h1 !! x = h2 !! x -> infoAt h1 x = infoAt h2 x.
Proof. unfold infoAt. by intros ->. Qed.

Lemma dirtyAt_agree h1 h2 x : h1 !! x = h2 !! x -> dirtyAt h1 x = dirtyAt h2 x.
Proof. unfold dirtyAt. by intros ->. Qed.

Lemma foldl_ext_in {A B} (f g : A -> B -> A) l a :
  (forall s k, k ∈ l -> f s k = g s k) -> foldl f a l = foldl g a l.
Proof.
  revert a. induction l as [|k l IH]; intros a H; [done|]. simpl.
  rewrite (H a k (list_elem_of_here _ _)). apply IH.
  intros s k' Hk. apply H. by apply list_elem_of_further.
Qed.

Lemma calc_agree h1 h2 t :
  (forall x, x ∈ addrs t -> h1 !! x = h2 !! x) -> calc h1 t = calc h2 t.
Proof.
  induction t as [a kids dot dotKids IHk IHd] using Tree_ind'. intros Hag.
  simpl. rewrite (dirtyAt_agree h1 h2 a), (infoAt_agree h1 h2 a)
    by (apply Hag, list_elem_of_here).
  destruct (dirtyAt h2 a); [|done].
  assert (foldl (fun s k => plusItem s (infoAt h1 (root k)) (calc h1 k))
            (ownSummary (infoAt h2 a)) kids
          = foldl (fun s k => plusItem s (infoAt h2 (root k)) (calc h2 k))
              (ownSummary (infoAt h2 a)) kids) as ->.
  { apply foldl_ext_in. intros s k Hk.
    rewrite (infoAt_agree h1 h2 (root k))
      by (apply Hag; eapply addrs_kid; [done|apply root_in_addrs]).
    rewrite Forall_forall in IHk. rewrite (IHk k Hk); [done|].
    intros x Hx. apply Hag. by eapply addrs_kid. }
  apply foldl_ext_in. intros s k Hk.
  rewrite (infoAt_agree h1 h2 (root k))
    by (apply Hag; eapply addrs_dotKid; [done|apply root_in_addrs]).
  rewrite Forall_forall in IHd. rewrite (IHd k Hk); [done|].
  intros x Hx. apply Hag. by eapply addrs_dotKid.
Qed.

Lemma bind_ext_in {A B} (f g : A -> list B) l :
  (forall k, k ∈ l -> f k = g k) -> l ≫= f = l ≫= g.
Proof.
  induction l as [|k l IH]; intros H; [done|]. rewrite !bind_cons.
  rewrite (H k (list_elem_of_here _ _)), IH; [done|].
  intros k' Hk. apply H. by apply list_elem_of_further.
Qed.

Lemma computed_agree h1 h2 t :
  (forall x, x ∈ addrs t -> h1 !! x = h2 !! x) -> computed h1 t = computed h2 t.
Proof.
  induction t as [a kids dot dotKids IHk IHd] using Tree_ind'. intros Hag.
  pose proof (calc_agree h1 h2 (Node a kids dot dotKids) Hag) as Hc.
  simpl in *. rewrite (dirtyAt_agree h1 h2 a) in * by (apply Hag, list_elem_of_here).
  destruct (dirtyAt h2 a); [|done]. rewrite Hc. f_equal. f_equal.
  - apply bind_ext_in. intros k Hk. rewrite Forall_forall in IHk.
    apply (IHk k Hk). intros x Hx. apply Hag. by eapply addrs_kid.
  - apply bind_ext_in. intros k Hk. rewrite Forall_forall in IHd.
    apply (IHd k Hk). intros x Hx. apply Hag. by eapply addrs_dotKid.
Qed.

(** The recalculated nodes are nodes of the subtree. *)
Lemma computed_keys h t x : x ∈ (computed h t).*1 -> x ∈ addrs t.
Proof.
  revert x. induction t as [a kids dot dotKids IHk IHd] using Tree_ind'. intros x.
  simpl. destruct (dirtyAt h a); [|by intros ?%elem_of_nil].
  rewrite fmap_cons, fmap_app. simpl.
  intros [->|[Hx|Hx]%elem_of_app]%elem_of_cons; [apply list_elem_of_here|..].
  - apply list_elem_of_fmap in Hx as ([y s] & -> & Hy).
    apply list_elem_of_bind in Hy as (k & Hy & Hk).
    rewrite Forall_forall in IHk. eapply addrs_kid; [done|].
    apply (IHk k Hk). apply list_elem_of_fmap. by exists (y, s).
  - apply list_elem_of_fmap in Hx as ([y s] & -> & Hy).
    apply list_elem_of_bind in Hy as (k & Hy & Hk).
    rewrite Forall_forall in IHd. eapply addrs_dotKid; [done|].
    apply (IHd k Hk). apply list_elem_of_fmap. by exists (y, s).
Qed.

Lemma computed_items_keys h ks x :
  x ∈ (ks ≫= computed h).*1 -> x ∈ ks ≫= addrs.
Proof.
  intros ([y s] & -> & Hy)%list_elem_of_fmap.
  apply list_elem_of_bind in Hy as (k & Hy & Hk).
  apply list_elem_of_bind. exists k. split; [|done].
  apply (computed_keys h). apply list_elem_of_fmap. by exists (y, s).
Qed.

Lemma NoDup_sub_bind {A B C} (f : A -> list B) (g : A -> list C)
    (p : B -> C) (ks : list A) :
  (forall k, k ∈ ks -> NoDup (g k) -> NoDup (p <$> f k)) ->
  (forall k x, k ∈ ks -> x ∈ p <$> f k -> x ∈ g k) ->
  NoDup (ks ≫= g) -> NoDup (p <$> (ks ≫= f)).
Proof.
  induction ks as [|k ks IH]; intros H1 H2 Hnd; [constructor|].
  apply NoDup_bind_cons in Hnd as (Nk & Nks & Dk).
  rewrite bind_cons, fmap_app. apply NoDup_app. split; [|split].
  - apply H1; [apply list_elem_of_here|done].
  - intros x Hx Hx'. apply (Dk x); [by apply (H2 k), Hx; apply list_elem_of_here|].
    apply list_elem_of_fmap in Hx' as (y & -> & Hy).
    apply list_elem_of_bind in Hy as (k' & Hy & Hk').
    apply list_elem_of_bind. exists k'. split; [|done].
    apply (H2 k'); [by apply list_elem_of_further|]. by apply list_elem_of_fmap_2.
  - apply IH; [| |done].
    + intros k' Hk'. apply H1. by apply list_elem_of_further.
    + intros k' x Hk'. apply H2. by apply list_elem_of_further.
Qed.

Lemma computed_NoDup h t : NoDup (addrs t) -> NoDup (computed h t).*1.
Proof.
  induction t as [a kids dot dotKids IHk IHd] using Tree_ind'. intros Hnd.
  destruct (NoDup_addrs_items _ _ _ _ Hnd) as [Hit Ha].
  simpl. destruct (dirtyAt h a); [|constructor].
  rewrite fmap_cons. simpl. rewrite <- bind_app. apply NoDup_cons. split.
  - intros Hin. apply Ha. by apply (computed_items_keys h).
  - apply (NoDup_sub_bind (computed h) addrs fst); [| |done].
    + intros k Hk. rewrite Forall_forall in IHk, IHd.
      apply elem_of_app in Hk as [Hk|Hk]; [by apply IHk | by apply IHd].
    + intros k x _. apply computed_keys.
Qed.

(** ** Stores with the same links hold the same subtrees *)

Lemma skel_Some (h1 h2 : gmap addr FileInfo) x fi :
  skel <$> h2 !! x = skel <$> h1 !! x -> h1 !! x = Some fi ->
  exists fi', h2 !! x = Some fi' /\ _next fi' = _next fi /\
    (_dir fi = None -> _dir fi' = None) /\
    (forall d, _dir fi = Some d ->
       exists d', _dir fi' = Some d' /\ _firstChild d' = _firstChild d /\
                  _dotEntry d' = _dotEntry d).
Proof.
  intros Hs E. rewrite E in Hs. destruct (h2 !! x) as [fi'|]; [|done].
  simpl in Hs. injection Hs as Hn Hd. exists fi'. split; [done|]. split; [done|].
  split.
  - intros En. rewrite En in Hd. by destruct (_dir fi').
  - intros d Ed. rewrite Ed in Hd. destruct (_dir fi') as [d'|]; [|done].
    simpl in Hd. injection Hd as H1 H2. eauto.
Qed.

Lemma lseg_skel (h1 h2 : gmap addr FileInfo) p l q :
  (forall x, x ∈ l -> skel <$> h2 !! x = skel <$> h1 !! x) ->
  lseg h1 p l q -> lseg h2 p l q.
Proof.
  intros Hs. apply lseg_ext. intros a fi Ha E.
  destruct (skel_Some h1 h2 a fi (Hs a Ha) E) as (fi' & E' & En & _). eauto.
Qed.

Lemma repr_ext (h1 h2 : gmap addr FileInfo) t :
  (forall x, x ∈ addrs t -> skel <$> h2 !! x = skel <$> h1 !! x) ->
  repr h1 t -> repr h2 t.
Proof.
  induction t as [a kids dot dotKids IHk IHd] using Tree_ind'. intros Hs Hr.
  inversion Hr as [a' fi E1 E2 | a' fi d kids' dotKids' E1 E2 Hl Hk Hdot Hdk]; subst.
  - destruct (skel_Some h1 h2 a fi (Hs a (list_elem_of_here _ _)) E1)
      as (fi' & E' & _ & Hn & _).
    eapply repr_plain; eauto.
  - destruct (skel_Some h1 h2 a fi (Hs a (list_elem_of_here _ _)) E1)
      as (fi' & E' & _ & _ & Hd).
    destruct (Hd d E2) as (d' & Ed' & Hfc & Hde).
    rewrite <- Hde. eapply repr_dir; [exact E'|exact Ed'|..].
    + rewrite Hfc. eapply lseg_skel; [|exact Hl].
      intros x (k & -> & Hk')%list_elem_of_fmap. apply Hs.
      eapply addrs_kid; [done|apply root_in_addrs].
    + rewrite Forall_forall in *. intros k Hk'. apply IHk; [done| |by apply Hk].
      intros x Hx. apply Hs. by eapply addrs_kid.
    + rewrite Hde. destruct (_dotEntry d) as [da|]; [|done].
      destruct Hdot as (dfi & dd & D1 & D2 & Hld).
      assert (da ∈ addrs (Node a kids (Some da) dotKids)) as Hda.
      { simpl. apply list_elem_of_further, elem_of_app. right.
        apply list_elem_of_here. }
      destruct (skel_Some h1 h2 da dfi (Hs da Hda) D1) as (dfi' & D1' & _ & _ & Hd').
      destruct (Hd' dd D2) as (dd' & D2' & Hfc' & _).
      exists dfi', dd'. split; [done|]. split; [done|]. rewrite Hfc'.
      eapply lseg_skel; [|exact Hld].
      intros x (k & -> & Hk')%list_elem_of_fmap. apply Hs.
      eapply addrs_dotKid; [done|apply root_in_addrs].
    + rewrite Forall_forall in *. intros k Hk'. apply IHd; [done| |by apply Hdk].
      intros x Hx. apply Hs. by eapply addrs_dotKid.
Qed.

Lemma skel_storeIn s fi : skel (storeIn s fi) = skel fi.
Proof. unfold storeIn, skel. by destruct (_dir fi) eqn:E; simpl; rewrite ?E. Qed.

Lemma cleaned_by_skel L (h h' : gmap addr FileInfo) x :
  cleaned_by L h h' -> skel <$> h' !! x = skel <$> h !! x.
Proof.
  intros Hc. rewrite (Hc x). destruct (list_to_map L !! x); [|done].
  destruct (h !! x); [|done]. simpl. by rewrite skel_storeIn.
Qed.

Lemma cleaned_by_nil h h' : cleaned_by [] h h' -> h' = h.
Proof. intros Hc. apply map_eq. intros x. by rewrite (Hc x). Qed.

Lemma cleaned_by_outside L h h' x :
  cleaned_by L h h' -> x ∉ L.*1 -> h' !! x = h !! x.
Proof.
  intros Hc Hx. rewrite (Hc x).
  by rewrite (not_elem_of_list_to_map_1 L x Hx).
Qed.

Lemma repr_cleaned_by L h h' t : cleaned_by L h h' -> repr h t -> repr h' t.
Proof. intros Hc. apply repr_ext. intros x _. by eapply cleaned_by_skel. Qed.

Lemma repr_root h t : repr h t -> is_Some (h !! root t).
Proof. inversion 1; simpl; eauto. Qed.

Lemma repr_items h t k : repr h t -> k ∈ items t -> repr h k.
Proof.
  inversion 1 as [|a fi d kids dotKids E1 E2 Hl Hk Hdot Hdk]; subst; simpl.
  - by intros ?%elem_of_nil.
  - rewrite Forall_forall in Hk, Hdk. intros [?|?]%elem_of_app; auto.
Qed.

(** The iterator of [recalc()] yields the roots of the items. *)
Lemma FileInfoIterator_repr w t fi d fuel :
  repr (heap w) t -> heap w !! root t = Some fi -> _dir fi = Some d ->
  (length (items t) < fuel)%nat ->
  FileInfoIterator fuel (root t) w = Some (root <$> items t, w).
Proof.
  inversion 1 as [a fi' E1 E2 | a fi' d' kids dotKids E1 E2 Hl Hk Hdot Hdk]; subst;
    simpl; intros E Ed Hf.
  - congruence.
  - assert (fi' = fi) as -> by congruence. assert (d' = d) as -> by congruence.
    rewrite length_app in Hf. unfold FileInfoIterator.
    rewrite (bind_eq _ _ _ _ _ (derefDir_eq _ _ _ _ E1 E2)).
    rewrite (siblings_lseg _ _ _ fuel Hl) by (rewrite length_fmap; lia).
    destruct (_dotEntry d) as [da|].
    + destruct Hdot as (dfi & dd & D1 & D2 & Hld). rewrite D1, D2.
      rewrite (siblings_lseg _ _ _ fuel Hld) by (rewrite length_fmap; lia).
      by rewrite fmap_app.
    + subst dotKids. by rewrite app_nil_r.
Qed.

(** * [recalc()] and the summary accessors on a subtree *)

Lemma treeFuel_bound (ks : list Tree) (n : nat) k :
  k ∈ ks -> (treeFuel k <= foldr Nat.max n (treeFuel <$> ks))%nat.
Proof.
  induction ks as [|k' ks IH]; [by intros ?%elem_of_nil|].
  intros [->|Hk]%elem_of_cons; rewrite fmap_cons; simpl; [lia|].
  specialize (IH Hk). lia.
Qed.

Lemma foldr_max_base (l : list nat) (n : nat) : (n <= foldr Nat.max n l)%nat.
Proof. induction l; simpl; lia. Qed.

Lemma treeFuel_item t k : k ∈ items t -> (treeFuel k < treeFuel t)%nat.
Proof.
  destruct t as [a kids dot dotKids]. simpl. intros [Hk|Hk]%elem_of_app.
  - pose proof (treeFuel_bound kids
      (foldr Nat.max (S (length kids + length dotKids)) (treeFuel <$> dotKids)) k Hk).
    lia.
  - pose proof (treeFuel_bound dotKids (S (length kids + length dotKids)) k Hk).
    pose proof (foldr_max_base (treeFuel <$> kids)
      (foldr Nat.max (S (length kids + length dotKids)) (treeFuel <$> dotKids))).
    lia.
Qed.

Lemma treeFuel_items t : (S (S (length (items t))) <= treeFuel t)%nat.
Proof.
  destruct t as [a kids dot dotKids]. simpl. rewrite length_app.
  pose proof (foldr_max_base (treeFuel <$> dotKids) (S (length kids + length dotKids))).
  pose proof (foldr_max_base (treeFuel <$> kids)
    (foldr Nat.max (S (length kids + length dotKids)) (treeFuel <$> dotKids))).
  lia.
Qed.

Lemma summaryAccessor_settled rec field own proj w c fc :
  accessorOf field own proj ->
  heap w !! c = Some fc -> settled fc ->
  summaryAccessor rec field own c w = Some (proj (reported fc), w).
Proof.
  intros [Hf Ho] Hc Hs. unfold settled, reported in *.
  destruct (_dir fc) as [dc|] eqn:Ed.
  - rewrite (summaryAccessor_clean _ _ _ _ _ _ _ Hc Ed Hs). by rewrite Hf.
  - rewrite (summaryAccessor_plain _ _ _ _ _ _ Hc Ed). by rewrite Ho.
Qed.

Lemma accessorOf_size : accessorOf _totalSize size sumSize.
Proof. done. Qed.
Lemma accessorOf_blocks : accessorOf _totalBlocks blocks sumBlocks.
Proof. done. Qed.
Lemma accessorOf_items : accessorOf _totalItems (fun _ => 0) sumItems.
Proof. done. Qed.
Lemma accessorOf_subDirs : accessorOf _totalSubDirs (fun _ => 0) sumSubDirs.
Proof. done. Qed.
Lemma accessorOf_files : accessorOf _totalFiles (fun _ => 0) sumFiles.
Proof. done. Qed.
Lemma accessorOf_mtime : accessorOf _latestMtime mtime sumMtime.
Proof. done. Qed.

Lemma summaryAccessor_upd rec field own proj w0 (h : gmap addr FileInfo) a X c fc :
  accessorOf field own proj -> a <> c ->
  h !! c = Some fc -> settled fc ->
  summaryAccessor rec field own c (with_heap (<[a := X]> h) w0)
  = Some (proj (reported fc), with_heap (<[a := X]> h) w0).
Proof.
  intros Hacc Hne Hc Hs. eapply summaryAccessor_settled; [done| |done].
  simpl. by rewrite lookup_insert_ne.
Qed.

Lemma deref_upd_ne w0 (h : gmap addr FileInfo) a X c fc :
  a <> c -> h !! c = Some fc ->
  deref c (with_heap (<[a := X]> h) w0) = Some (fc, with_heap (<[a := X]> h) w0).
Proof. intros Hne Hc. apply deref_eq. simpl. by rewrite lookup_insert_ne. Qed.

(** One round of the loop, after its first accessor call has settled the
    item. *)
Lemma recalc_item_settled rec w0 (h : gmap addr FileInfo) a fa da c fc :
  _dir fa = Some da -> a <> c -> h !! c = Some fc -> settled fc ->
  recalc_item rec a c (with_heap (<[a := fa]> h) w0)
  = Some (tt, with_heap
                (<[a := set_dir (withSummary (plusItem (cached da) fc (reported fc)) da) fa]> h)
                w0).
Proof.
  intros Hda Hne Hc Hs. unfold recalc_item.
  rewrite (bind_eq _ _ _ _ _
    (summaryAccessor_upd _ _ _ _ _ _ _ _ _ _ accessorOf_size Hne Hc Hs)).
  rewrite (bind_eq _ _ _ _ _ (modifyDir_upd _ _ _ _ _ _ Hda)).
  rewrite (bind_eq _ _ _ _ _
    (summaryAccessor_upd _ _ _ _ _ _ _ _ _ _ accessorOf_blocks Hne Hc Hs)).
  erewrite bind_eq by (by apply modifyDir_upd).
  rewrite (bind_eq _ _ _ _ _
    (summaryAccessor_upd _ _ _ _ _ _ _ _ _ _ accessorOf_items Hne Hc Hs)).
  erewrite bind_eq by (by apply modifyDir_upd).
  rewrite (bind_eq _ _ _ _ _
    (summaryAccessor_upd _ _ _ _ _ _ _ _ _ _ accessorOf_subDirs Hne Hc Hs)).
  erewrite bind_eq by (by apply modifyDir_upd).
  rewrite (bind_eq _ _ _ _ _
    (summaryAccessor_upd _ _ _ _ _ _ _ _ _ _ accessorOf_files Hne Hc Hs)).
  erewrite bind_eq by (by apply modifyDir_upd).
  rewrite (bind_eq _ _ _ _ _ (deref_upd_ne _ _ _ _ _ _ Hne Hc)).
  unfold plusItem. rewrite max_ltb.
  destruct da as [a1 a2 a3 a4 a5 a6 a7 a8 a9 a10 a11 a12 a13 a14 a15]; simpl.
  destruct (isDir fc), (isFile fc); rewrite ?Z.add_0_r;
    repeat (erewrite bind_eq by (first [by apply modifyDir_upd | reflexivity]));
    (rewrite (bind_eq _ _ _ _ _
       (summaryAccessor_upd _ _ _ _ _ _ _ _ _ _ accessorOf_mtime Hne Hc Hs)));
    (erewrite bind_eq by (by apply derefDir_upd)); simpl;
    (destruct (_ <? sumMtime (reported fc));
     [erewrite modifyDir_upd by reflexivity; reflexivity | reflexivity]).
Qed.

Lemma plusItem_mode s f1 f2 v :
  isDir f1 = isDir f2 -> isFile f1 = isFile f2 -> plusItem s f1 v = plusItem s f2 v.
Proof. unfold plusItem. by intros -> ->. Qed.

Lemma storeIn_dir s fi d :
  _dir fi = Some d ->
  settled (storeIn s fi) /\ reported (storeIn s fi) = s /\
  isDir (storeIn s fi) = isDir fi /\ isFile (storeIn s fi) = isFile fi.
Proof.
  intros Hd. unfold storeIn, settled, reported. rewrite Hd. simpl.
  by destruct s.
Qed.

Lemma dirtyAt_true (h : gmap addr FileInfo) a :
  dirtyAt h a = true ->
  exists fi d, h !! a = Some fi /\ _dir fi = Some d /\ _summaryDirty d = true.
Proof.
  unfold dirtyAt. destruct (h !! a) as [fi|]; [|done].
  destruct (_dir fi) as [d|] eqn:E; [|done]. eauto.
Qed.

Lemma dirtyAt_false (h : gmap addr FileInfo) a fi :
  dirtyAt h a = false -> h !! a = Some fi -> settled fi.
Proof.
  unfold dirtyAt, settled. intros H E. rewrite E in H.
  by destruct (_dir fi).
Qed.

Lemma calc_unfold (h : gmap addr FileInfo) t :
  calc h t = if dirtyAt h (root t) then recalcValue h t
             else reported (infoAt h (root t)).
Proof. destruct t. simpl. unfold recalcValue. simpl. by rewrite foldl_app. Qed.

Lemma computed_unfold (h : gmap addr FileInfo) t :
  computed h t = if dirtyAt h (root t)
                 then (root t, recalcValue h t) :: (items t ≫= computed h)
                 else [].
Proof.
  destruct t. simpl. unfold recalcValue. simpl. by rewrite foldl_app, bind_app.
Qed.

(** After an accessor call the root of the subtree is settled and reports
    the computed summary. *)
Lemma after_access (h h' : gmap addr FileInfo) t :
  repr h t -> cleaned_by (computed h t) h h' ->
  exists fc, h' !! root t = Some fc /\ settled fc /\ reported fc = calc h t /\
             isDir fc = isDir (infoAt h (root t)) /\
             isFile fc = isFile (infoAt h (root t)).
Proof.
  intros Hr Hc. destruct (repr_root _ _ Hr) as [fi E].
  specialize (Hc (root t)). rewrite computed_unfold in Hc. rewrite calc_unfold.
  unfold infoAt. rewrite E. simpl.
  destruct (dirtyAt h (root t)) eqn:Hd.
  - rewrite list_to_map_cons, lookup_insert_eq, E in Hc. simpl in Hc.
    apply dirtyAt_true in Hd as (fi' & d & E' & Ed & _).
    assert (fi' = fi) as -> by congruence.
    exists (storeIn (recalcValue h t) fi). split; [done|].
    by apply (storeIn_dir _ _ d).
  - simpl in Hc. rewrite lookup_empty, E in Hc.
    exists fi. split; [done|]. split; [by eapply dirtyAt_false|done].
Qed.

Lemma lookup_list_to_map_app (L1 L2 : list (addr * Summary)) x :
  (list_to_map (L1 ++ L2) : gmap addr Summary) !! x
  = match (list_to_map L1 : gmap addr Summary) !! x with
    | Some s => Some s
    | None => (list_to_map L2 : gmap addr Summary) !! x
    end.
Proof.
  rewrite list_to_map_app.
  destruct ((list_to_map L1 : gmap addr Summary) !! x) as [s|] eqn:E.
  - by apply lookup_union_Some_l.
  - by apply lookup_union_r.
Qed.

Lemma cleaned_except_step a X L1 L2 (h g h1 : gmap addr FileInfo) :
  cleaned_except a L1 h g -> cleaned_by L2 (<[a := X]> g) h1 ->
  (forall x, x ∈ L2.*1 -> x ∉ L1.*1) ->
  cleaned_except a (L1 ++ L2) h h1.
Proof.
  intros H1 H2 Hd x Hx. rewrite (H2 x), lookup_insert_ne by done.
  rewrite (H1 x Hx), lookup_list_to_map_app.
  destruct ((list_to_map L1 : gmap addr Summary) !! x) as [s1|] eqn:E1; [|done].
  assert (x ∉ L2.*1) as Hx2.
  { intros Hin. apply (Hd x Hin).
    destruct (decide (x ∈ L1.*1)) as [?|Hn]; [done|].
    rewrite (not_elem_of_list_to_map_1 L1 x Hn) in E1. discriminate E1. }
  by rewrite (not_elem_of_list_to_map_1 L2 x Hx2).
Qed.

Lemma recalc_item_first rec a c w v w1 :
  summaryAccessor rec _totalSize size c w = Some (v, w1) ->
  summaryAccessor rec _totalSize size c w1 = Some (v, w1) ->
  recalc_item rec a c w = recalc_item rec a c w1.
Proof.
  intros H1 H2. unfold recalc_item.
  by rewrite (bind_eq _ _ _ _ _ H1), (bind_eq _ _ _ _ _ H2).
Qed.

Lemma withSummary_withSummary s1 s2 d :
  withSummary s1 (withSummary s2 d) = withSummary s1 d.
Proof. done. Qed.

Lemma cached_withSummary s d : cached (withSummary s d) = s.
Proof. by destruct s. Qed.

Lemma bind_snoc {A B} (f : A -> list B) (P : list A) k :
  (P ++ [k]) ≫= f = (P ≫= f) ++ f k.
Proof. by rewrite bind_app, bind_singleton. Qed.

(** The loop of [recalc()] on the remaining items [rest], after the items
    [P]: [S] is the summary accumulated in the node [a] so far. *)
Lemma recalc_loop_spec (h : gmap addr FileInfo) a fa da fuel e f r0 (rest : list Tree) :
  _dir fa = Some da ->
  forall P S (g : gmap addr FileInfo),
    Forall accessSpec rest -> Forall (repr h) rest ->
    Forall (fun k => (treeFuel k <= fuel)%nat) rest ->
    NoDup ((P ++ rest) ≫= addrs) -> a ∉ (P ++ rest) ≫= addrs ->
    cleaned_except a (P ≫= computed h) h g ->
    exists g',
      recalc_loop (recalc fuel) a (root <$> rest)
        (mkWorld (<[a := set_dir (withSummary S da) fa]> g) e f
                 (rev (P ≫= computed h).*1 ++ r0))
      = Some (tt, mkWorld
                    (<[a := set_dir
                              (withSummary
                                 (foldl (fun s k => plusItem s (infoAt h (root k)) (calc h k))
                                        S rest) da) fa]> g')
                    e f (rev ((P ++ rest) ≫= computed h).*1 ++ r0)) /\
      cleaned_except a ((P ++ rest) ≫= computed h) h g'.
Proof.
  intros Hda. induction rest as [|k rest IH]; intros P S g Hacc Hrep Hfuel Hnd Ha Hg.
  - exists g. rewrite app_nil_r. done.
  - apply Forall_cons in Hacc as [Hk Hacc]. apply Forall_cons in Hrep as [Hrk Hrep].
    apply Forall_cons in Hfuel as [Hfk Hfuel].
    set (X := set_dir (withSummary S da) fa).
    set (wP := mkWorld (<[a := X]> g) e f (rev (P ≫= computed h).*1 ++ r0)).
    (* the addresses of [k] are untouched so far *)
    assert (forall x, x ∈ addrs k -> x <> a) as Hka.
    { intros x Hx ->. apply Ha. apply list_elem_of_bind. exists k. split; [done|].
      apply elem_of_app. right. apply list_elem_of_here. }
    rewrite bind_app, bind_cons in Hnd.
    apply NoDup_app in Hnd as (NP & DP & Nk).
    apply NoDup_app in Nk as (Nk & Dk & Nrest).
    assert (forall x, x ∈ addrs k -> heap wP !! x = h !! x) as Hagree.
    { intros x Hx. simpl. rewrite lookup_insert_ne by (by apply not_eq_sym, Hka).
      rewrite (Hg x (Hka x Hx)).
      rewrite (not_elem_of_list_to_map_1 (P ≫= computed h) x); [done|].
      intros Hin%computed_items_keys. apply (DP x Hin). apply elem_of_app. by left. }
    assert (repr (heap wP) k) as HrP.
    { eapply repr_ext; [|exact Hrk]. intros x Hx. by rewrite Hagree. }
    destruct (Hk wP fuel _ _ _ accessorOf_size HrP Nk Hfk) as (h1 & E1 & Hc1).
    rewrite (calc_agree _ h k Hagree) in E1.
    rewrite (computed_agree _ h k Hagree) in E1, Hc1.
    destruct (after_access (heap wP) h1 k HrP) as (fc & Efc & Hset & Hrepd & Hdir & Hfile).
    { by rewrite (computed_agree _ h k Hagree). }
    rewrite (calc_agree _ h k Hagree) in Hrepd.
    rewrite (infoAt_agree _ h (root k) (Hagree _ (root_in_addrs k))) in Hdir, Hfile.
    assert (a <> root k) as Hne by (apply not_eq_sym, Hka, root_in_addrs).
    assert (h1 !! a = Some X) as E1a.
    { rewrite (cleaned_by_outside _ _ _ a Hc1); [simpl; apply lookup_insert_eq|].
      intros Hin%computed_keys. by apply (Hka a). }
    set (R1 := rev (computed h k).*1 ++ (rev (P ≫= computed h).*1 ++ r0)).
    assert (mkWorld h1 e f R1 = with_heap (<[a := X]> h1) (mkWorld h1 e f R1)) as Hnorm.
    { unfold with_heap. simpl. by rewrite (insert_id h1 a X E1a). }
    assert (summaryAccessor (recalc fuel) _totalSize size (root k) wP
            = Some (sumSize (calc h k), mkWorld h1 e f R1)) as E1' by exact E1.
    clear E1. rename E1' into E1.
    assert (recalc_item (recalc fuel) a (root k) wP
            = Some (tt, mkWorld
                 (<[a := set_dir (withSummary (plusItem S (infoAt h (root k)) (calc h k)) da) fa]> h1)
                 e f R1)) as Eitem.
    { rewrite (recalc_item_first _ a _ _ _ _ E1).
      - rewrite Hnorm. erewrite recalc_item_settled; [|by subst X|done|exact Efc|done].
        subst X. simpl. rewrite cached_withSummary, Hrepd.
        by rewrite (plusItem_mode _ fc (infoAt h (root k)) _ Hdir Hfile).
      - rewrite (summaryAccessor_settled _ _ _ _ (mkWorld h1 e f R1) _ fc
                   accessorOf_size Efc Hset).
        by rewrite Hrepd. }
    destruct (IH (P ++ [k]) (plusItem S (infoAt h (root k)) (calc h k)) h1)
      as (g' & Eloop & Hg'); try done.
    { rewrite <- app_assoc. simpl. rewrite bind_app, bind_cons.
      apply NoDup_app. split; [done|]. split; [done|]. by apply NoDup_app. }
    { by rewrite <- app_assoc. }
    { rewrite bind_snoc. eapply cleaned_except_step; [exact Hg|exact Hc1|].
      intros x Hx%computed_keys Hin%computed_items_keys.
      apply (DP x Hin). apply elem_of_app. by left. }
    exists g'. rewrite <- app_assoc in Eloop, Hg'. simpl in Eloop, Hg'.
    split; [|exact Hg'].
    rewrite fmap_cons. simpl. rewrite (bind_eq _ _ _ _ _ Eitem).
    rewrite <- Eloop. f_equal. f_equal. subst R1. simpl.
    rewrite bind_snoc, fmap_app, rev_app_distr, <- app_assoc. done.
Qed.

Lemma reset_summary fi d :
  set_latestMtime (_mtime fi)
    (set_totalFiles 0
       (set_totalSubDirs 0
          (set_totalItems 0
             (set_totalBlocks (_blocks fi) (set_totalSize (_size fi) d)))))
  = withSummary (ownSummary fi) d.
Proof. done. Qed.

Lemma mkWorld_eta w :
  mkWorld (heap w) (errors w) (finalizeLocalSent w) (recalcs w) = w.
Proof. by destruct w. Qed.

Lemma recalc_of_items t : Forall accessSpec (items t) -> recalcSpec t.
Proof.
  intros Hitems w fuel fi d Hr Hnd E Ed Hf.
  pose proof (treeFuel_items t) as Hlen.
  destruct fuel as [|fuel]; [lia|].
  destruct (recalc_loop_spec (heap w) (root t) fi d fuel (errors w) (finalizeLocalSent w)
              (root t :: recalcs w) (items t) Ed [] (ownSummary fi) (heap w))
    as (g' & Eloop & Hg').
  { done. }
  { apply Forall_forall. intros k Hk. by eapply repr_items. }
  { apply Forall_forall. intros k Hk. pose proof (treeFuel_item t k Hk). lia. }
  { destruct t as [a0 kids dot dotKids].
    exact (proj1 (NoDup_addrs_items _ _ _ _ Hnd)). }
  { destruct t as [a0 kids dot dotKids].
    exact (proj2 (NoDup_addrs_items _ _ _ _ Hnd)). }
  { intros x _. simpl. by rewrite lookup_empty. }
  simpl in Eloop, Hg'.
  assert (infoAt (heap w) (root t) = fi) as Hinfo.
  { unfold infoAt. by rewrite E. }
  unfold recalcValue. rewrite Hinfo.
  set (Sf := foldl (fun s k => plusItem s (infoAt (heap w) (root k)) (calc (heap w) k))
                   (ownSummary fi) (items t)) in *.
  exists (<[root t := set_dir (storeSummary Sf d) fi]> g'). split.
  - simpl. unfold bind at 1. unfold enterRecalc.
    set (w1 := mkWorld (heap w) (errors w) (finalizeLocalSent w) (root t :: recalcs w)).
    erewrite bind_eq by (apply deref_eq; exact E).
    rewrite (world_normal w1 (root t) fi E).
    rewrite (bind_eq _ _ _ _ _ (modifyDir_upd _ _ _ _ _ _ Ed)).
    do 5 (erewrite bind_eq by (by apply modifyDir_upd)).
    simpl set_dir. rewrite reset_summary.
    set (X0 := set_dir (withSummary (ownSummary fi) d) fi).
    erewrite bind_eq.
    2:{ apply (FileInfoIterator_repr _ t X0 (withSummary (ownSummary fi) d)).
        - simpl. eapply repr_ext; [|exact Hr]. intros x _.
          destruct (decide (root t = x)) as [<-|Hne].
          + rewrite lookup_insert_eq. rewrite E. simpl. unfold skel. simpl.
            by rewrite Ed.
          + by rewrite lookup_insert_ne.
        - simpl. apply lookup_insert_eq.
        - done.
        - lia. }
    unfold with_heap. simpl heap. simpl errors. simpl finalizeLocalSent. simpl recalcs.
    rewrite (bind_eq _ _ _ _ _ Eloop).
    erewrite modifyDir_eq; [|simpl; apply lookup_insert_eq|done].
    simpl. rewrite insert_insert_eq. f_equal. f_equal. f_equal.
    by rewrite <- app_assoc.
  - intros x. rewrite list_to_map_cons.
    destruct (decide (root t = x)) as [<-|Hne].
    + rewrite !lookup_insert_eq. rewrite E. simpl. unfold storeIn.
      by rewrite Ed.
    + rewrite !lookup_insert_ne by done. apply Hg'. by apply not_eq_sym.
Qed.

Lemma access_of_recalc t : recalcSpec t -> accessSpec t.
Proof.
  intros Hrec w fuel field own proj Hacc Hr Hnd Hf.
  destruct (repr_root _ _ Hr) as [fi E]. pose proof Hacc as [Hfield Hown].
  rewrite calc_unfold, computed_unfold.
  destruct (_dir fi) as [d|] eqn:Ed.
  - destruct (_summaryDirty d) eqn:Hdirty.
    + assert (dirtyAt (heap w) (root t) = true) as ->.
      { unfold dirtyAt. by rewrite E, Ed. }
      destruct (Hrec w fuel fi d Hr Hnd E Ed Hf) as (h' & Erec & Hc).
      exists h'. split; [|exact Hc].
      unfold summaryAccessor. rewrite (bind_eq _ _ _ _ _ (deref_eq _ _ _ E)), Ed, Hdirty.
      rewrite (bind_eq _ _ _ _ _ Erec).
      assert (h' !! root t = Some (storeIn (recalcValue (heap w) t) fi)) as E'.
      { rewrite (Hc (root t)), list_to_map_cons, lookup_insert_eq, E. done. }
      erewrite bind_eq.
      2:{ eapply derefDir_eq; [simpl; exact E'|]. unfold storeIn. rewrite Ed. done. }
      unfold ret. rewrite Hfield.
      assert (cached (storeSummary (recalcValue (heap w) t) d) = recalcValue (heap w) t)
        as -> by (by destruct (recalcValue (heap w) t)).
      done.
    + assert (dirtyAt (heap w) (root t) = false) as ->.
      { unfold dirtyAt. by rewrite E, Ed. }
      exists (heap w). simpl. rewrite mkWorld_eta. split; [|done].
      rewrite (summaryAccessor_clean _ _ _ _ _ _ _ E Ed Hdirty).
      unfold infoAt, reported. rewrite E. simpl. by rewrite Ed, Hfield.
  - assert (dirtyAt (heap w) (root t) = false) as ->.
    { unfold dirtyAt. by rewrite E, Ed. }
    exists (heap w). simpl. rewrite mkWorld_eta. split; [|done].
    rewrite (summaryAccessor_plain _ _ _ _ _ _ E Ed).
    unfold infoAt, reported. rewrite E. simpl. by rewrite Ed, Hown.
Qed.

Lemma accessSpec_all t : accessSpec t.
Proof.
  induction t as [a kids dot dotKids IHk IHd] using Tree_ind'.
  apply access_of_recalc, recalc_of_items. simpl. by apply Forall_app.
Qed.

Lemma recalcSpec_all t : recalcSpec t.
Proof.
  apply recalc_of_items, Forall_forall. intros k _. apply accessSpec_all.
Qed.

(** * The sums over a subtree *)

Lemma Summary_eq s1 s2 :
  sumSize s1 = sumSize s2 -> sumBlocks s1 = sumBlocks s2 ->
  sumItems s1 = sumItems s2 -> sumSubDirs s1 = sumSubDirs s2 ->
  sumFiles s1 = sumFiles s2 -> sumMtime s1 = sumMtime s2 -> s1 = s2.
Proof. destruct s1, s2. simpl. by intros -> -> -> -> -> ->. Qed.

Lemma plusEntry_comm s f g :
  plusEntry (plusEntry s f) g = plusEntry (plusEntry s g) f.
Proof.
  apply Summary_eq; simpl; try (wrap_norm; f_equal; lia).
  - by destruct (isDir f), (isDir g).
  - by destruct (isFile f), (isFile g).
  - lia.
Qed.

Lemma countsInInt_own fi : countsInInt (ownSummary fi).
Proof. unfold countsInInt, INT_MIN, INT_MAX. simpl. lia. Qed.

Lemma countsInInt_plusItem s fk v : countsInInt (plusItem s fk v).
Proof.
  unfold countsInInt. simpl.
  destruct (isDir fk), (isFile fk); split; apply asInt_range.
Qed.

Lemma countsInInt_plusEntry s f : countsInInt s -> countsInInt (plusEntry s f).
Proof.
  intros [H1 H2]. unfold countsInInt. simpl.
  destruct (isDir f), (isFile f); split; first [apply asInt_range | done].
Qed.

Lemma plusItem_own s fk :
  countsInInt s -> plusItem s fk (ownSummary fk) = plusEntry s fk.
Proof.
  intros [H1 H2].
  apply Summary_eq; simpl; unfold size, blocks, mtime; try reflexivity.
  - destruct (isDir fk); rewrite Z.add_0_r; [by wrap_norm|by apply asInt_id].
  - destruct (isFile fk); rewrite Z.add_0_r; [by wrap_norm|by apply asInt_id].
Qed.

Lemma plusItem_plusEntry s fk v e :
  plusItem s fk (plusEntry v e) = plusEntry (plusItem s fk v) e.
Proof.
  apply Summary_eq; simpl; try (wrap_norm; f_equal; lia).
  - destruct (isDir fk), (isDir e); wrap_norm; f_equal; lia.
  - destruct (isFile fk), (isFile e); wrap_norm; f_equal; lia.
  - lia.
Qed.

Lemma foldr_plusEntry_shift (h : gmap addr FileInfo) s f l :
  foldr (fun e s => plusEntry s (infoAt h e)) (plusEntry s f) l
  = plusEntry (foldr (fun e s => plusEntry s (infoAt h e)) s l) f.
Proof.
  induction l as [|e l IH]; [done|]. simpl. rewrite IH. apply plusEntry_comm.
Qed.

Lemma foldr_plusEntry_app (h : gmap addr FileInfo) s l1 l2 :
  foldr (fun e s => plusEntry s (infoAt h e)) s (l1 ++ l2)
  = foldr (fun e s => plusEntry s (infoAt h e))
          (foldr (fun e s => plusEntry s (infoAt h e)) s l1) l2.
Proof.
  revert s. induction l1 as [|e l1 IH]; intros s; [done|]. simpl.
  rewrite IH. by rewrite foldr_plusEntry_shift.
Qed.

Lemma plusItem_entries (h : gmap addr FileInfo) s k :
  countsInInt s ->
  plusItem s (infoAt h (root k)) (trueSummary h k)
  = foldr (fun e s => plusEntry s (infoAt h e)) s (root k :: entries k).
Proof.
  intros Hs. unfold trueSummary. simpl. rewrite <- foldr_plusEntry_shift.
  induction (entries k) as [|e l IH]; simpl.
  - by apply plusItem_own.
  - rewrite plusItem_plusEntry, IH. by rewrite foldr_plusEntry_shift.
Qed.

Lemma foldl_items_entries (h : gmap addr FileInfo) ks : forall s,
  countsInInt s ->
  foldl (fun s k => plusItem s (infoAt h (root k)) (trueSummary h k)) s ks
  = foldr (fun e s => plusEntry s (infoAt h e)) s
          (ks ≫= fun k => root k :: entries k).
Proof.
  induction ks as [|k ks IH]; intros s Hs; [done|].
  rewrite bind_cons, foldr_plusEntry_app. simpl foldl.
  rewrite IH by apply countsInInt_plusItem.
  by rewrite plusItem_entries.
Qed.

(** The sum over a subtree, item by item. *)
Lemma trueSummary_items (h : gmap addr FileInfo) t :
  trueSummary h t
  = foldl (fun s k => plusItem s (infoAt h (root k)) (trueSummary h k))
          (ownSummary (infoAt h (root t))) (items t).
Proof.
  rewrite foldl_items_entries by apply countsInInt_own.
  destruct t as [a kids dot dotKids].
  unfold trueSummary. simpl. by rewrite bind_app.
Qed.

Lemma subtrees_self t : t ∈ subtrees t.
Proof. destruct t. simpl. apply list_elem_of_here. Qed.

Lemma subtrees_item t k s : k ∈ items t -> s ∈ subtrees k -> s ∈ subtrees t.
Proof.
  destruct t as [a kids dot dotKids]. simpl. intros Hk Hs.
  apply list_elem_of_further. rewrite <- bind_app.
  apply list_elem_of_bind. eauto.
Qed.

Lemma subtrees_root_addrs t s : s ∈ subtrees t -> root s ∈ addrs t.
Proof.
  revert s. induction t as [a kids dot dotKids IHk IHd] using Tree_ind'. intros s.
  simpl. intros [->|Hs]%elem_of_cons; [apply list_elem_of_here|].
  rewrite Forall_forall in IHk, IHd.
  apply elem_of_app in Hs as [Hs|Hs];
    apply list_elem_of_bind in Hs as (k & Hs & Hk).
  - eapply addrs_kid; eauto.
  - eapply addrs_dotKid; eauto.
Qed.

(** When the clean nodes of a subtree cache the sums of their subtrees,
    the accessors return the sum over the subtree. *)
Lemma calc_ok (h : gmap addr FileInfo) t :
  repr h t -> (forall s, s ∈ subtrees t -> summary_ok h s) ->
  calc h t = trueSummary h t.
Proof.
  induction t as [a kids dot dotKids IHk IHd] using Tree_ind'. intros Hr Hok.
  rewrite calc_unfold. destruct (dirtyAt h (root (Node a kids dot dotKids))) eqn:Hd.
  - unfold recalcValue. rewrite trueSummary_items. apply foldl_ext_in.
    intros s k Hk. f_equal.
    assert (forall k, k ∈ kids ++ dotKids -> calc h k = trueSummary h k) as IH.
    { rewrite Forall_forall in IHk, IHd.
      intros k' Hk'. pose proof (repr_items _ _ k' Hr Hk') as Hrk.
      assert (forall s, s ∈ subtrees k' -> summary_ok h s) as Hokk.
      { intros s' Hs'. apply Hok. by eapply subtrees_item. }
      apply elem_of_app in Hk' as [?|?]; [by apply IHk | by apply IHd]. }
    by apply IH.
  - simpl in Hd. unfold infoAt. simpl.
    inversion Hr as [a' fi E1 E2 | a' fi d kids' dotKids' E1 E2 Hl Hk Hdot Hdk]; subst.
    + rewrite E1. simpl. unfold reported, trueSummary, infoAt. simpl.
      by rewrite E1, E2.
    + rewrite E1. simpl. unfold reported. rewrite E2.
      apply (Hok _ (subtrees_self _) fi d E1 E2).
      unfold dirtyAt in Hd. by rewrite E1, E2 in Hd.
Qed.

Lemma recalcValue_ok (h : gmap addr FileInfo) t :
  repr h t ->
  (forall k s, k ∈ items t -> s ∈ subtrees k -> summary_ok h s) ->
  recalcValue h t = trueSummary h t.
Proof.
  intros Hr Hok. unfold recalcValue. rewrite trueSummary_items.
  apply foldl_ext_in. intros s k Hk. f_equal. apply calc_ok.
  - by eapply repr_items.
  - intros s' Hs'. by eapply Hok.
Qed.

Lemma NoDup_bind_unique {A B} (f : A -> list B) (l : list A) k k' x :
  NoDup (l ≫= f) -> k ∈ l -> k' ∈ l -> x ∈ f k -> x ∈ f k' -> k = k'.
Proof.
  induction l as [|k0 l IH]; [by intros _ ?%elem_of_nil|].
  intros (N0 & Nl & D)%NoDup_bind_cons Hk Hk' Hx Hx'.
  apply elem_of_cons in Hk as [->|Hk]; apply elem_of_cons in Hk' as [->|Hk'].
  - done.
  - exfalso. apply (D x Hx). apply list_elem_of_bind. eauto.
  - exfalso. apply (D x Hx'). apply list_elem_of_bind. eauto.
  - by apply IH.
Qed.

(** Each summary computed for a node of the subtree is the sum over the
    subtree of this node. *)
Lemma computed_sound (h : gmap addr FileInfo) t :
  repr h t -> NoDup (addrs t) ->
  (forall k s, k ∈ items t -> s ∈ subtrees k -> summary_ok h s) ->
  forall s x S, s ∈ subtrees t -> root s = x -> (x, S) ∈ computed h t ->
    S = trueSummary h s.
Proof.
  induction t as [a kids dot dotKids IHk IHd] using Tree_ind'.
  intros Hr Hnd Hok s x S Hs Hx Hin.
  destruct (NoDup_addrs_items _ _ _ _ Hnd) as [Nit Ha].
  assert (forall k, k ∈ kids ++ dotKids ->
    forall s x S, s ∈ subtrees k -> root s = x -> (x, S) ∈ computed h k ->
      S = trueSummary h s) as IH.
  { rewrite Forall_forall in IHk, IHd. intros k Hk.
    pose proof (repr_items _ (Node a kids dot dotKids) k Hr Hk) as Hrk.
    assert (NoDup (addrs k)) as Nk.
    { clear -Nit Hk. induction (kids ++ dotKids) as [|k0 l IHl];
        [by apply elem_of_nil in Hk|].
      apply NoDup_bind_cons in Nit as (N0 & Nl & _).
      apply elem_of_cons in Hk as [->|Hk]; auto. }
    assert (forall k' s', k' ∈ items k -> s' ∈ subtrees k' -> summary_ok h s') as Hokk.
    { intros k' s' Hk' Hs'. apply (Hok k s' Hk). by eapply subtrees_item. }
    apply elem_of_app in Hk as [?|?]; [by apply IHk | by apply IHd]. }
  rewrite computed_unfold in Hin.
  destruct (dirtyAt h (root (Node a kids dot dotKids))); [|by apply elem_of_nil in Hin].
  simpl root in Hin. simpl items in Hin.
  simpl in Hs. apply elem_of_cons in Hs as [->|Hs].
  - simpl in Hx. subst x. apply elem_of_cons in Hin as [[= ->]|Hin].
    + by apply recalcValue_ok.
    + exfalso. apply Ha. apply (computed_items_keys h).
      apply list_elem_of_fmap. by exists (a, S).
  - rewrite <- bind_app in Hs. apply list_elem_of_bind in Hs as (k & Hs & Hk).
    pose proof (subtrees_root_addrs k s Hs) as Hroot. rewrite Hx in Hroot.
    apply elem_of_cons in Hin as [[= -> ->]|Hin].
    + exfalso. apply Ha. apply list_elem_of_bind. eauto.
    + apply list_elem_of_bind in Hin as (k' & Hin & Hk').
      assert (x ∈ addrs k') as Hx'.
      { apply (computed_keys h). apply list_elem_of_fmap. by exists (x, S). }
      assert (k = k') as <- by (by eapply (NoDup_bind_unique addrs)).
      by eapply (IH k).
Qed.

Lemma recalculated_sound (h : gmap addr FileInfo) t :
  repr h t -> NoDup (addrs t) ->
  (forall k s, k ∈ items t -> s ∈ subtrees k -> summary_ok h s) ->
  forall s x S, s ∈ subtrees t -> root s = x -> (x, S) ∈ recalculated h t ->
    S = trueSummary h s.
Proof.
  intros Hr Hnd Hok s x S Hs Hx Hin. destruct t as [a kids dot dotKids].
  destruct (NoDup_addrs_items _ _ _ _ Hnd) as [Nit Ha].
  unfold recalculated in Hin. simpl root in Hin. simpl items in Hin.
  simpl in Hs. apply elem_of_cons in Hs as [->|Hs].
  - simpl in Hx. subst x. apply elem_of_cons in Hin as [[= ->]|Hin].
    + by apply recalcValue_ok.
    + exfalso. apply Ha. apply (computed_items_keys h).
      apply list_elem_of_fmap. by exists (a, S).
  - rewrite <- bind_app in Hs. apply list_elem_of_bind in Hs as (k & Hs & Hk).
    pose proof (subtrees_root_addrs k s Hs) as Hroot. rewrite Hx in Hroot.
    apply elem_of_cons in Hin as [[= -> ->]|Hin].
    + exfalso. apply Ha. apply list_elem_of_bind. eauto.
    + apply list_elem_of_bind in Hin as (k' & Hin & Hk').
      assert (x ∈ addrs k') as Hx'.
      { apply (computed_keys h). apply list_elem_of_fmap. by exists (x, S). }
      assert (k = k') as <- by (by eapply (NoDup_bind_unique addrs)).
      pose proof (repr_items _ (Node a kids dot dotKids) k Hr Hk) as Hrk.
      assert (NoDup (addrs k)) as Nk.
      { clear -Nit Hk. induction (kids ++ dotKids) as [|k0 l IHl];
          [by apply elem_of_nil in Hk|].
        apply NoDup_bind_cons in Nit as (N0 & Nl & _).
        apply elem_of_cons in Hk as [->|Hk]; auto. }
      eapply (computed_sound h k Hrk Nk); eauto.
      intros k' s' Hk'' Hs'. apply (Hok k s' Hk). by eapply subtrees_item.
Qed.

(** Storing summaries changes no sum over a subtree. *)
Lemma infoAt_cleaned_by L (h h' : gmap addr FileInfo) x :
  cleaned_by L h h' ->
  infoAt h' x = infoAt h x \/ exists s, infoAt h' x = storeIn s (infoAt h x).
Proof.
  intros Hc. unfold infoAt. rewrite (Hc x).
  destruct (list_to_map L !! x) as [s|]; [|by left].
  destruct (h !! x) as [fi|]; simpl; [right; by exists s | by left].
Qed.

Lemma plusEntry_storeIn s' s fi : plusEntry s' (storeIn s fi) = plusEntry s' fi.
Proof. unfold storeIn. by destruct (_dir fi). Qed.

Lemma ownSummary_storeIn s fi : ownSummary (storeIn s fi) = ownSummary fi.
Proof. unfold storeIn. by destruct (_dir fi). Qed.

Lemma trueSummary_cleaned_by L (h h' : gmap addr FileInfo) t :
  cleaned_by L h h' -> trueSummary h' t = trueSummary h t.
Proof.
  intros Hc. unfold trueSummary.
  assert (ownSummary (infoAt h' (root t)) = ownSummary (infoAt h (root t))) as ->.
  { destruct (infoAt_cleaned_by L h h' (root t) Hc) as [->|[s ->]]; [done|].
    apply ownSummary_storeIn. }
  induction (entries t) as [|e l IH]; [done|]. simpl. rewrite IH.
  destruct (infoAt_cleaned_by L h h' e Hc) as [->|[s ->]]; [done|].
  apply plusEntry_storeIn.
Qed.

Lemma recalculated_keys (h : gmap addr FileInfo) t x :
  x ∈ (recalculated h t).*1 -> x ∈ addrs t.
Proof.
  unfold recalculated. rewrite fmap_cons. simpl.
  intros [->|Hx]%elem_of_cons; [apply root_in_addrs|].
  apply computed_items_keys in Hx. apply list_elem_of_bind in Hx as (k & Hx & Hk).
  by eapply addrs_item.
Qed.

Lemma recalculated_NoDup (h : gmap addr FileInfo) t :
  NoDup (addrs t) -> NoDup (recalculated h t).*1.
Proof.
  intros Hnd. destruct t as [a kids dot dotKids].
  destruct (NoDup_addrs_items _ _ _ _ Hnd) as [Hit Ha].
  unfold recalculated. rewrite fmap_cons. simpl. apply NoDup_cons. split.
  - intros Hin. apply Ha. by apply (computed_items_keys h).
  - apply (NoDup_sub_bind (computed h) addrs fst); [| |done].
    + intros k Hk _. apply computed_NoDup.
      clear -Hit Hk. induction (kids ++ dotKids) as [|k0 l IHl];
        [by apply elem_of_nil in Hk|].
      apply NoDup_bind_cons in Hit as (N0 & Nl & _).
      apply elem_of_cons in Hk as [->|Hk]; auto.
    + intros k x _. apply computed_keys.
Qed.

(** [recalc()] on the root of a subtree [t] whose clean
    nodes below the root cache the sums of their subtrees.  The call
    returns; afterwards the root is not dirty and its summary members are
    the sum over the entire subtree (every entry below it, the children of
    dot entries included, counted by its own values; no dot entry is an
    entry); the store still holds the subtree, and every node of the
    subtree that is not dirty caches the sum over its own subtree. *)
Theorem recalc_sums_subtree w t fi d fuel :
  repr (heap w) t -> NoDup (addrs t) ->
  heap w !! root t = Some fi -> _dir fi = Some d ->
  (treeFuel t <= fuel)%nat ->
  (forall k s, k ∈ items t -> s ∈ subtrees k -> summary_ok (heap w) s) ->
  exists w',
    recalc fuel (root t) w = Some (tt, w') /\
    (exists fi' d', heap w' !! root t = Some fi' /\ _dir fi' = Some d' /\
       _summaryDirty d' = false /\ cached d' = trueSummary (heap w') t) /\
    trueSummary (heap w') t = trueSummary (heap w) t /\
    repr (heap w') t /\
    (forall s, s ∈ subtrees t -> summary_ok (heap w') s).
Proof.
  intros Hr Hnd E Ed Hf Hok.
  destruct (recalcSpec_all t w fuel fi d Hr Hnd E Ed Hf) as (h' & Erec & Hc).
  fold (recalculated (heap w) t) in Hc.
  eexists. split; [exact Erec|]. simpl.
  pose proof (trueSummary_cleaned_by _ _ _ t Hc) as Htrue.
  assert (forall s, s ∈ subtrees t -> summary_ok h' s) as Hall.
  { intros s Hs fs ds Es Eds Hclean.
    rewrite (trueSummary_cleaned_by _ _ _ s Hc).
    rewrite (Hc (root s)) in Es.
    destruct (list_to_map (recalculated (heap w) t) !! root s) as [S|] eqn:EL.
    - apply elem_of_list_to_map_2 in EL.
      rewrite <- (recalculated_sound (heap w) t Hr Hnd Hok s (root s) S Hs eq_refl EL).
      destruct (heap w !! root s) as [f0|]; [|done]. simpl in Es.
      injection Es as <-. unfold storeIn in Eds.
      destruct (_dir f0) as [d0|] eqn:Ed0; simpl in Eds; [|congruence].
      injection Eds as <-. by destruct S.
    - assert (s <> t) as Hne.
      { intros ->. unfold recalculated in EL.
        rewrite list_to_map_cons, lookup_insert_eq in EL. done. }
      destruct t as [a kids dot dotKids]. simpl in Hs.
      apply elem_of_cons in Hs as [?|Hs]; [done|].
      rewrite <- bind_app in Hs. apply list_elem_of_bind in Hs as (k & Hs & Hk).
      by apply (Hok k s Hk Hs fs ds). }
  split; [|split; [exact Htrue|split; [by eapply repr_cleaned_by|exact Hall]]].
  assert (h' !! root t = Some (storeIn (recalcValue (heap w) t) fi)) as E'.
  { rewrite (Hc (root t)). unfold recalculated.
    by rewrite list_to_map_cons, lookup_insert_eq, E. }
  exists (storeIn (recalcValue (heap w) t) fi),
         (storeSummary (recalcValue (heap w) t) d).
  split; [exact E'|]. unfold storeIn. rewrite Ed. split; [done|]. split; [done|].
  apply (Hall t (subtrees_self t) _ _ E'); [by unfold storeIn; rewrite Ed|done].
Qed.

(** * Concrete subtrees *)

Lemma repr_node (h : gmap addr FileInfo) a fi d kids dot dotKids :
  h !! a = Some fi -> _dir fi = Some d -> _dotEntry d = dot ->
  lseg h (_firstChild d) (root <$> kids) None ->
  Forall (repr h) kids ->
  match dot with
  | None => dotKids = []
  | Some dot =>
      exists dfi dd, h !! dot = Some dfi /\ _dir dfi = Some dd /\
                     lseg h (_firstChild dd) (root <$> dotKids) None
  end ->
  Forall (repr h) dotKids ->
  repr h (Node a kids dot dotKids).
Proof. intros E Ed <-. by eapply repr_dir. Qed.

Ltac solve_links := vm_compute; repeat (first [reflexivity | split | eexists]).

Ltac solve_repr :=
  first
    [ eapply repr_plain; [vm_compute; reflexivity | reflexivity]
    | eapply repr_node;
        [ vm_compute; reflexivity | reflexivity | reflexivity
        | solve_links
        | repeat (apply Forall_cons_2; [solve_repr|]); apply Forall_nil_2
        | solve_links
        | repeat (apply Forall_cons_2; [solve_repr|]); apply Forall_nil_2 ] ].

Ltac solve_NoDup :=
  vm_compute;
  repeat (apply NoDup_cons_2;
          [ let H := fresh in
            intros H;
            repeat (apply elem_of_cons in H as [H|H]; [discriminate H|]);
            apply elem_of_nil in H; destruct H | ]);
  apply NoDup_nil_2.

(** A directory that already holds entries can be
    inserted, and [childAdded()] adds only its own values.  In
    [nestedDirWorld], [recalc()] on the root returns and leaves the root
    not dirty with [_totalItems = 2] and [_totalFiles = 0], while three
    entries, one of them a file, are below the root; [D] is not dirty
    either and caches one item, with two entries below it. *)
Lemma recalc_trusts_clean_children :
  exists w,
    recalc 4 1 nestedDirWorld = Some (tt, w) /\
    repr (heap w) nestedDirTree /\
    entries nestedDirTree = [4; 7; 6]%positive /\
    (exists fi d, heap w !! 1%positive = Some fi /\ _dir fi = Some d /\
       _summaryDirty d = false /\
       sumItems (cached d) = 2 /\ sumFiles (cached d) = 0 /\
       sumSize (cached d) = 0) /\
    sumItems (trueSummary (heap w) nestedDirTree) = 3 /\
    sumFiles (trueSummary (heap w) nestedDirTree) = 1 /\
    sumSize (trueSummary (heap w) nestedDirTree) = 50.
Proof.
  eexists. split; [vm_compute; reflexivity|].
  split; [solve_repr|]. split; [reflexivity|].
  split; [|vm_compute; repeat split].
  eexists _, _. split; [vm_compute; reflexivity|].
  split; [reflexivity|]. vm_compute. repeat split.
Qed.

(** In the scenario with [F1] deleted the root is dirty and [D] caches the
    sums of its subtree; [recalc()] on the root stores size 50, two items,
    one subdirectory, one file, and the latest mtime 20. *)
Lemma recalc_sums_subtree_witness :
  exists w',
    recalc 4 1 (scenarioDeleted 10 20) = Some (tt, w') /\
    exists fi' d', heap w' !! 1%positive = Some fi' /\ _dir fi' = Some d' /\
      _summaryDirty d' = false /\
      cached d' = trueSummary (heap w') scenarioDeletedTree /\
      trueSummary (heap w') scenarioDeletedTree = mkSummary 50 1 2 1 1 20.
Proof.
  edestruct (recalc_sums_subtree (scenarioDeleted 10 20) scenarioDeletedTree)
    with (fuel := 4%nat) as (w' & E & (fi' & d' & E' & Ed' & Hc & Hs) & Ht & _).
  - solve_repr.
  - solve_NoDup.
  - vm_compute. reflexivity.
  - reflexivity.
  - vm_compute. lia.
  - intros k s Hk Hs fi d Es Ed Hclean.
    apply elem_of_cons in Hk as [->|Hk]; [|apply elem_of_nil in Hk; destruct Hk].
    apply elem_of_cons in Hs as [->|Hs].
    + vm_compute in Es. injection Es as <-. injection Ed as <-.
      vm_compute. reflexivity.
    + apply elem_of_cons in Hs as [->|Hs]; [|apply elem_of_nil in Hs; destruct Hs].
      vm_compute in Es. injection Es as <-. discriminate Ed.
  - exists w'. split; [exact E|]. exists fi', d'.
    split; [exact E'|]. split; [exact Ed'|]. split; [exact Hc|].
    split; [exact Hs|]. rewrite Ht. vm_compute. reflexivity.
Defined.

(** * Deleting a child *)

(** On a chain that does not hold the parent of [c], [deletingChild()]
    only marks the nodes dirty. *)
Lemma deletingChild_above w this l c dc fuel :
  up_chain (heap w) this l -> (length l < fuel)%nat ->
  heap w !! c = Some dc -> c ∉ this :: l ->
  (forall a, a ∈ this :: l -> parent dc <> Some a) ->
  exists h',
    deletingChild fuel this c w = Some (tt, with_heap h' w) /\
    (forall a, a ∈ this :: l ->
       exists fi d, heap w !! a = Some fi /\ _dir fi = Some d /\
                    h' !! a = Some (set_dir (set_summaryDirty true d) fi)) /\
    (forall a, a ∉ this :: l -> h' !! a = heap w !! a).
Proof.
  revert w this fuel. induction l as [|p l IH]; intros w this fuel Hc Hf Hdc Hnot Hpar;
    (destruct fuel as [|fuel]; [simpl in Hf; lia|]);
    pose proof (up_chain_head _ _ _ Hc) as (fi & d & H1 & H2 & H3); simpl in H3;
    assert (c <> this) as Hne by (intros ->; apply Hnot, list_elem_of_here);
    assert (parent dc <> Some this) as Hp by (apply Hpar, list_elem_of_here);
    simpl;
    rewrite (bind_eq _ _ _ _ _ (modifyDir_eq _ _ (set_summaryDirty true) _ _ H1 H2));
    (erewrite bind_eq by (apply deref_eq; simpl; apply lookup_insert_eq));
    simpl; rewrite H3.
  - unfold bind at 1. simpl.
    erewrite bind_eq
      by (eapply derefDir_eq; [simpl; apply lookup_insert_eq|reflexivity]).
    erewrite bind_eq
      by (apply deref_eq; simpl; rewrite lookup_insert_ne by done; exact Hdc).
    rewrite (bool_decide_eq_false_2 _ Hp), andb_false_r.
    eexists. split; [reflexivity|]. split.
    + intros a ->%list_elem_of_singleton. exists fi, d.
      by rewrite lookup_insert_eq.
    + intros a Ha. rewrite lookup_insert_ne; [done|].
      intros ->. apply Ha, list_elem_of_here.
  - pose proof (up_chain_not_self _ _ _ Hc) as Hself.
    set (w1 := with_heap (<[this := set_dir (set_summaryDirty true d) fi]> (heap w)) w).
    destruct (IH w1 p fuel) as (h' & E & In & Out).
    { simpl. apply up_chain_set_dir; eauto. by eapply up_chain_tail. }
    { simpl in Hf. lia. }
    { simpl. by rewrite lookup_insert_ne. }
    { intros Hin. apply Hnot. by apply list_elem_of_further. }
    { intros a Ha. apply Hpar. by apply list_elem_of_further. }
    rewrite (bind_eq _ _ _ _ _ E).
    assert (h' !! this = Some (set_dir (set_summaryDirty true d) fi)) as Ethis.
    { rewrite Out by done. simpl. apply lookup_insert_eq. }
    assert (h' !! c = Some dc) as Ec.
    { rewrite Out by (intros Hin; apply Hnot; by apply list_elem_of_further).
      simpl. by rewrite lookup_insert_ne. }
    erewrite bind_eq by (eapply derefDir_eq; [exact Ethis|reflexivity]).
    erewrite bind_eq by (apply deref_eq; exact Ec).
    rewrite (bool_decide_eq_false_2 _ Hp), andb_false_r.
    exists h'. split; [reflexivity|]. split.
    + intros a [->|Ha]%elem_of_cons.
      * exists fi, d. eauto.
      * destruct (In a Ha) as (fa & da & E1 & E2 & E3).
        assert (a <> this) by (intros ->; done).
        simpl in E1. rewrite lookup_insert_ne in E1 by done. eauto.
    + intros a Ha. rewrite Out.
      * simpl. apply lookup_insert_ne. intros ->. apply Ha, list_elem_of_here.
      * intros Hin. apply Ha. by apply list_elem_of_further.
Qed.

(** A child is not among the ancestors of its parent. *)
Lemma child_not_on_chain (h : gmap addr FileInfo) n l c dc :
  up_chain h n l -> h !! c = Some dc -> parent dc = Some n -> c ∉ n :: l.
Proof.
  intros Hc Hdc Hp [->|Hin]%elem_of_cons.
  - apply up_chain_head in Hc as Hh. destruct Hh as (fi & d & E & _ & Eh).
    assert (fi = dc) as -> by congruence. unfold parent in Hp.
    rewrite Hp in Eh. destruct l as [|p l]; [done|]. simpl in Eh.
    injection Eh as <-. apply (up_chain_not_self _ _ _ Hc), list_elem_of_here.
  - destruct (up_chain_suffix _ _ _ _ Hc Hin) as (l1 & l2 & -> & H2).
    apply up_chain_head in H2 as (fi & d & E & _ & Eh).
    assert (fi = dc) as -> by congruence. unfold parent in Hp.
    rewrite Hp in Eh. destruct l2 as [|p l2]; [done|]. simpl in Eh.
    injection Eh as <-. apply (up_chain_not_self _ _ _ Hc).
    apply elem_of_app. right. apply list_elem_of_further, list_elem_of_here.
Qed.

Lemma summaryDirty_lookup w a fi d :
  heap w !! a = Some fi -> _dir fi = Some d ->
  summaryDirty w a = Some (_summaryDirty d).
Proof. intros E Ed. unfold summaryDirty. by rewrite (dirOf_eq _ _ _ _ E Ed). Qed.

(** [deletingChild(c)] on the parent [n] of [c]: the call returns, [n]
    and its ancestors [l] are dirty afterwards, [recalc()] was not
    entered, and [c] is out of the children list of [n] unless [n] is
    being destroyed. *)
Lemma deletingChild_spec w n l c dc l1 l2 fuel :
  up_chain (heap w) n l -> heap w !! c = Some dc -> parent dc = Some n ->
  children (heap w) n (l1 ++ c :: l2) ->
  (length l < fuel)%nat -> (length l1 < fuel)%nat ->
  exists h',
    deletingChild fuel n c w = Some (tt, with_heap h' w) /\
    (forall a, a ∈ n :: l -> summaryDirty (with_heap h' w) a = Some true) /\
    ((_beingDestroyed <$> dirOf w n) = Some false -> children h' n (l1 ++ l2)) /\
    ((_beingDestroyed <$> dirOf w n) = Some true -> children h' n (l1 ++ c :: l2)) /\
    (forall a, a ∉ n :: l -> a ∉ l1 -> h' !! a = heap w !! a).
Proof.
  intros Hc Hdc Hp Hch Hf Hf1.
  pose proof (child_not_on_chain _ _ _ _ _ Hc Hdc Hp) as Hnot.
  pose proof (up_chain_not_self _ _ _ Hc) as Hself.
  destruct fuel as [|fuel]; [lia|].
  pose proof (up_chain_head _ _ _ Hc) as (fi & d & H1 & H2 & H3).
  assert (c <> n) as Hne by (intros ->; apply Hnot, list_elem_of_here).
  simpl.
  rewrite (bind_eq _ _ _ _ _ (modifyDir_eq _ _ (set_summaryDirty true) _ _ H1 H2)).
  erewrite bind_eq by (apply deref_eq; simpl; apply lookup_insert_eq).
  simpl. rewrite H3.
  set (d1 := set_summaryDirty true d).
  set (w1 := with_heap (<[n := set_dir d1 fi]> (heap w)) w).
  assert (exists h2,
    match head l with
    | Some p => deletingChild fuel p c
    | None => ret tt
    end w1 = Some (tt, with_heap h2 w1) /\
    (forall a, a ∈ l ->
       exists fa da, heap w !! a = Some fa /\ _dir fa = Some da /\
                     h2 !! a = Some (set_dir (set_summaryDirty true da) fa)) /\
    (forall a, a ∉ l -> h2 !! a = heap w1 !! a)) as (h2 & E2 & In2 & Out2).
  { destruct l as [|p l']; simpl.
    - exists (heap w1). split; [done|]. split; [|done].
      intros a Ha. by apply elem_of_nil in Ha.
    - destruct (deletingChild_above w1 p l' c dc fuel) as (h2 & E & In & Out).
      + simpl. apply up_chain_set_dir; eauto. by eapply up_chain_tail.
      + simpl in Hf. lia.
      + simpl. by rewrite lookup_insert_ne.
      + intros Hin. apply Hnot. by apply list_elem_of_further.
      + intros a Ha. unfold parent in *. rewrite Hp. intros [= <-]. done.
      + exists h2. split; [exact E|]. split; [|exact Out].
        intros a Ha. destruct (In a Ha) as (fa & da & E1 & E2 & E3).
        assert (a <> n) by (intros ->; done).
        simpl in E1. rewrite lookup_insert_ne in E1 by done. eauto. }
  rewrite (bind_eq _ _ _ _ _ E2).
  assert (h2 !! n = Some (set_dir d1 fi)) as En.
  { rewrite Out2 by done. simpl. apply lookup_insert_eq. }
  assert (h2 !! c = Some dc) as Ec.
  { rewrite Out2 by (intros Hin; apply Hnot; by apply list_elem_of_further).
    simpl. by rewrite lookup_insert_ne. }
  erewrite bind_eq by (eapply derefDir_eq; [exact En|reflexivity]).
  erewrite bind_eq by (apply deref_eq; exact Ec).
  rewrite (bool_decide_eq_true_2 _ Hp), andb_true_r.
  assert (forall a, a ∈ n :: l ->
            exists fa da, h2 !! a = Some fa /\ _dir fa = Some da /\
                          _summaryDirty da = true) as Hdirty.
  { intros a [->|Ha]%elem_of_cons.
    - exists (set_dir d1 fi), d1. split; [done|]. split; [done|].
      subst d1. by destruct d.
    - destruct (In2 a Ha) as (fa & da & _ & _ & E3).
      eexists _, _. split; [exact E3|]. split; [done|]. by destruct da. }
  assert (_beingDestroyed d1 = _beingDestroyed d) as -> by (subst d1; by destruct d).
  assert (children h2 n (l1 ++ c :: l2)) as Hch2.
  { destruct Hch as (fi0 & d0 & E0 & Ed0 & Hl).
    assert (fi0 = fi) as -> by congruence.
    assert (d0 = d) as -> by congruence.
    exists (set_dir d1 fi), d1. split; [done|]. split; [done|].
    assert (_firstChild d1 = _firstChild d) as -> by (subst d1; by destruct d).
    eapply lseg_ext; [|exact Hl]. intros a fa _ Ea.
    destruct (decide (a ∈ l)) as [Hin|Hout].
    - destruct (In2 a Hin) as (fa' & da & E1 & _ & E3).
      assert (fa' = fa) as -> by congruence. eexists. split; [exact E3|done].
    - rewrite Out2 by done. simpl. destruct (decide (a = n)) as [->|Han].
      + rewrite lookup_insert_eq. assert (fa = fi) as -> by congruence.
        eexists. split; [done|done].
      + rewrite lookup_insert_ne by done. eauto. }
  assert (forall a, a ∉ n :: l -> h2 !! a = heap w !! a) as Hframe.
  { intros a Ha. rewrite Out2.
    - simpl. apply lookup_insert_ne. intros ->. apply Ha, list_elem_of_here.
    - intros Hin. apply Ha. by apply list_elem_of_further. }
  assert (dirOf w n = Some d) as Edir by (by eapply dirOf_eq).
  destruct (_beingDestroyed d) eqn:Ebd; simpl.
  - exists h2. split; [done|]. split; [|split; [|split]].
    + intros a Ha. destruct (Hdirty a Ha) as (fa & da & E1 & E3 & E4).
      rewrite <- E4. by eapply summaryDirty_lookup.
    + rewrite Edir. simpl. rewrite Ebd. done.
    + intros _. exact Hch2.
    + intros a Ha _. by apply Hframe.
  - destruct (unlinkChild_in_list (with_heap h2 w1) n c dc l1 l2 fuel)
      as (h3 & E3 & Hch3 & Hh3); [exact Ec|exact Hp|exact Hch2|lia|].
    exists h3. split; [exact E3|]. split; [|split; [intros _; exact Hch3|split]].
    2:{ rewrite Edir. simpl. rewrite Ebd. done. }
    2:{ intros a Ha Hl1.
        destruct Hh3 as [(_ & fn & dn & En' & Edn' & ->)
                        |(l0 & pred & pfi & -> & Epred & ->)]; simpl in *.
        - rewrite lookup_insert_ne; [by apply Hframe|].
          intros ->. apply Ha, list_elem_of_here.
        - rewrite lookup_insert_ne; [by apply Hframe|].
          intros ->. apply Hl1. apply elem_of_app. right. apply list_elem_of_here. }
    intros a Ha. destruct (Hdirty a Ha) as (fa & da & E1 & Ed & E4).
    destruct Hh3 as [(_ & fn & dn & En' & Edn & ->)
                    |(l0 & pred & pfi & _ & Epred & ->)]; simpl in *.
    + destruct (decide (a = n)) as [->|Han].
      * assert (fa = fn) as -> by congruence.
        assert (da = dn) as -> by congruence.
        rewrite <- E4.
        erewrite summaryDirty_lookup;
          [|simpl; apply lookup_insert_eq|reflexivity]. by destruct dn.
      * rewrite <- E4. eapply summaryDirty_lookup; [|exact Ed].
        simpl. by rewrite lookup_insert_ne.
    + destruct (decide (a = pred)) as [->|Hap].
      * assert (fa = pfi) as -> by congruence.
        rewrite <- E4.
        erewrite summaryDirty_lookup;
          [reflexivity|simpl; apply lookup_insert_eq|exact Ed].
      * rewrite <- E4. eapply summaryDirty_lookup; [|exact Ed].
        simpl. by rewrite lookup_insert_ne.
Qed.

(** * Which nodes an accessor recalculates *)

Lemma accessor_spec f t w fuel :
  repr (heap w) t -> NoDup (addrs t) -> (treeFuel t <= fuel)%nat ->
  exists h',
    accessor f fuel (root t) w
    = Some (component f (calc (heap w) t),
            mkWorld h' (errors w) (finalizeLocalSent w)
                    (rev (computed (heap w) t).*1 ++ recalcs w)) /\
    cleaned_by (computed (heap w) t) (heap w) h'.
Proof.
  intros Hr Hnd Hf. destruct f; simpl;
    [ apply (accessSpec_all t w fuel _ _ _ accessorOf_size)
    | apply (accessSpec_all t w fuel _ _ _ accessorOf_blocks)
    | apply (accessSpec_all t w fuel _ _ _ accessorOf_items)
    | apply (accessSpec_all t w fuel _ _ _ accessorOf_subDirs)
    | apply (accessSpec_all t w fuel _ _ _ accessorOf_files)
    | apply (accessSpec_all t w fuel _ _ _ accessorOf_mtime) ]; done.
Qed.

Lemma computed_visited (h : gmap addr FileInfo) t :
  (computed h t).*1 = filter (fun a => dirtyAt h a = true) (visited h t).
Proof.
  induction t as [a kids dot dotKids IHk IHd] using Tree_ind'.
  assert (forall ks,
    Forall (fun t => (computed h t).*1
                     = filter (fun a => dirtyAt h a = true) (visited h t)) ks ->
    (ks ≫= computed h).*1
    = filter (fun a => dirtyAt h a = true) (ks ≫= visited h)) as Hks.
  { induction 1 as [|k ks Hk _ IH]; [done|].
    rewrite !bind_cons, fmap_app, filter_app. by rewrite Hk, IH. }
  simpl. destruct (dirtyAt h a) eqn:E.
  - rewrite fmap_cons, filter_cons_True by done. simpl. f_equal.
    rewrite fmap_app, filter_app. by rewrite (Hks kids IHk), (Hks dotKids IHd).
  - rewrite filter_cons_False by (rewrite E; done). done.
Qed.

Lemma visited_addrs (h : gmap addr FileInfo) t x : x ∈ visited h t -> x ∈ addrs t.
Proof.
  revert x. induction t as [a kids dot dotKids IHk IHd] using Tree_ind'. intros x.
  simpl. intros [->|Hx]%elem_of_cons; [apply list_elem_of_here|].
  destruct (dirtyAt h a); [|by apply elem_of_nil in Hx].
  apply elem_of_app in Hx as [Hx|Hx];
    apply list_elem_of_bind in Hx as (k & Hx & Hk).
  - rewrite Forall_forall in IHk. eapply addrs_kid; [done|]. by apply IHk.
  - rewrite Forall_forall in IHd. eapply addrs_dotKid; [done|]. by apply IHd.
Qed.

Lemma visited_NoDup (h : gmap addr FileInfo) t : NoDup (addrs t) -> NoDup (visited h t).
Proof.
  induction t as [a kids dot dotKids IHk IHd] using Tree_ind'. intros Hnd.
  destruct (NoDup_addrs_items _ _ _ _ Hnd) as [Hit Ha].
  simpl. apply NoDup_cons. destruct (dirtyAt h a);
    [|split; [by intros ?%elem_of_nil | constructor]].
  rewrite <- bind_app. split.
  - intros Hin. apply Ha. apply list_elem_of_bind in Hin as (k & Hx & Hk).
    apply list_elem_of_bind. exists k. split; [|done]. by eapply visited_addrs.
  - pose proof (NoDup_sub_bind (visited h) addrs id (kids ++ dotKids)) as HN.
    rewrite list_fmap_id in HN. apply HN; [| |done].
    + intros k Hk. rewrite list_fmap_id. rewrite Forall_forall in IHk, IHd.
      apply elem_of_app in Hk as [Hk|Hk]; [by apply IHk | by apply IHd].
    + intros k x _. rewrite list_fmap_id. apply visited_addrs.
Qed.

Lemma dirtyAt_cleaned_by L (h h' : gmap addr FileInfo) x :
  cleaned_by L h h' -> (dirtyAt h x = true -> x ∈ L.*1) -> dirtyAt h' x = false.
Proof.
  intros Hc Hd. unfold dirtyAt. rewrite (Hc x).
  destruct (list_to_map L !! x) as [s|] eqn:EL.
  - destruct (h !! x) as [fi|]; simpl; [|done].
    unfold storeIn. destruct (_dir fi) eqn:Ed; simpl; [done|by rewrite Ed].
  - apply not_elem_of_list_to_map_2 in EL.
    destruct (dirtyAt h x) eqn:E; [by destruct EL; apply Hd|].
    exact E.
Qed.

(** ** The scenario: [F1] deleted *)

Lemma scenario_deleted t1 t2 :
  0 <= t1 < t2 ->
  (fun r => (summaryDirty r.2 2, summaryDirty r.2 1, scenarioReads r.2))
    <$> deleteEntry 3 3 (scenarioWorld t1 t2)
  = Some (Some true, Some true, Some (50, [1%positive], 2, [1%positive])).
Proof.
  intros (p2 & -> & [-> | (p1 & -> & E)])%scenario_cases.
  - vm_compute. reflexivity.
  - eassert (scenarioWorld (Z.pos p1) (Z.pos p2) = _) as ->.
    { vm_compute in E. vm_compute. rewrite E. reflexivity. }
    vm_compute. reflexivity.
Qed.

(** [deletingChild(c)] on the parent [n] of a child [c] returns and
    leaves [n] and every ancestor of [n] dirty, without entering
    [recalc()].  A summary accessor called on the root of any subtree
    returns, and [recalc()] is entered exactly on the nodes the call
    visits that were dirty, once on each: the trace grows by the dirty
    ones among the visited nodes, no visited node occurs twice, and every
    visited node is not dirty afterwards.  In the scenario, with [F1]
    deleted, the dot entry of the root and the root are dirty, and the
    next reads on the root give [totalSize() = 50] and
    [totalItems() = 2], [recalc()] having run once, on the root. *)
Theorem deletingChild_then_accessor :
  (forall w n l c dc l1 l2 fuel,
     up_chain (heap w) n l -> heap w !! c = Some dc -> parent dc = Some n ->
     children (heap w) n (l1 ++ c :: l2) ->
     (length l < fuel)%nat -> (length l1 < fuel)%nat ->
     exists w',
       deletingChild fuel n c w = Some (tt, w') /\
       recalcs w' = recalcs w /\
       forall a, a ∈ n :: l -> summaryDirty w' a = Some true) /\
  (forall f t w fuel,
     repr (heap w) t -> NoDup (addrs t) -> (treeFuel t <= fuel)%nat ->
     exists v w',
       accessor f fuel (root t) w = Some (v, w') /\
       recalcs w'
       = rev (filter (fun a => dirtyAt (heap w) a = true) (visited (heap w) t))
         ++ recalcs w /\
       NoDup (visited (heap w) t) /\
       forall a, a ∈ visited (heap w) t -> dirtyAt (heap w') a = false) /\
  (forall t1 t2,
     0 <= t1 < t2 ->
     deleteEntry 3 3 (scenarioWorld t1 t2) = Some (tt, scenarioDeleted t1 t2) /\
     summaryDirty (scenarioDeleted t1 t2) 2 = Some true /\
     summaryDirty (scenarioDeleted t1 t2) 1 = Some true /\
     scenarioReads (scenarioDeleted t1 t2)
     = Some (50, [1%positive], 2, [1%positive])).
Proof.
  split; [|split].
  - intros w n l c dc l1 l2 fuel Hc Hdc Hp Hch Hf Hf1.
    destruct (deletingChild_spec w n l c dc l1 l2 fuel Hc Hdc Hp Hch Hf Hf1)
      as (h' & E & Hd & _).
    exists (with_heap h' w). split; [exact E|]. split; [reflexivity|exact Hd].
  - intros f t w fuel Hr Hnd Hf.
    destruct (accessor_spec f t w fuel Hr Hnd Hf) as (h' & E & Hc).
    eexists _, _. split; [exact E|]. simpl.
    split; [by rewrite computed_visited|].
    split; [by apply visited_NoDup|].
    intros a Ha. eapply dirtyAt_cleaned_by; [exact Hc|].
    intros Hd. rewrite computed_visited. by apply list_elem_of_filter.
  - intros t1 t2 H. pose proof (scenario_deleted t1 t2 H) as Hs.
    unfold scenarioDeleted.
    destruct (deleteEntry 3 3 (scenarioWorld t1 t2)) as [[[] w]|];
      [|discriminate Hs].
    simpl in Hs. injection Hs as H2 H1 Hr. done.
Qed.

(** With [t1 = 10] and [t2 = 20]: [deletingChild(F1)] on the dot entry of
    the root marks the dot entry and the root dirty; [totalSize()] on the
    root of the scenario without [F1] then enters [recalc()] on the
    root only. *)
Lemma deletingChild_then_accessor_witness :
  (exists w', deletingChild 3 2 3 (scenarioWorld 10 20) = Some (tt, w') /\
              summaryDirty w' 2 = Some true /\ summaryDirty w' 1 = Some true) /\
  (exists v w', accessor FTotalSize 4 1 (scenarioDeleted 10 20) = Some (v, w') /\
                recalcs w' = [1%positive]) /\
  scenarioReads (scenarioDeleted 10 20) = Some (50, [1%positive], 2, [1%positive]).
Proof.
  destruct deletingChild_then_accessor as (HA & HB & HC).
  split; [|split].
  - destruct (HA (scenarioWorld 10 20) 2 [1] 3
                 (mkFileInfo "F1" ModeRegular 100 1 10 (Some 2) None None)
                 [] [] 3%nat)%positive as (w' & E & _ & Hd).
    + solve_links.
    + vm_compute. reflexivity.
    + reflexivity.
    + solve_links.
    + simpl. lia.
    + simpl. lia.
    + exists w'. split; [exact E|]. split.
      * apply Hd, list_elem_of_here.
      * apply Hd, list_elem_of_further, list_elem_of_here.
  - destruct (HB FTotalSize scenarioDeletedTree (scenarioDeleted 10 20) 4%nat)
      as (v & w' & E & Hrec & _).
    + solve_repr.
    + solve_NoDup.
    + vm_compute. lia.
    + exists v, w'. split; [exact E|]. rewrite Hrec. vm_compute. reflexivity.
  - apply (HC 10 20). lia.
Defined.

(** * Where [insertChild()] puts the child *)

(** The objects after one [insertChild] call: the ancestors [l] of the
    node [tgt] the child is linked into keep their links and have
    [childAdded] applied; the child points to [tgt] and heads its
    children list; every other object is untouched. *)
Lemma insertChild_records w this c nc n tgt l fuel :
  insertTarget n (heap w) this c = Some tgt -> heap w !! c = Some nc ->
  up_chain (heap w) tgt l -> c ∉ tgt :: l -> (n + length l < fuel)%nat ->
  exists h' nc1,
    insertChild fuel this c w = Some (tt, with_heap h' w) /\
    (forall a, a ∈ l ->
       exists fa da, heap w !! a = Some fa /\ _dir fa = Some da /\
                     h' !! a = Some (set_dir (added nc1 da) fa)) /\
    (forall a, a ∉ tgt :: l -> a <> c -> h' !! a = heap w !! a) /\
    (exists nc', h' !! c = Some nc' /\ parent nc' = Some tgt /\ _dir nc' = _dir nc) /\
    (forall lc, children (heap w) tgt lc -> c ∉ lc -> children h' tgt (c :: lc)) /\
    (exists ft dt, heap w !! tgt = Some ft /\ _dir ft = Some dt /\
       h' !! tgt = Some (set_dir (added nc1 (set_firstChild (Some c) dt)) ft)).
Proof.
  intros Ht Hc Hch Hnot Hf.
  destruct (insertChild_step w this c nc n tgt l fuel Ht Hc Hch Hnot Hf)
    as (h' & E & _ & Hout & Hcrec & Hchildren).
  assert (c <> tgt) as Hne by (intros ->; apply Hnot, list_elem_of_here).
  destruct (insertTarget_spec n w this c tgt Ht Hne)
    as (k & nc' & fi & d & Hk & Ec & Et & Ed & Hor & Hins).
  assert (nc' = nc) as -> by congruence.
  set (w1 := with_heap (linked (heap w) tgt c fi d nc) w).
  assert (up_chain (heap w1) tgt l) as Hch1.
  { subst w1. simpl. by apply linked_up_chain. }
  assert (heap w1 !! c = Some (set_parent (Some tgt) (set_next (_firstChild d) nc))) as Ec1.
  { subst w1. simpl. unfold linked. by rewrite lookup_insert_eq. }
  destruct (childAdded_spec w1 tgt c _ l (fuel - k) Hch1 Ec1 Hnot ltac:(lia))
    as (h'' & E' & In & _).
  assert (h'' = h') as ->.
  { replace fuel with (k + (fuel - k))%nat in E by lia. rewrite Hins in E.
    fold w1 in E. rewrite E' in E. by injection E. }
  exists h', (set_parent (Some tgt) (set_next (_firstChild d) nc)).
  split; [exact E|].
  split; [|split; [exact Hout|split; [exact Hcrec|split; [exact Hchildren|]]]].
  - intros a Ha. pose proof (up_chain_not_self _ _ _ Hch) as Hself.
    destruct (In a (list_elem_of_further _ _ _ Ha)) as (fa & da & E1 & E2 & E3).
    exists fa, da. split; [|done]. subst w1. simpl in E1. unfold linked in E1.
    rewrite !lookup_insert_ne in E1; [done| |].
    + intros ->. done.
    + intros ->. apply Hnot. by apply list_elem_of_further.
  - destruct (In tgt (list_elem_of_here _ _)) as (fa & da & E1 & E2 & E3).
    exists fi, d. split; [done|]. split; [done|].
    subst w1. simpl in E1. unfold linked in E1.
    rewrite lookup_insert_ne in E1 by done. rewrite lookup_insert_eq in E1.
    injection E1 as <-. simpl in E2. injection E2 as <-. exact E3.
Qed.

Lemma added_links nc d :
  _firstChild (added nc d) = _firstChild d /\ _dotEntry (added nc d) = _dotEntry d /\
  _summaryDirty (added nc d) = _summaryDirty d /\
  (_summaryDirty d = true -> added nc d = d) /\
  (_summaryDirty d = false -> _totalItems (added nc d) = asInt (_totalItems d + 1)).
Proof.
  unfold added. destruct (_summaryDirty d) eqn:E; simpl;
    repeat split; try done; try congruence.
Qed.

(** ** The item count over the items of [recalc()] *)

Lemma sumItems_foldl (f : Tree -> FileInfo) (g : Tree -> Summary) ks : forall s s' z,
  sumItems s' = asInt (sumItems s + z) ->
  sumItems (foldl (fun s k => plusItem s (f k) (g k)) s' ks)
  = asInt (sumItems (foldl (fun s k => plusItem s (f k) (g k)) s ks) + z).
Proof.
  induction ks as [|k ks IH]; intros s s' z H; simpl; [done|].
  apply IH. simpl. rewrite H. wrap_norm. f_equal. lia.
Qed.

Lemma foldr_max_S (l : list nat) (n : nat) :
  (foldr Nat.max (S n) l <= S (foldr Nat.max n l))%nat.
Proof. induction l; simpl; lia. Qed.

Lemma foldr_max_mono (l : list nat) (n m : nat) :
  (n <= m)%nat -> (foldr Nat.max n l <= foldr Nat.max m l)%nat.
Proof. intros H. induction l; simpl; lia. Qed.

Lemma treeFuel_new_leaf a kids dot dks c :
  (treeFuel (Node a kids dot (Node c [] None [] :: dks))
   <= S (treeFuel (Node a kids dot dks)))%nat.
Proof.
  simpl. 
  assert (forall l x y, (x <= S y)%nat ->
            (foldr Nat.max x l <= S (foldr Nat.max y l))%nat) as Hm.
  { intros l x y H. etransitivity; [apply (foldr_max_mono l x (S y) H)|].
    apply foldr_max_S. }
  apply le_n_S. apply Hm.
  pose proof (foldr_max_base (treeFuel <$> dks) (S (length kids + length dks))).
  pose proof (Hm (treeFuel <$> dks) (S (length kids + S (length dks)))
                 (S (length kids + length dks)) ltac:(lia)).
  change (list_fmap Tree nat treeFuel dks) with (treeFuel <$> dks).
  lia.
Qed.

Lemma addrs_new_leaf a kids dot dks c :
  addrs (Node a kids (Some dot) (Node c [] None [] :: dks))
  ≡ₚ c :: addrs (Node a kids (Some dot) dks).
Proof.
  simpl. rewrite (Permutation_swap a c). apply Permutation_skip.
  change (list_bind Tree addr addrs dks) with (dks ≫= addrs).
  rewrite (Permutation_swap c dot). symmetry. apply Permutation_middle.
Qed.

Lemma repr_node_inv (h : gmap addr FileInfo) a kids dot dks :
  repr h (Node a kids (Some dot) dks) ->
  exists fi d dfi dd,
    h !! a = Some fi /\ _dir fi = Some d /\ _dotEntry d = Some dot /\
    lseg h (_firstChild d) (root <$> kids) None /\ Forall (repr h) kids /\
    h !! dot = Some dfi /\ _dir dfi = Some dd /\
    lseg h (_firstChild dd) (root <$> dks) None /\ Forall (repr h) dks.
Proof.
  intros Hr. remember (Node a kids (Some dot) dks) as t eqn:Et.
  destruct Hr as [a' fi E1 E2 | a' fi d kids' dks' E1 E2 Hlk Hk Hdot Hdk];
    [discriminate Et|].
  injection Et as -> -> Edot ->. rewrite Edot in Hdot.
  destruct Hdot as (dfi & dd & F1 & F2 & Hld).
  exists fi, d, dfi, dd. done.
Qed.

(** A plain file [c] inserted into the node [this], the root of the
    subtree [t], which owns the dot entry [dot]. *)
Lemma insertChild_plain_file w this c nc fi d dot dfi dd kids dks l fuel :
  heap w !! c = Some nc -> isDir nc = false -> _dir nc = None ->
  heap w !! this = Some fi -> _dir fi = Some d -> _isDotEntry d = false ->
  heap w !! dot = Some dfi -> _dir dfi = Some dd -> _isDotEntry dd = true ->
  up_chain (heap w) dot (this :: l) ->
  repr (heap w) (Node this kids (Some dot) dks) ->
  NoDup (addrs (Node this kids (Some dot) dks)) ->
  c ∉ addrs (Node this kids (Some dot) dks) -> c ∉ l ->
  (forall a, a ∈ l -> a ∉ addrs (Node this kids (Some dot) dks)) ->
  (treeFuel (Node this kids (Some dot) dks) + length l + 3 <= fuel)%nat ->
  exists h',
    insertChild fuel this c w = Some (tt, with_heap h' w) /\
    children h' dot (c :: (root <$> dks)) /\
    children h' this (root <$> kids) /\
    (exists nc', h' !! c = Some nc' /\ parent nc' = Some dot) /\
    repr h' (Node this kids (Some dot) (Node c [] None [] :: dks)) /\
    sumItems (calc h' (Node this kids (Some dot) (Node c [] None [] :: dks)))
    = asInt (sumItems (calc (heap w) (Node this kids (Some dot) dks)) + 1).
Proof.
  intros Hc Hnd Hplain H1 H2 Hnotdot Hd1 Hd2 Hisdot Hch Hr Hno Hcn Hcl Hl Hf.
  destruct (repr_node_inv _ _ _ _ _ Hr)
    as (fi0 & d0 & dfi0 & dd0 & E1 & E2 & Edot & Hlk & Hkids & F1 & F2 & Hld & Hdks).
  assert (fi0 = fi) as -> by congruence. assert (d0 = d) as -> by congruence.
  assert (dfi0 = dfi) as -> by congruence. assert (dd0 = dd) as -> by congruence.
  assert (insertTarget 2 (heap w) this c = Some dot) as Ht.
  { simpl. rewrite Hc, H1, H2, Hnd, Hnotdot, Edot. simpl.
    rewrite Hd1, Hd2, Hisdot. by rewrite orb_true_r. }
  pose proof Hno as Hno'. simpl in Hno'.
  apply NoDup_cons in Hno' as [Hthis Hno'].
  apply NoDup_app in Hno' as (N1 & D1 & N2).
  apply NoDup_cons in N2 as [Hdotd N2].
  assert (this ∈ addrs (Node this kids (Some dot) dks)) as Hin_this
    by apply list_elem_of_here.
  assert (dot ∈ addrs (Node this kids (Some dot) dks)) as Hin_dot.
  { simpl. apply list_elem_of_further, elem_of_app. right. apply list_elem_of_here. }
  assert (c ∉ dot :: this :: l) as Hnot.
  { intros [->|[->|Hin]%elem_of_cons]%elem_of_cons; done. }
  destruct (insertChild_records w this c nc 2 dot (this :: l) fuel Ht Hc Hch Hnot)
    as (h' & nc1 & E & In & Out & (nc' & Ec' & Ep' & Edir') & Hchildren & _).
  { simpl. simpl in Hf. lia. }
  exists h'. split; [exact E|].
  destruct (In this (list_elem_of_here _ _)) as (fa & da & G1 & G2 & G3).
  assert (fa = fi) as -> by congruence. assert (da = d) as -> by congruence.
  destruct (added_links nc1 d) as (Lfc & Ldot & Ldirty & Lsame & Litems).
  assert (forall k x, k ∈ kids ++ dks -> x ∈ addrs k -> h' !! x = heap w !! x) as Hsame.
  { intros k x Hk Hx.
    assert (x ∈ addrs (Node this kids (Some dot) dks)) as Hxt
      by (by eapply (addrs_item (Node this kids (Some dot) dks))).
    apply Out; [|intros ->; done].
    intros [->|[->|Hin]%elem_of_cons]%elem_of_cons.
    - apply elem_of_app in Hk as [Hk|Hk].
      + apply (D1 dot); [apply list_elem_of_bind; eauto|apply list_elem_of_here].
      + apply Hdotd. apply list_elem_of_bind; eauto.
    - apply Hthis. apply elem_of_app in Hk as [Hk|Hk].
      + apply elem_of_app. left. apply list_elem_of_bind; eauto.
      + apply elem_of_app. right. apply list_elem_of_further.
        apply list_elem_of_bind; eauto.
    - by apply (Hl x Hin). }
  assert (forall k, k ∈ kids ++ dks -> h' !! root k = heap w !! root k) as Hroots.
  { intros k Hk. apply (Hsame k); [done|apply root_in_addrs]. }
  assert (c ∉ root <$> dks) as Hcd.
  { intros (k & -> & Hk)%list_elem_of_fmap. apply Hcn.
    eapply addrs_dotKid; [done|apply root_in_addrs]. }
  assert (children h' dot (c :: (root <$> dks))) as Hchd.
  { apply Hchildren; [|done]. by exists dfi, dd. }
  assert (lseg h' (_firstChild d) (root <$> kids) None) as Hlk'.
  { eapply lseg_ext; [|exact Hlk].
    intros a fa (k & -> & Hk)%list_elem_of_fmap Ea. exists fa.
    rewrite Hroots; [done|]. apply elem_of_app. by left. }
  assert (forall ks, (forall k, k ∈ ks -> k ∈ kids ++ dks) ->
            Forall (repr (heap w)) ks -> Forall (repr h') ks) as Hrepr.
  { intros ks Hsub Hall. rewrite Forall_forall in Hall. apply Forall_forall.
    intros k Hk. eapply repr_ext; [|by apply Hall].
    intros x Hx. by rewrite (Hsame k x (Hsub k Hk) Hx). }
  assert (repr h' (Node this kids (Some dot) (Node c [] None [] :: dks))) as Hr'.
  { eapply repr_node; [exact G3|reflexivity|by rewrite Ldot|by rewrite Lfc| | |].
    - apply Hrepr; [|exact Hkids]. intros k Hk. apply elem_of_app. by left.
    - exact Hchd.
    - apply Forall_cons_2.
      + eapply repr_plain; [exact Ec'|congruence].
      + apply Hrepr; [|exact Hdks]. intros k Hk. apply elem_of_app. by right. }
  split; [exact Hchd|]. split.
  { eexists _, _. split; [exact G3|]. split; [reflexivity|]. by rewrite Lfc. }
  split; [eauto|]. split; [exact Hr'|].
  assert (dirtyAt h' this = _summaryDirty d) as Edirty'.
  { unfold dirtyAt. rewrite G3. simpl. exact Ldirty. }
  assert (dirtyAt (heap w) this = _summaryDirty d) as Edirty.
  { unfold dirtyAt. by rewrite H1, H2. }
  simpl calc. rewrite Edirty', Edirty.
  destruct (_summaryDirty d) eqn:Ed.
  - assert (infoAt h' this = fi) as ->.
    { unfold infoAt. rewrite G3. simpl. rewrite (Lsame eq_refl).
      destruct fi; simpl in *. by subst. }
    assert (infoAt (heap w) this = fi) as -> by (unfold infoAt; by rewrite H1).
    assert (forall ks, (forall k, k ∈ ks -> k ∈ kids ++ dks) -> forall s,
              foldl (fun s k => plusItem s (infoAt h' (root k)) (calc h' k)) s ks
              = foldl (fun s k => plusItem s (infoAt (heap w) (root k))
                                    (calc (heap w) k)) s ks) as Hfold.
    { intros ks Hsub s. apply foldl_ext_in. intros s' k Hk.
      rewrite (infoAt_agree h' (heap w) (root k)) by (apply Hroots; auto).
      rewrite (calc_agree h' (heap w) k); [done|].
      intros x Hx. apply (Hsame k); auto. }
    rewrite (Hfold kids) by (intros k Hk; apply elem_of_app; by left).
    rewrite (Hfold dks) by (intros k Hk; apply elem_of_app; by right).
    apply sumItems_foldl. simpl.
    assert (dirtyAt h' c = false) as ->.
    { unfold dirtyAt. rewrite Ec'. by rewrite Edir', Hplain. }
    unfold reported, infoAt. rewrite Ec'. simpl. rewrite Edir', Hplain. reflexivity.
  - unfold reported, infoAt. rewrite G3, H1. simpl. rewrite H2. simpl.
    by apply Litems.
Qed.

(** * Read jobs and read state along the parent chain *)

(** Two walks up the chain, the second undoing the first, restore the
    world. *)
Lemma walk_up_inverse f g w this l fuel :
  (forall d, g (f d) = d) ->
  up_chain (heap w) this l -> (length l < fuel)%nat ->
  (run walk_up f fuel this in walk_up g fuel this) w = Some (tt, w).
Proof.
  intros Hgf Hc Hf.
  destruct (walk_up_spec f w this l fuel Hc Hf) as (h1 & E1 & In1 & Out1).
  pose proof (walk_up_chain f w this l h1 Hc In1 Out1) as Hc1.
  destruct (walk_up_spec g (with_heap h1 w) this l fuel Hc1 Hf) as (h2 & E2 & In2 & Out2).
  rewrite (bind_eq _ _ _ _ _ E1), E2. rewrite with_heap_with_heap.
  assert (h2 = heap w) as ->; [|by rewrite with_heap_id].
  apply map_eq. intros a. destruct (decide (a ∈ this :: l)) as [Hin|Hout].
  - destruct (In1 a Hin) as (fi & d & F1 & F2 & F3).
    destruct (In2 a Hin) as (fi' & d' & G1 & G2 & G3).
    simpl in G1. rewrite F3 in G1. injection G1 as <-. simpl in G2.
    injection G2 as <-. rewrite G3, F1, Hgf. f_equal.
    destruct fi; simpl in *. by subst.
  - rewrite (Out2 a Hout). simpl. by apply Out1.
Qed.

(** X1: a read job that is added and then finished on the same node
    leaves no trace: [readJobAdded()] followed by [readJobFinished()] (or
    the two in the other order) returns and restores every object, on the
    node and on all its ancestors. *)
Theorem readJobAdded_readJobFinished_cancel w this l fuel :
  up_chain (heap w) this l -> (length l < fuel)%nat ->
  (run readJobAdded fuel this in readJobFinished fuel this) w = Some (tt, w) /\
  (run readJobFinished fuel this in readJobAdded fuel this) w = Some (tt, w).
Proof.
  intros Hc Hf. split.
  - pose proof (walk_up_inverse
      (fun d => set_pendingReadJobs (_pendingReadJobs d + 1) d)
      (fun d => set_pendingReadJobs (_pendingReadJobs d - 1) d) w this l fuel) as H.
    unfold bind in *. rewrite readJobAdded_walk.
    destruct (walk_up _ fuel this w) as [[[] w1]|] eqn:E.
    + rewrite readJobFinished_walk. apply H; [|done|done].
      intros d. destruct d; unfold set_pendingReadJobs; simpl. f_equal. lia.
    + apply H; [|done|done]. intros d. destruct d; unfold set_pendingReadJobs; simpl. f_equal. lia.
  - pose proof (walk_up_inverse
      (fun d => set_pendingReadJobs (_pendingReadJobs d - 1) d)
      (fun d => set_pendingReadJobs (_pendingReadJobs d + 1) d) w this l fuel) as H.
    unfold bind in *. rewrite readJobFinished_walk.
    destruct (walk_up _ fuel this w) as [[[] w1]|] eqn:E.
    + rewrite readJobAdded_walk. apply H; [|done|done].
      intros d. destruct d; unfold set_pendingReadJobs; simpl. f_equal. lia.
    + apply H; [|done|done]. intros d. destruct d; unfold set_pendingReadJobs; simpl. f_equal. lia.
Qed.

(** On the dot entry (address 2) of a fresh root (address 1). *)
Lemma readJobAdded_readJobFinished_cancel_witness :
  (run readJobAdded 2 2 in readJobFinished 2 2) rootWorld = Some (tt, rootWorld) /\
  (run readJobFinished 2 2 in readJobAdded 2 2) rootWorld = Some (tt, rootWorld).
Proof.
  apply (readJobAdded_readJobFinished_cancel rootWorld 2 [1%positive] 2).
  - solve_chain.
  - simpl. lia.
Defined.

(** If every node of the chain stores the state [s], [readState()]
    returns [s], whichever nodes are dot entries. *)
Lemma readState_chain w this l s : forall fuel,
  up_chain (heap w) this l -> (length l < fuel)%nat ->
  (forall a, a ∈ this :: l -> storedReadState w a = Some s) ->
  readState fuel this w = Some (s, w).
Proof.
  revert this. induction l as [|p l IH]; intros this fuel Hc Hf Hs;
    (destruct fuel as [|fuel]; [simpl in Hf; lia|]);
    pose proof (up_chain_head _ _ _ Hc) as (fi & d & H1 & H2 & H3); simpl in H3;
    pose proof (Hs this (list_elem_of_here _ _)) as Es;
    apply storedReadState_Some in Es as (fi' & d' & E1 & E2 & E3);
    assert (fi' = fi) as -> by congruence; assert (d' = d) as -> by congruence;
    rewrite (readState_unfold fuel this w fi d H1 H2), H3.
  - rewrite E3. by destruct (_isDotEntry d).
  - destruct (_isDotEntry d); [|by rewrite E3].
    apply IH; [by eapply up_chain_tail|simpl in Hf; lia|].
    intros a Ha. apply Hs. by apply list_elem_of_further.
Qed.

Lemma busy_spec_aborted p : busy_spec p KDirAborted = false.
Proof. unfold busy_spec. simpl. by rewrite andb_false_r. Qed.

(** X2: an abort ends the reading of the node and of all its ancestors.
    [readJobAborted()] returns; afterwards every node [a] of the chain
    stores [KDirAborted] and has the pending-job count it had;
    [readState()] on it returns [KDirAborted], [isBusy()] returns false
    and [isFinished()] true, whatever its pending-job count and whether
    or not it is a dot entry; and [setReadState( KDirFinished )] on it
    leaves [KDirAborted] stored. *)
Theorem readJobAborted_finishes_chain w this l fuel :
  up_chain (heap w) this l -> (length l < fuel)%nat ->
  exists w',
    readJobAborted fuel this w = Some (tt, w') /\
    (forall a, a ∉ this :: l -> heap w' !! a = heap w !! a) /\
    forall a, a ∈ this :: l ->
      storedReadState w' a = Some KDirAborted /\
      pendingReadJobs w' a = pendingReadJobs w a /\
      readState fuel a w' = Some (KDirAborted, w') /\
      isBusy fuel a w' = Some (false, w') /\
      isFinished fuel a w' = Some (true, w') /\
      exists w'', setReadState a KDirFinished w' = Some (tt, w'') /\
                  storedReadState w'' a = Some KDirAborted.
Proof.
  intros Hc Hf. rewrite readJobAborted_walk.
  destruct (walk_up_spec (set_readState KDirAborted) w this l fuel Hc Hf)
    as (h' & E & In & Out).
  pose proof (walk_up_chain _ w this l h' Hc In Out) as Hc'.
  exists (with_heap h' w). split; [exact E|]. split; [exact Out|].
  assert (forall a, a ∈ this :: l ->
            storedReadState (with_heap h' w) a = Some KDirAborted) as Hst.
  { intros a Ha. destruct (In a Ha) as (fi & d & F1 & F2 & F3).
    unfold storedReadState, dirOf. simpl. rewrite F3. simpl. by destruct d. }
  intros a Ha. destruct (In a Ha) as (fi & d & F1 & F2 & F3).
  assert (exists la, up_chain h' a la /\ (length la < fuel)%nat /\
                     forall x, x ∈ a :: la -> x ∈ this :: l) as (la & Hca & Hfa & Hsub).
  { apply elem_of_cons in Ha as [->|Ha].
    - exists l. done.
    - destruct (up_chain_suffix _ _ _ _ Hc' Ha) as (l1 & l2 & -> & H2).
      exists l2. split; [done|]. split.
      + rewrite length_app in Hf. simpl in Hf. lia.
      + intros x Hx. apply list_elem_of_further, elem_of_app. by right. }
  assert (readState fuel a (with_heap h' w) = Some (KDirAborted, with_heap h' w)) as Er.
  { apply (readState_chain _ a la); [done|done|]. intros x Hx. apply Hst. auto. }
  split; [by apply Hst|]. split.
  { unfold pendingReadJobs, dirOf. simpl. rewrite F3, F1. simpl. rewrite F2.
    simpl. by destruct d. }
  split; [exact Er|].
  destruct (isBusy_code (with_heap h' w) a _ (set_readState KDirAborted d) la fuel
              F3 eq_refl Hca Hfa) as (r & Er' & Eb & Ef).
  assert (r = KDirAborted) as -> by congruence.
  assert (_readState (set_readState KDirAborted d) = KDirAborted) as Est
    by (by destruct d).
  rewrite Est in Eb, Ef.
  rewrite (bool_decide_eq_true_2 (KDirAborted = KDirAborted)) in Eb, Ef by done.
  simpl in Eb, Ef. rewrite andb_false_r in Eb, Ef. simpl in Eb, Ef.
  split; [exact Eb|]. split; [exact Ef|].
  destruct (setReadState_spec (with_heap h' w) a _ _ KDirFinished F3 eq_refl)
    as (w'' & Es & Est' & _).
  exists w''. split; [exact Es|]. rewrite Est', Est.
  by rewrite bool_decide_eq_true_2.
Qed.

(** A read job is attributed to the dot entry (address 2) of a fresh
    root, then the dot entry is aborted: the root (address 1) is
    finished, with its job still pending. *)
Lemma readJobAborted_finishes_chain_witness :
  exists w0 w',
    readJobAdded 2 2 rootWorld = Some (tt, w0) /\
    readJobAborted 2 2 w0 = Some (tt, w') /\
    pendingReadJobs w' 1 = Some 1 /\
    isFinished 2 1 w' = Some (true, w') /\
    isFinished 2 2 w' = Some (true, w').
Proof.
  eexists. 
  destruct (readJobAborted_finishes_chain
              (worldAfter (run newDirInfoStat 1 2 None "R" ModeDir 0 0 0 in
                           readJobAdded 2 2)) 2 [1%positive] 2)
    as (w' & E & _ & H).
  - solve_chain.
  - simpl. lia.
  - exists w'. split; [vm_compute; reflexivity|]. split; [exact E|].
    destruct (H 1%positive) as (_ & Hp & _ & _ & Hf1 & _);
      [apply list_elem_of_further, list_elem_of_here|].
    destruct (H 2%positive) as (_ & _ & _ & _ & Hf2 & _); [apply list_elem_of_here|].
    split; [rewrite Hp; vm_compute; reflexivity|]. split; [exact Hf1|exact Hf2].
Defined.

(** X3: on a node that is not a dot entry (or has no parent),
    [isBusy()] and [isFinished()] return without changing anything, and
    the node is finished exactly if its stored state is [KDirAborted], or
    is [KDirFinished] with no pending read job; a pending-job count of
    zero or below counts as none. *)
Theorem isFinished_of_directory w this fi d l fuel :
  heap w !! this = Some fi -> _dir fi = Some d ->
  _isDotEntry d = false \/ _parent fi = None ->
  up_chain (heap w) this l -> (length l < fuel)%nat ->
  exists b,
    isBusy fuel this w = Some (negb b, w) /\
    isFinished fuel this w = Some (b, w) /\
    (b = true <->
     _readState d = KDirAborted \/
     (_readState d = KDirFinished /\ _pendingReadJobs d <= 0)).
Proof.
  intros H1 H2 Hnd Hc Hf.
  destruct (isBusy_not_dot_entry w this fi d l fuel H1 H2 Hnd Hc Hf) as (_ & Eb & Ef).
  exists (negb (busy_spec (_pendingReadJobs d) (_readState d))).
  rewrite negb_involutive. split; [exact Eb|]. split; [exact Ef|].
  unfold busy_spec. destruct (Z.ltb_spec 0 (_pendingReadJobs d)) as [Hp|Hp];
    destruct (_readState d); simpl; split; intros H; try done;
    try (by left); try (right; split; [done|lia]);
    destruct H as [H|[H H']]; try done; lia.
Qed.

(** A fresh root is queued, hence busy; once its state is set to
    [KDirFinished] it is finished. *)
Lemma isFinished_of_directory_witness :
  isFinished 1 1 rootWorld = Some (false, rootWorld) /\
  exists w', setReadState 1 KDirFinished rootWorld = Some (tt, w') /\
             isFinished 1 1 w' = Some (true, w').
Proof.
  split.
  - destruct (isFinished_of_directory rootWorld 1
                (mkFileInfo "R" ModeDir 0 0 0 None None
                   (Some (mkDirInfo false 0 (Some 2%positive) None 0 0 0 0 0 0
                            false false false false KDirQueued)))
                (mkDirInfo false 0 (Some 2%positive) None 0 0 0 0 0 0
                   false false false false KDirQueued) [] 1)
      as (b & _ & Ef & Hb).
    + vm_compute. reflexivity.
    + reflexivity.
    + by left.
    + solve_chain.
    + simpl. lia.
    + destruct b; [|exact Ef]. exfalso.
      destruct (proj1 Hb eq_refl) as [H|[H _]]; discriminate H.
  - eexists. split; [vm_compute; reflexivity|]. vm_compute. reflexivity.
Defined.

(** * Construction *)

Lemma alloc_eq w a fi :
  heap w !! a = None -> alloc a fi w = Some (tt, with_heap (<[a := fi]> (heap w)) w).
Proof. unfold alloc. by intros ->. Qed.

Lemma newDotEntry_eq w a p :
  heap w !! a = None ->
  newDotEntry a p w = Some (tt, with_heap (<[a := dotObject p]> (heap w)) w).
Proof.
  intros H. unfold newDotEntry.
  rewrite (bind_eq _ _ _ _ _ (alloc_eq _ _ _ H)).
  unfold init, modify, modifyDir, bind. simpl.
  rewrite !lookup_insert_eq. simpl. rewrite !lookup_insert_eq. simpl.
  rewrite !lookup_insert_eq. simpl. rewrite !lookup_insert_eq. simpl.
  rewrite !insert_insert_eq. reflexivity.
Qed.

Lemma newDir_eq w this dot base :
  heap w !! this = None -> heap w !! dot = None -> this <> dot ->
  (run alloc this base in
   run init this in
   run newDotEntry dot (Some this) in
   modifyDir this (set_dotEntry (Some dot))) w
  = Some (tt, with_heap (<[this := dirObject base dot]>
                           (<[dot := dotObject (Some this)]> (heap w))) w).
Proof.
  intros H1 H2 Hne.
  rewrite (bind_eq _ _ _ _ _ (alloc_eq _ _ _ H1)).
  unfold init. erewrite bind_eq by (apply modify_eq; simpl; apply lookup_insert_eq).
  erewrite bind_eq
    by (apply newDotEntry_eq; simpl; rewrite !lookup_insert_ne by done; exact H2).
  erewrite modifyDir_eq;
    [|simpl; rewrite lookup_insert_ne by done; rewrite !lookup_insert_eq; reflexivity
     |reflexivity].
  simpl. f_equal. f_equal. unfold with_heap. simpl. f_equal.
  rewrite !insert_insert_eq.
  rewrite (insert_insert_ne _ dot this) by done.
  by rewrite !insert_insert_eq.
Qed.

(** X4: the constructors.  On unused storage, the dot entry constructor
    builds one object, named ".", flagged as dot entry and without a dot
    entry of its own.  Every other constructor builds two: the directory,
    with the members of [init()] (no child, no pending job, state
    [KDirQueued], a clean summary of its own size, blocks and
    modification time), and its dot entry, whose parent is the directory;
    neither is put into a children list, and no other object changes.
    Both are busy, and the dot entry reports the state of the
    directory. *)
Theorem constructors_spec w this dot parent :
  heap w !! this = None -> heap w !! dot = None -> this <> dot ->
  newDirInfo this dot parent true w
  = Some (tt, with_heap (<[this := dotObject parent]> (heap w)) w) /\
  (forall base w',
     w' = with_heap (<[this := dirObject base dot]>
                       (<[dot := dotObject (Some this)]> (heap w))) w ->
     (base = FileInfo_blank parent ->
      newDirInfo this dot parent false w = Some (tt, w')) /\
     (forall name mode size blocks mtime,
        base = mkFileInfo name mode size blocks mtime parent None None ->
        newDirInfoStat this dot parent name mode size blocks mtime w = Some (tt, w')) /\
     (forall a, a <> this -> a <> dot -> heap w' !! a = heap w !! a) /\
     (forall fuel,
        readState (S fuel) this w' = Some (KDirQueued, w') /\
        readState (S (S fuel)) dot w' = Some (KDirQueued, w') /\
        isBusy (S fuel) this w' = Some (true, w') /\
        isBusy (S (S fuel)) dot w' = Some (true, w'))).
Proof.
  intros H1 H2 Hne. split; [by apply newDotEntry_eq|].
  intros base w' ->.
  assert (forall w0, heap w0 = <[this := dirObject base dot]>
                                 (<[dot := dotObject (Some this)]> (heap w)) ->
            forall fuel,
              readState (S fuel) this w0 = Some (KDirQueued, w0) /\
              readState (S (S fuel)) dot w0 = Some (KDirQueued, w0)) as Hrs.
  { intros w0 Hw0 fuel.
    assert (heap w0 !! this = Some (dirObject base dot)) as Et
      by (rewrite Hw0; apply lookup_insert_eq).
    assert (heap w0 !! dot = Some (dotObject (Some this))) as Ed.
    { rewrite Hw0. rewrite lookup_insert_ne by done. apply lookup_insert_eq. }
    assert (readState (S fuel) this w0 = Some (KDirQueued, w0)) as E1.
    { by rewrite (readState_unfold fuel this w0 _ _ Et eq_refl). }
    split; [exact E1|].
    rewrite (readState_unfold (S fuel) dot w0 _ _ Ed eq_refl). exact E1. }
  split; [|split; [|split]].
  - intros ->. unfold newDirInfo.
    pose proof (newDir_eq w this dot (FileInfo_blank parent) H1 H2 Hne) as E.
    unfold bind in *. unfold alloc in *. rewrite H1 in *. simpl in *.
    unfold init, modify in *. simpl in *. rewrite lookup_insert_eq in *. simpl in *.
    unfold modifyDir at 1. simpl. rewrite lookup_insert_eq. simpl.
    rewrite insert_insert_eq. exact E.
  - intros name mode size blocks mtime ->. unfold newDirInfoStat.
    by apply newDir_eq.
  - intros a Ha Hd. simpl. by rewrite !lookup_insert_ne.
  - intros fuel.
    destruct (Hrs (with_heap (<[this := dirObject base dot]>
                                (<[dot := dotObject (Some this)]> (heap w))) w)
                  eq_refl fuel) as [E1 E2].
    split; [exact E1|]. split; [exact E2|].
    unfold isBusy.
    split.
    + erewrite bind_eq
        by (eapply derefDir_eq; [simpl; apply lookup_insert_eq|reflexivity]).
      simpl. rewrite (bind_eq _ _ _ _ _ E1). simpl.
      by rewrite (bind_eq _ _ _ _ _ E1).
    + erewrite bind_eq
        by (eapply derefDir_eq;
             [simpl; rewrite lookup_insert_ne by done; apply lookup_insert_eq
             |reflexivity]).
      simpl. rewrite (bind_eq _ _ _ _ _ E2). simpl.
      by rewrite (bind_eq _ _ _ _ _ E2).
Qed.

(** The root of [rootWorld] and its dot entry, built in the empty
    world. *)
Lemma constructors_spec_witness :
  newDirInfoStat 1 2 None "R" ModeDir 0 0 0 emptyWorld = Some (tt, rootWorld) /\
  isBusy 1 1 rootWorld = Some (true, rootWorld) /\
  isBusy 2 2 rootWorld = Some (true, rootWorld).
Proof.
  destruct (constructors_spec emptyWorld 1 2 None) as [_ H];
    [reflexivity|reflexivity|discriminate|].
  destruct (H (mkFileInfo "R" ModeDir 0 0 0 None None None) rootWorld)
    as (_ & Hstat & _ & Hbusy); [vm_compute; reflexivity|].
  split; [by apply (Hstat "R" ModeDir 0 0 0)|].
  destruct (Hbusy 0%nat) as (_ & _ & B1 & B2). split; [exact B1|exact B2].
Defined.



(** * Inserting and deleting children *)

Lemma up_chain_ext_on (h h' : gmap addr FileInfo) x l :
  (forall a fi, a ∈ x :: l -> h !! a = Some fi ->
     exists fi', h' !! a = Some fi' /\ _parent fi' = _parent fi /\
                 (is_Some (_dir fi) -> is_Some (_dir fi'))) ->
  up_chain h x l -> up_chain h' x l.
Proof.
  revert x. induction l as [|p l IH]; intros x Hext; simpl.
  - intros (fi & E1 & E2 & E3).
    destruct (Hext x fi (list_elem_of_here _ _) E1) as (fi' & F1 & F2 & F3).
    exists fi'. split; [done|]. split; [auto|congruence].
  - intros [(fi & E1 & E2 & E3) Hc].
    destruct (Hext x fi (list_elem_of_here _ _) E1) as (fi' & F1 & F2 & F3).
    split; [exists fi'; split; [done|]; split; [auto|congruence]|].
    apply IH; [|done]. intros a fa Ha. apply Hext. by apply list_elem_of_further.
Qed.

Lemma insertTarget_self (h : gmap addr FileInfo) this c nc fi d :
  h !! c = Some nc -> h !! this = Some fi -> _dir fi = Some d ->
  isDir nc = true \/ _dotEntry d = None \/ _isDotEntry d = true ->
  insertTarget 1 h this c = Some this.
Proof.
  intros Hc H1 H2 Hor. simpl. rewrite Hc, H1, H2.
  destruct Hor as [-> | [-> | ->]]; [done| |].
  - rewrite bool_decide_eq_true_2 by done. by rewrite orb_true_r.
  - by rewrite orb_true_r.
Qed.

(** X5: the direct case of [insertChild()].  If the new child is a
    directory, or the node has no dot entry, or the node is a dot entry,
    the call is the three pointer assignments followed by
    [childAdded()]; it returns, logs nothing and enters no [recalc()];
    afterwards the new child heads the children list of the node, the
    former children follow in their order, the parent pointer of the
    child is the node, and no object outside the node, its ancestors and
    the child has changed. *)
Theorem insertChild_links_at_head w this c nc fi d l lc fuel :
  heap w !! c = Some nc -> heap w !! this = Some fi -> _dir fi = Some d ->
  isDir nc = true \/ _dotEntry d = None \/ _isDotEntry d = true ->
  up_chain (heap w) this l -> c ∉ this :: l ->
  children (heap w) this lc -> c ∉ lc ->
  (S (length l) < fuel)%nat ->
  insertChild fuel this c w
  = childAdded (pred fuel) this c (with_heap (linked (heap w) this c fi d nc) w) /\
  exists h',
    insertChild fuel this c w = Some (tt, with_heap h' w) /\
    children h' this (c :: lc) /\
    (exists nc', h' !! c = Some nc' /\ parent nc' = Some this /\
                 next nc' = head lc /\ _dir nc' = _dir nc) /\
    (forall a, a ∉ this :: l -> a <> c -> h' !! a = heap w !! a).
Proof.
  intros Hc H1 H2 Hor Hch Hnot Hlc Hclc Hf.
  assert (c <> this) as Hne by (intros ->; apply Hnot, list_elem_of_here).
  split.
  { destruct fuel as [|fuel]; [lia|]. simpl pred. by apply insertChild_direct. }
  pose proof (insertTarget_self _ _ _ _ _ _ Hc H1 H2 Hor) as Ht.
  destruct (insertChild_records w this c nc 1 this l fuel Ht Hc Hch Hnot)
    as (h' & nc1 & E & In & Out & (nc' & Ec' & Ep' & Edir') & Hchildren & _);
    [simpl; lia|].
  exists h'. split; [exact E|]. split; [by apply Hchildren|]. split; [|exact Out].
  exists nc'. split; [done|]. split; [done|]. split; [|done].
  destruct (Hchildren lc Hlc Hclc) as (ft & dt & F1 & F2 & Hl).
  simpl in Hl. destruct Hl as (_ & cf & Ecf & Hl).
  assert (cf = nc') as -> by congruence. unfold next.
  destruct lc as [|x lc']; simpl in Hl; [done|]. by destruct Hl as [-> _].
Qed.

(** A directory [D] (address 4) is inserted into a fresh root, whose dot
    entry stays empty. *)
Lemma insertChild_links_at_head_witness :
  exists w0 h',
    (run newDirInfoStat 1 2 None "R" ModeDir 0 0 0 in
     newDirInfoStat 4 5 None "D" ModeDir 0 0 0) emptyWorld = Some (tt, w0) /\
    insertChild 2 1 4 w0 = Some (tt, with_heap h' w0) /\
    children h' 1 [4%positive] /\ children h' 2 [].
Proof.
  eexists. 
  destruct (insertChild_links_at_head
               (worldAfter (run newDirInfoStat 1 2 None "R" ModeDir 0 0 0 in
                            newDirInfoStat 4 5 None "D" ModeDir 0 0 0))
               1 4 (dirObject (mkFileInfo "D" ModeDir 0 0 0 None None None) 5)
               (dirObject (mkFileInfo "R" ModeDir 0 0 0 None None None) 2)
               (initialMembers false (Some 2%positive)
                  (mkFileInfo "R" ModeDir 0 0 0 None None None))
               [] [] 2) as (_ & h' & E & Hch & _ & Hout).
  - vm_compute. reflexivity.
  - vm_compute. reflexivity.
  - reflexivity.
  - left. reflexivity.
  - solve_chain.
  - intros H. apply elem_of_cons in H as [H|H]; [discriminate H|].
    apply elem_of_nil in H. destruct H.
  - solve_links.
  - intros H. apply elem_of_nil in H. destruct H.
  - simpl. lia.
  - exists h'. split; [vm_compute; reflexivity|]. split; [exact E|].
    split; [exact Hch|].
    eexists _, _. rewrite Hout.
    + split; [vm_compute; reflexivity|]. split; reflexivity.
    + intros H. apply elem_of_cons in H as [H|H]; [discriminate H|].
      apply elem_of_nil in H. destruct H.
    + discriminate.
Defined.

(** X6: the delegating case of [insertChild()].  A child that is not a
    directory, inserted into a node that is not a dot entry and owns
    one, is handed to the dot entry: the call is [insertChild()] on the
    dot entry; it returns; the child heads the children list of the dot
    entry and its parent pointer is the dot entry; the children list of
    the node itself is what it was; and each of the dot entry, the node
    and the ancestors of the node that is not dirty has the child's own
    values counted into its summary, each addition made in the type of
    the member ([plusEntry]: 8 bytes for [_totalSize] and
    [_totalBlocks], an [int] for the counts), while the dirty ones keep
    their summary members. *)
Theorem insertChild_delegates_to_dot_entry
    w this c nc fi d dot dfi dd l lt ld fuel :
  heap w !! c = Some nc -> isDir nc = false ->
  heap w !! this = Some fi -> _dir fi = Some d ->
  _isDotEntry d = false -> _dotEntry d = Some dot ->
  heap w !! dot = Some dfi -> _dir dfi = Some dd -> _isDotEntry dd = true ->
  up_chain (heap w) dot (this :: l) -> c ∉ dot :: this :: l ->
  children (heap w) dot ld -> c ∉ ld ->
  children (heap w) this lt -> c ∉ lt -> dot ∉ lt ->
  (3 + length l < fuel)%nat ->
  insertChild fuel this c w = insertChild (pred fuel) dot c w /\
  exists h',
    insertChild fuel this c w = Some (tt, with_heap h' w) /\
    children h' dot (c :: ld) /\
    children h' this lt /\
    (exists nc', h' !! c = Some nc' /\ parent nc' = Some dot) /\
    (forall a da, a ∈ dot :: this :: l -> dirOf w a = Some da ->
       exists da', dirOf (with_heap h' w) a = Some da' /\
         _summaryDirty da' = _summaryDirty da /\
         cached da' = if _summaryDirty da then cached da
                      else plusEntry (cached da) nc) /\
    (forall a, a ∉ dot :: this :: l -> a <> c -> h' !! a = heap w !! a).
Proof.
  intros Hc Hnd H1 H2 Hnotdot Hdot Hd1 Hd2 Hisdot Hch Hnot Hld Hcld Hlt Hclt Hdlt Hf.
  split.
  { destruct fuel as [|fuel]; [lia|]. simpl pred.
    by eapply insertChild_delegated. }
  assert (insertTarget 2 (heap w) this c = Some dot) as Ht.
  { simpl. rewrite Hc, H1, H2, Hnd, Hnotdot, Hdot. simpl.
    rewrite Hd1, Hd2, Hisdot. by rewrite orb_true_r. }
  destruct (insertChild_step w this c nc 2 dot (this :: l) fuel Ht Hc Hch Hnot)
    as (h' & E & Hcached & _); [simpl; lia|].
  destruct (insertChild_records w this c nc 2 dot (this :: l) fuel Ht Hc Hch Hnot)
    as (h'' & nc1 & E' & In & Out & (nc' & Ec' & Ep' & Edir') & Hchildren & _);
    [simpl; lia|].
  assert (h'' = h') as -> by (rewrite E in E'; by injection E').
  exists h'. split; [exact E|]. split; [by apply Hchildren|].
  split; [|split; [eauto|split; [|exact Out]]].
  - destruct (In this (list_elem_of_here _ _)) as (fa & da & G1 & G2 & G3).
    assert (fa = fi) as -> by congruence. assert (da = d) as -> by congruence.
    destruct Hlt as (fi0 & d0 & F1 & F2 & Hl).
    assert (fi0 = fi) as -> by congruence. assert (d0 = d) as -> by congruence.
    destruct (added_links nc1 d) as (Lfc & _).
    eexists _, _. split; [exact G3|]. split; [reflexivity|]. rewrite Lfc.
    eapply lseg_ext; [|exact Hl]. intros a fa Ha Ea.
    destruct (decide (a ∈ this :: l)) as [Hin|Hout].
    + destruct (In a Hin) as (fa' & da' & K1 & K2 & K3).
      assert (fa' = fa) as -> by congruence. eexists. split; [exact K3|done].
    + exists fa. rewrite Out; [done| |].
      * intros [->|Hin]%elem_of_cons; done.
      * intros ->. done.
  - intros a da Ha Eda. destruct (Hcached a da Eda) as (da' & F1 & F2 & F3).
    exists da'. split; [done|]. split; [done|].
    rewrite F3, bool_decide_eq_true_2 by done. by destruct (_summaryDirty da).
Qed.

(** The file [F1] (address 3) is inserted into the root (address 1) of
    the scenario: it lands in the dot entry (address 2), and the root
    counts one item. *)
Lemma insertChild_delegates_to_dot_entry_witness :
  exists h',
    insertChild 4 1 3 (scenarioStart 10 20)
    = Some (tt, with_heap h' (scenarioStart 10 20)) /\
    children h' 2 [3%positive] /\ children h' 1 [] /\
    exists d', dirOf (with_heap h' (scenarioStart 10 20)) 1 = Some d' /\
               _totalItems d' = 1 /\ _totalSize d' = 100.
Proof.
  destruct (insertChild_delegates_to_dot_entry (scenarioStart 10 20) 1 3
              (mkFileInfo "F1" ModeRegular 100 1 10 None None None)
              (dirObject (mkFileInfo "R" ModeDir 0 0 0 None None None) 2)
              (initialMembers false (Some 2%positive)
                 (mkFileInfo "R" ModeDir 0 0 0 None None None))
              2 (dotObject (Some 1%positive))
              (initialMembers true None (FileInfo_blank (Some 1%positive)))
              [] [] [] 4)
    as (_ & h' & E & Hd & Ht & _ & Hsum & _).
  - vm_compute. reflexivity.
  - reflexivity.
  - vm_compute. reflexivity.
  - reflexivity.
  - reflexivity.
  - reflexivity.
  - vm_compute. reflexivity.
  - reflexivity.
  - reflexivity.
  - solve_chain.
  - intros H. repeat (apply elem_of_cons in H as [H|H]; [discriminate H|]).
    apply elem_of_nil in H. destruct H.
  - solve_links.
  - intros H. apply elem_of_nil in H. destruct H.
  - solve_links.
  - intros H. apply elem_of_nil in H. destruct H.
  - intros H. apply elem_of_nil in H. destruct H.
  - simpl. lia.
  - exists h'. split; [exact E|]. split; [exact Hd|]. split; [exact Ht|].
    destruct (Hsum 1%positive
                (initialMembers false (Some 2%positive)
                   (mkFileInfo "R" ModeDir 0 0 0 None None None)))
      as (d' & Ed' & _ & Hc).
    + apply list_elem_of_further, list_elem_of_here.
    + vm_compute. reflexivity.
    + exists d'. split; [exact Ed'|].
      simpl in Hc. unfold cached, plusEntry in Hc. simpl in Hc.
      injection Hc as Hs _ Hi _ _ _. split; [exact Hi|exact Hs].
Defined.

(** X7: [deletingChild( c )] on the parent [n] of a child [c] of its
    list.  The call returns, logs nothing and enters no [recalc()];
    afterwards [n] and each of its ancestors is dirty; if [n] is not
    being destroyed, [c] is out of the children list of [n] and the
    other children keep their order; if [n] is being destroyed, the list
    is left as it is; and apart from [n], its ancestors and the children
    in front of [c], every object, [c] included, is what it was. *)
Theorem deletingChild_on_parent w n l c dc l1 l2 fuel :
  up_chain (heap w) n l -> heap w !! c = Some dc -> parent dc = Some n ->
  children (heap w) n (l1 ++ c :: l2) ->
  (length l < fuel)%nat -> (length l1 < fuel)%nat ->
  exists h',
    deletingChild fuel n c w = Some (tt, with_heap h' w) /\
    (forall a, a ∈ n :: l -> summaryDirty (with_heap h' w) a = Some true) /\
    ((_beingDestroyed <$> dirOf w n) = Some false -> children h' n (l1 ++ l2)) /\
    ((_beingDestroyed <$> dirOf w n) = Some true -> children h' n (l1 ++ c :: l2)) /\
    (forall a, a ∉ n :: l -> a ∉ l1 -> h' !! a = heap w !! a) /\
    h' !! c = Some dc.
Proof.
  intros Hc Hdc Hp Hch Hf Hf1.
  destruct (deletingChild_spec w n l c dc l1 l2 fuel Hc Hdc Hp Hch Hf Hf1)
    as (h' & E & Hd & Hn & Hy & Hout).
  exists h'. repeat (split; [done|]).
  rewrite Hout; [done|by eapply child_not_on_chain|].
  destruct Hch as (fi & d & _ & _ & Hl). apply lseg_NoDup in Hl.
  apply NoDup_app in Hl as (_ & Hdis & _). intros Hin.
  apply (Hdis c Hin), list_elem_of_here.
Qed.

(** In the scenario, [deletingChild( F1 )] on the dot entry of the root
    empties the list of the dot entry and marks it and the root dirty. *)
Lemma deletingChild_on_parent_witness :
  exists h',
    deletingChild 3 2 3 (scenarioWorld 10 20)
    = Some (tt, with_heap h' (scenarioWorld 10 20)) /\
    summaryDirty (with_heap h' (scenarioWorld 10 20)) 2 = Some true /\
    summaryDirty (with_heap h' (scenarioWorld 10 20)) 1 = Some true /\
    children h' 2 [].
Proof.
  destruct (deletingChild_on_parent (scenarioWorld 10 20) 2 [1] 3
              (mkFileInfo "F1" ModeRegular 100 1 10 (Some 2) None None)
              [] [] 3%nat)%positive as (h' & E & Hd & Hn & _).
  - solve_links.
  - vm_compute. reflexivity.
  - reflexivity.
  - solve_links.
  - simpl. lia.
  - simpl. lia.
  - exists h'. split; [exact E|]. split; [apply Hd, list_elem_of_here|].
    split; [apply Hd, list_elem_of_further, list_elem_of_here|].
    apply Hn. vm_compute. reflexivity.
Defined.

(** X8: [deletingChild( c )] on a node [this] when neither [this] nor
    an ancestor of it is the parent of [c].  The call returns and marks
    [this] and its ancestors dirty; nothing is unlinked and, unlike in
    [unlinkChild()], nothing is logged: every other object is what it
    was, [c] stays in the list it is in. *)
Theorem deletingChild_not_parent w this l c dc fuel :
  up_chain (heap w) this l -> (length l < fuel)%nat ->
  heap w !! c = Some dc -> c ∉ this :: l ->
  (forall a, a ∈ this :: l -> parent dc <> Some a) ->
  exists h',
    deletingChild fuel this c w = Some (tt, with_heap h' w) /\
    errors (with_heap h' w) = errors w /\
    (forall a, a ∈ this :: l ->
       exists fi d, heap w !! a = Some fi /\ _dir fi = Some d /\
                    h' !! a = Some (set_dir (set_summaryDirty true d) fi)) /\
    (forall a, a ∉ this :: l -> h' !! a = heap w !! a) /\
    (forall p lp, children (heap w) p lp -> children h' p lp).
Proof.
  intros Hc Hf Hdc Hnot Hpar.
  destruct (deletingChild_above w this l c dc fuel Hc Hf Hdc Hnot Hpar)
    as (h' & E & In & Out).
  exists h'. split; [exact E|]. split; [reflexivity|]. split; [exact In|].
  split; [exact Out|].
  assert (forall a fa, heap w !! a = Some fa ->
            exists fa', h' !! a = Some fa' /\ _next fa' = _next fa /\
              forall da, _dir fa = Some da ->
                exists da', _dir fa' = Some da' /\ _firstChild da' = _firstChild da)
    as Hrec.
  { intros a fa Ea. destruct (decide (a ∈ this :: l)) as [Hin|Hout].
    - destruct (In a Hin) as (fi & d & F1 & F2 & F3).
      assert (fi = fa) as -> by congruence.
      eexists. split; [exact F3|]. split; [done|].
      intros da Eda. assert (da = d) as -> by congruence.
      eexists. split; [reflexivity|]. by destruct d.
    - exists fa. rewrite (Out a Hout). split; [done|]. split; [done|]. eauto. }
  intros p lp (fp & dp & F1 & F2 & Hl).
  destruct (Hrec p fp F1) as (fp' & G1 & _ & G3).
  destruct (G3 dp F2) as (dp' & G4 & G5).
  exists fp', dp'. split; [done|]. split; [done|]. rewrite G5.
  eapply lseg_ext; [|exact Hl]. intros a fa _ Ea.
  destruct (Hrec a fa Ea) as (fa' & K1 & K2 & _). eauto.
Qed.

(** In the scenario, [deletingChild( F2 )] called on the root, which is
    not the parent of [F2] (address 6): the root becomes dirty, [F2]
    stays in the list of the dot entry (address 5) of [D], and nothing
    is logged. *)
Lemma deletingChild_not_parent_witness :
  exists h',
    deletingChild 1 1 6 (scenarioWorld 10 20)
    = Some (tt, with_heap h' (scenarioWorld 10 20)) /\
    errors (with_heap h' (scenarioWorld 10 20)) = [] /\
    summaryDirty (with_heap h' (scenarioWorld 10 20)) 1 = Some true /\
    children h' 5 [6%positive].
Proof.
  destruct (deletingChild_not_parent (scenarioWorld 10 20) 1 [] 6
              (mkFileInfo "F2" ModeRegular 50 1 20 (Some 5) None None)
              1%nat)%positive as (h' & E & He & In & _ & Hch).
  - solve_links.
  - simpl. lia.
  - vm_compute. reflexivity.
  - intros H. apply elem_of_cons in H as [H|H]; [discriminate H|].
    apply elem_of_nil in H. destruct H.
  - intros a H. apply elem_of_cons in H as [->|H]; [discriminate|].
    apply elem_of_nil in H. destruct H.
  - exists h'. split; [exact E|]. split; [rewrite He; vm_compute; reflexivity|].
    split.
    + destruct (In 1%positive (list_elem_of_here _ _)) as (fi & d & F1 & F2 & F3).
      unfold summaryDirty, dirOf. simpl. rewrite F3. simpl. by destruct d.
    + apply Hch. solve_links.
Defined.

(** X9: inserting a child and deleting it again.  After
    [insertChild( c )], which links [c] into the node [tgt] (the node
    itself or its dot entry), [deletingChild( c )] on [tgt] returns and
    restores the children list of [tgt]; nothing is logged and no
    [recalc()] is entered, but [tgt] and all its ancestors are left
    dirty; objects other than these and [c] are what they were before
    the insertion. *)
Theorem insertChild_then_deletingChild w this c nc n tgt l lc fuel :
  insertTarget n (heap w) this c = Some tgt -> heap w !! c = Some nc ->
  up_chain (heap w) tgt l -> c ∉ tgt :: l ->
  children (heap w) tgt lc -> c ∉ lc ->
  (_beingDestroyed <$> dirOf w tgt) = Some false ->
  (n + length l < fuel)%nat ->
  exists h1 h2,
    insertChild fuel this c w = Some (tt, with_heap h1 w) /\
    children h1 tgt (c :: lc) /\
    deletingChild fuel tgt c (with_heap h1 w) = Some (tt, with_heap h2 w) /\
    children h2 tgt lc /\
    (forall a, a ∈ tgt :: l -> summaryDirty (with_heap h2 w) a = Some true) /\
    (forall a, a ∉ tgt :: l -> a <> c -> h2 !! a = heap w !! a).
Proof.
  intros Ht Hc Hch Hnot Hlc Hclc Hbd Hf.
  destruct (insertChild_records w this c nc n tgt l fuel Ht Hc Hch Hnot Hf)
    as (h1 & nc1 & E & In & Out & (nc' & Ec' & Ep' & Edir') & Hchildren
        & (ft & dt & T1 & T2 & T3)).
  pose proof (Hchildren lc Hlc Hclc) as Hch1.
  assert (up_chain h1 tgt l) as Hup.
  { eapply up_chain_ext_on; [|exact Hch]. intros a fa Ha Ea.
    apply elem_of_cons in Ha as [->|Ha].
    - assert (fa = ft) as -> by congruence.
      eexists. split; [exact T3|]. split; [done|]. intros _. by eexists.
    - destruct (In a Ha) as (fa' & da & F1 & F2 & F3).
      assert (fa' = fa) as -> by congruence.
      eexists. split; [exact F3|]. split; [done|]. intros _. by eexists. }
  destruct (deletingChild_spec (with_heap h1 w) tgt l c nc' [] lc fuel)
    as (h2 & E2 & Hd & Hn & _ & Hout2); [exact Hup|exact Ec'|exact Ep'|exact Hch1|lia|simpl; lia|].
  exists h1, h2. split; [exact E|]. split; [exact Hch1|]. split; [exact E2|].
  split; [|split; [exact Hd|]].
  - apply Hn. unfold dirOf in *. simpl. rewrite T3. simpl.
    rewrite T1 in Hbd. simpl in Hbd. rewrite T2 in Hbd. simpl in Hbd.
    injection Hbd as Hbd. f_equal. unfold added.
    destruct (_summaryDirty (set_firstChild (Some c) dt)); simpl; exact Hbd.
  - intros a Ha Hac. rewrite Hout2; [|done|by intros ?%elem_of_nil].
    simpl. by apply Out.
Qed.

(** [D] (address 4) is inserted into a fresh root and deleted again: the
    root lists no child, and is dirty. *)
Lemma insertChild_then_deletingChild_witness :
  exists w0 h1 h2,
    (run newDirInfoStat 1 2 None "R" ModeDir 0 0 0 in
     newDirInfoStat 4 5 None "D" ModeDir 0 0 0) emptyWorld = Some (tt, w0) /\
    insertChild 2 1 4 w0 = Some (tt, with_heap h1 w0) /\
    children h1 1 [4%positive] /\
    deletingChild 2 1 4 (with_heap h1 w0) = Some (tt, with_heap h2 w0) /\
    children h2 1 [] /\
    summaryDirty (with_heap h2 w0) 1 = Some true.
Proof.
  eexists.
  destruct (insertChild_then_deletingChild
              (worldAfter (run newDirInfoStat 1 2 None "R" ModeDir 0 0 0 in
                           newDirInfoStat 4 5 None "D" ModeDir 0 0 0))
              1 4 (dirObject (mkFileInfo "D" ModeDir 0 0 0 None None None) 5)
              1 1 [] [] 2) as (h1 & h2 & E1 & Hc1 & E2 & Hc2 & Hd & _).
  - vm_compute. reflexivity.
  - vm_compute. reflexivity.
  - solve_chain.
  - intros H. apply elem_of_cons in H as [H|H]; [discriminate H|].
    apply elem_of_nil in H. destruct H.
  - solve_links.
  - intros H. apply elem_of_nil in H. destruct H.
  - vm_compute. reflexivity.
  - simpl. lia.
  - exists h1, h2. split; [vm_compute; reflexivity|].
    split; [exact E1|]. split; [exact Hc1|]. split; [exact E2|].
    split; [exact Hc2|]. apply Hd, list_elem_of_here.
Defined.

(** X15: [unlinkChild()] does not clear the parent pointer of the child
    it unlinks, so a second [unlinkChild()] of the same child passes the
    parent test, scans the list in vain and logs "Couldn't unlink"
    (not "is not a child"); the store is what the first call left. *)
Theorem unlinkChild_twice w this c dc l1 l2 fuel :
  heap w !! c = Some dc -> parent dc = Some this -> c <> this ->
  children (heap w) this (l1 ++ c :: l2) -> (length (l1 ++ l2) <= fuel)%nat ->
  exists h',
    unlinkChild fuel this c w = Some (tt, with_heap h' w) /\
    children h' this (l1 ++ l2) /\
    h' !! c = Some dc /\
    unlinkChild fuel this c (with_heap h' w)
    = Some (tt, with_errors (CouldntUnlink c this :: errors w) (with_heap h' w)).
Proof.
  intros Hc Hp Hne Hch Hf.
  assert (NoDup (l1 ++ c :: l2)) as Hnd.
  { destruct Hch as (fi & d & _ & _ & Hl). by eapply lseg_NoDup. }
  apply NoDup_app in Hnd as (N1 & Dis & N2). apply NoDup_cons in N2 as [Hc2 N2].
  assert (c ∉ l1) as Hc1 by (intros Hin; apply (Dis c Hin), list_elem_of_here).
  rewrite length_app in Hf.
  destruct (unlinkChild_in_list w this c dc l1 l2 fuel Hc Hp Hch ltac:(lia))
    as (h' & E & Hch' & Hh').
  assert (h' !! c = Some dc) as Ec'.
  { destruct Hh' as [(_ & fi & d & _ & _ & ->)
                    |(l0 & pred & pfi & -> & _ & ->)].
    - by rewrite lookup_insert_ne.
    - rewrite lookup_insert_ne; [done|]. intros ->. apply Hc1.
      apply elem_of_app. right. apply list_elem_of_here. }
  exists h'. split; [exact E|]. split; [exact Hch'|]. split; [exact Ec'|].
  eapply (unlinkChild_not_in_list (with_heap h' w) this c dc (l1 ++ l2));
    [exact Ec'|exact Hp|exact Hch'| |rewrite length_app; lia].
  intros [?|?]%elem_of_app; done.
Qed.

(** In [threeChildrenWorld] the root lists 5, 4, 3; unlinking 4 twice
    logs once. *)
Lemma unlinkChild_twice_witness :
  exists h',
    unlinkChild 3 1 4 threeChildrenWorld = Some (tt, with_heap h' threeChildrenWorld) /\
    children h' 1 [5; 3]%positive /\
    unlinkChild 3 1 4 (with_heap h' threeChildrenWorld)
    = Some (tt, with_errors [CouldntUnlink 4 1] (with_heap h' threeChildrenWorld)).
Proof.
  destruct (unlinkChild_twice threeChildrenWorld 1 4
              (mkFileInfo "b" ModeRegular 20 1 200 (Some 1) (Some 3) None)
              [5] [3] 3%nat)%positive as (h' & E & Hch & _ & E2).
  - reflexivity.
  - reflexivity.
  - discriminate.
  - solve_links.
  - simpl. lia.
  - exists h'. split; [exact E|]. split; [exact Hch|exact E2].
Defined.

(** * Finalizing twice *)

(** The early return of [cleanupDotEntries]. *)
Lemma cleanupDotEntries_return w this fi d fuel :
  heap w !! this = Some fi -> _dir fi = Some d ->
  _dotEntry d = None \/ _isDotEntry d = true ->
  cleanupDotEntries fuel this w = Some (tt, w).
Proof.
  intros H1 H2 Hor. unfold cleanupDotEntries.
  rewrite (bind_eq _ _ _ _ _ (derefDir_eq _ _ _ _ H1 H2)).
  destruct Hor as [-> | ->]; [done|]. by destruct (_dotEntry d).
Qed.

(** X11: [cleanupDotEntries()] (and so [finalizeLocal()]) need not be
    guarded against a second call.  On a node without dot entry, and on
    a dot entry, it returns at once and changes nothing.  On any other
    node, whose dot entry [dot] owns no dot entry and has the children
    [ld], the call returns, and a second call then returns and changes
    nothing more. *)
Theorem cleanupDotEntries_idempotent w this fi d fuel :
  heap w !! this = Some fi -> _dir fi = Some d ->
  (forall dot, _dotEntry d = Some dot -> _isDotEntry d = false ->
     exists dfi dd ld,
       this <> dot /\ heap w !! dot = Some dfi /\ _dir dfi = Some dd /\
       _dotEntry dd = None /\ lseg (heap w) (_firstChild dd) ld None /\
       (this ∉ ld) /\ (dot ∉ ld) /\ (length ld < fuel)%nat) ->
  exists h',
    cleanupDotEntries fuel this w = Some (tt, with_heap h' w) /\
    finalizeLocal fuel this w = Some (tt, with_heap h' w) /\
    cleanupDotEntries fuel this (with_heap h' w) = Some (tt, with_heap h' w) /\
    (_dotEntry d = None \/ _isDotEntry d = true -> h' = heap w).
Proof.
  intros H1 H2 Hwf. unfold finalizeLocal.
  destruct (_dotEntry d) as [dot|] eqn:Edot; [destruct (_isDotEntry d) eqn:Eis|].
  - exists (heap w). rewrite with_heap_id.
    rewrite (cleanupDotEntries_return w this fi d fuel H1 H2) by (by right). done.
  - destruct (Hwf dot eq_refl eq_refl)
      as (dfi & dd & ld & Hne & D1 & D2 & D3 & Hld & Htl & Hdl & Hf).
    destruct (decide (_firstChild d = None)) as [Hfc|Hfc].
    + destruct (cleanupDotEntries_reparents (heap w) this fi d dot dfi dd ld fuel)
        as (h' & E & _ & _ & _ & Ht & _); try done.
      exists h'. split; [destruct w; apply E|]. split; [destruct w; apply E|].
      split; [|by intros [?|?]].
      eapply cleanupDotEntries_return; [exact Ht|reflexivity|by left].
    + destruct fuel as [|fuel]; [lia|].
      rewrite (cleanupDotEntries_keeps_children w this fi d dot dfi dd fuel) by done.
      destruct (bool_decide (_firstChild dd = None)) eqn:Eb.
      * eexists. split; [reflexivity|]. split; [reflexivity|].
        split; [|by intros [?|?]].
        eapply cleanupDotEntries_return;
          [simpl; apply lookup_insert_eq|reflexivity|by left].
      * exists (heap w). rewrite with_heap_id. split; [done|]. split; [done|].
        split; [|done].
        rewrite (cleanupDotEntries_keeps_children w this fi d dot dfi dd fuel) by done.
        by rewrite Eb.
  - exists (heap w). rewrite with_heap_id.
    rewrite (cleanupDotEntries_return w this fi d fuel H1 H2) by (by left). done.
Qed.

(** In [twoFilesWorld] the first call moves the two files of the dot
    entry to the root and deletes the dot entry. *)
Lemma cleanupDotEntries_idempotent_witness :
  exists h',
    cleanupDotEntries 3 1 twoFilesWorld = Some (tt, with_heap h' twoFilesWorld) /\
    cleanupDotEntries 3 1 (with_heap h' twoFilesWorld)
    = Some (tt, with_heap h' twoFilesWorld) /\
    children h' 1 [4; 3]%positive.
Proof.
  edestruct (cleanupDotEntries_idempotent twoFilesWorld 1) with (fuel := 3%nat)
    as (h' & E1 & _ & E2 & _).
  - vm_compute. reflexivity.
  - reflexivity.
  - intros dot Hdot _. injection Hdot as <-.
    eexists _, _, [4; 3]%positive.
    split; [discriminate|]. split; [vm_compute; reflexivity|].
    split; [reflexivity|]. split; [reflexivity|]. split; [solve_links|].
    split; [|split; [|simpl; lia]];
      intros H; repeat (apply elem_of_cons in H as [H|H]; [discriminate H|]);
      apply elem_of_nil in H; destruct H.
  - exists h'. split; [exact E1|]. split; [exact E2|].
    assert (Some (tt, with_heap h' twoFilesWorld)
            = cleanupDotEntries 3 1 twoFilesWorld) as E by (symmetry; exact E1).
    vm_compute in E. injection E as ->. solve_links.
Defined.

(** X10: the three cases of [cleanupDotEntries()] on a node [this] that
    is not a dot entry and owns the dot entry [dot], which owns none;
    [lt] are the children of [this] and [ld] those of [dot].
    - If [this] has no child, the whole list [ld] becomes the children
      list of [this]: every object of [ld] is what it was but for its
      parent pointer, now [this]; [dot] is deleted and the [_dotEntry]
      of [this] is null; nothing else changes.  [finalizeAll()] on such
      a node sends the one notification for the node and leaves this
      same store.
    - If [this] has a child and [dot] has none, [dot] is deleted, the
      [_dotEntry] of [this] is null, and nothing else changes.
    - If both have children, nothing changes: the dot entry stays. *)
Theorem cleanupDotEntries_cases w this fi d dot dfi dd lt ld fuel :
  heap w !! this = Some fi -> _dir fi = Some d ->
  _isDotEntry d = false -> _dotEntry d = Some dot ->
  heap w !! dot = Some dfi -> _dir dfi = Some dd -> _dotEntry dd = None ->
  this <> dot ->
  lseg (heap w) (_firstChild d) lt None ->
  lseg (heap w) (_firstChild dd) ld None -> this ∉ ld -> dot ∉ ld ->
  (length ld < fuel)%nat ->
  (lt = [] ->
   exists h',
     cleanupDotEntries fuel this w = Some (tt, with_heap h' w) /\
     finalizeAll (S fuel) this w
     = Some (tt, mkWorld h' (errors w) (this :: finalizeLocalSent w) (recalcs w)) /\
     children h' this ld /\
     (forall c, c ∈ ld ->
        exists cf, heap w !! c = Some cf /\ h' !! c = Some (set_parent (Some this) cf)) /\
     h' !! dot = None /\
     h' !! this
     = Some (set_dir (set_dotEntry None (set_firstChild (_firstChild dd) d)) fi) /\
     (forall a, a <> this -> a <> dot -> a ∉ ld -> h' !! a = heap w !! a)) /\
  (lt <> [] ->
   (ld = [] ->
    cleanupDotEntries fuel this w
    = Some (tt, with_heap (<[this := set_dir (set_dotEntry None d) fi]>
                             (delete dot (heap w))) w)) /\
   (ld <> [] -> cleanupDotEntries fuel this w = Some (tt, w))).
Proof.
  intros H1 H2 Hnd Hdot D1 D2 Ddot Hne Hlt Hld Htl Hdl Hf. split.
  - intros ->. simpl in Hlt.
    destruct (cleanupDotEntries_reparents (heap w) this fi d dot dfi dd ld fuel)
      as (h' & E & Hch & Hin & Hd & Ht & Hout); try done.
    exists h'. split; [destruct w; apply E|]. split.
    { rewrite (finalizeAll_no_children w this fi d fuel H1 H2 Hnd Hlt). apply E. }
    done.
  - intros Hlt'.
    assert (_firstChild d <> None) as Hfc.
    { destruct lt; [done|]. simpl in Hlt. destruct Hlt as [-> _]. done. }
    destruct fuel as [|fuel]; [lia|].
    rewrite (cleanupDotEntries_keeps_children w this fi d dot dfi dd fuel); try done.
    split.
    + intros ->. simpl in Hld. by rewrite bool_decide_eq_true_2.
    + intros Hnil. rewrite bool_decide_eq_false_2; [done|].
      intros E. rewrite E in Hld. destruct ld; [done|]. simpl in Hld. by destruct Hld.
Qed.

(** In [twoFilesWorld] the root has no child and its dot entry holds the
    files 4 and 3: after [finalizeAll] the root lists 4 and 3 and the
    dot entry (address 2) is gone.  In the scenario the root and its dot
    entry both have a child: nothing changes. *)
Lemma cleanupDotEntries_cases_witness :
  (exists h',
     finalizeAll 4 1 twoFilesWorld
     = Some (tt, mkWorld h' [] [1%positive] []) /\
     children h' 1 [4; 3]%positive /\ h' !! 2%positive = None) /\
  cleanupDotEntries 2 1 (scenarioWorld 10 20) = Some (tt, scenarioWorld 10 20).
Proof.
  split.
  - edestruct (cleanupDotEntries_cases twoFilesWorld 1%positive)
      with (dot := 2%positive) (lt := @nil addr) (ld := [4; 3]%positive)
           (fuel := 3%nat) as [HA _].
    + vm_compute. reflexivity.
    + reflexivity.
    + reflexivity.
    + reflexivity.
    + vm_compute. reflexivity.
    + reflexivity.
    + reflexivity.
    + discriminate.
    + vm_compute. reflexivity.
    + solve_links.
    + intros H. repeat (apply elem_of_cons in H as [H|H]; [discriminate H|]).
      apply elem_of_nil in H. destruct H.
    + intros H. repeat (apply elem_of_cons in H as [H|H]; [discriminate H|]).
      apply elem_of_nil in H. destruct H.
    + simpl. lia.
    + destruct (HA eq_refl) as (h' & _ & E2 & Hch & _ & Hd & _).
      exists h'. split; [exact E2|]. split; [exact Hch|exact Hd].
  - edestruct (cleanupDotEntries_cases (scenarioWorld 10 20) 1%positive)
      with (dot := 2%positive) (lt := [4%positive]) (ld := [3%positive])
           (fuel := 2%nat) as [_ HB].
    + vm_compute. reflexivity.
    + reflexivity.
    + reflexivity.
    + reflexivity.
    + vm_compute. reflexivity.
    + reflexivity.
    + reflexivity.
    + discriminate.
    + solve_links.
    + solve_links.
    + intros H. repeat (apply elem_of_cons in H as [H|H]; [discriminate H|]).
      apply elem_of_nil in H. destruct H.
    + intros H. repeat (apply elem_of_cons in H as [H|H]; [discriminate H|]).
      apply elem_of_nil in H. destruct H.
    + simpl. lia.
    + apply HB; discriminate.
Defined.

(** * The destructor *)

Lemma deleteObject_unfold fuel this :
  deleteObject (S fuel) this
  = (let* fi := deref this in
     match _dir fi with
     | None => free this
     | Some _ =>
         run modifyDir this (set_beingDestroyed true) in
         let* d := derefDir this in
         run deleteChildrenWith (deleteObject fuel) fuel (_firstChild d) in
         let* d' := derefDir this in
         run (match _dotEntry d' with
              | Some dot => deleteObject fuel dot
              | None => ret tt
              end) in
         free this
     end).
Proof. reflexivity. Qed.

Lemma free_eq w a fi :
  heap w !! a = Some fi -> free a w = Some (tt, with_heap (delete a (heap w)) w).
Proof. unfold free. by intros ->. Qed.

Lemma removed_nil (h : gmap addr FileInfo) : removed [] h h.
Proof. intros x. rewrite bool_decide_eq_false_2; [done|]. by intros ?%elem_of_nil. Qed.

Lemma removed_app L1 L2 (h1 h2 h3 : gmap addr FileInfo) :
  removed L1 h1 h2 -> removed L2 h2 h3 -> removed (L1 ++ L2) h1 h3.
Proof.
  intros H1 H2 x. rewrite (H2 x), (H1 x).
  destruct (decide (x ∈ L2)) as [Hin|Hout].
  - rewrite (bool_decide_eq_true_2 (x ∈ L2)) by done.
    rewrite bool_decide_eq_true_2; [done|]. apply elem_of_app. by right.
  - rewrite (bool_decide_eq_false_2 (x ∈ L2)) by done.
    destruct (decide (x ∈ L1)) as [Hin1|Hout1].
    + rewrite !bool_decide_eq_true_2; [done| |done]. apply elem_of_app. by left.
    + rewrite !bool_decide_eq_false_2; [done| |done].
      intros [?|?]%elem_of_app; done.
Qed.

Lemma removed_outside L (h h' : gmap addr FileInfo) x :
  removed L h h' -> x ∉ L -> h' !! x = h !! x.
Proof. intros H Hx. rewrite (H x). by rewrite bool_decide_eq_false_2. Qed.

Lemma dots_addrs t x : x ∈ dots t -> x ∈ addrs t.
Proof.
  revert x. induction t as [a kids dot dotKids IHk IHd] using Tree_ind'. intros x.
  simpl. intros [Hx|[Hx|Hx]%elem_of_app]%elem_of_app.
  - apply list_elem_of_further, elem_of_app. right. apply elem_of_app. by left.
  - apply list_elem_of_bind in Hx as (k & Hx & Hk).
    rewrite Forall_forall in IHk. eapply addrs_kid; [done|]. by apply IHk.
  - apply list_elem_of_bind in Hx as (k & Hx & Hk).
    rewrite Forall_forall in IHd. eapply addrs_dotKid; [done|]. by apply IHd.
Qed.

Lemma plainDots_ext (h h' : gmap addr FileInfo) t :
  (forall x, x ∈ addrs t -> h' !! x = h !! x) -> plainDots h t -> plainDots h' t.
Proof.
  intros Hs Hp x Hx. rewrite Hs by (by apply dots_addrs). by apply Hp.
Qed.

Lemma plainDots_item (h : gmap addr FileInfo) t k :
  plainDots h t -> k ∈ items t -> plainDots h k.
Proof.
  intros Hp Hk x Hx. apply Hp. destruct t as [a kids dot dotKids]. simpl in *.
  apply elem_of_app. right. apply elem_of_app in Hk as [Hk|Hk].
  - apply elem_of_app. left. apply list_elem_of_bind. eauto.
  - apply elem_of_app. right. apply list_elem_of_bind. eauto.
Qed.

Lemma repr_same (h h' : gmap addr FileInfo) t :
  (forall x, x ∈ addrs t -> h' !! x = h !! x) -> repr h t -> repr h' t.
Proof. intros Hs. apply repr_ext. intros x Hx. by rewrite Hs. Qed.

(** The loop deletes the children one after the other; each [next()] is
    read before the child is deleted. *)
Lemma deleteChildrenWith_spec del ks :
  Forall (fun k => forall w, repr (heap w) k -> plainDots (heap w) k ->
            exists h', del (root k) w = Some (tt, with_heap h' w) /\
                       removed (addrs k) (heap w) h') ks ->
  forall w p n,
    lseg (heap w) p (root <$> ks) None ->
    Forall (repr (heap w)) ks -> Forall (plainDots (heap w)) ks ->
    NoDup (ks ≫= addrs) -> (length ks <= n)%nat ->
    exists h',
      deleteChildrenWith del n p w = Some (tt, with_heap h' w) /\
      removed (ks ≫= addrs) (heap w) h'.
Proof.
  induction ks as [|k ks IH]; intros Hdel w p n Hl Hr Hp Hnd Hn.
  - simpl in Hl. subst p. exists (heap w). rewrite with_heap_id.
    split; [by destruct n|apply removed_nil].
  - apply Forall_cons in Hdel as [Hk Hdel]. apply Forall_cons in Hr as [Hrk Hr].
    apply Forall_cons in Hp as [Hpk Hp].
    rewrite bind_cons in Hnd. apply NoDup_app in Hnd as (Nk & Dk & Nks).
    rewrite fmap_cons in Hl. simpl in Hl. destruct Hl as (-> & cf & Ecf & Hl).
    destruct n as [|n]; [simpl in Hn; lia|]. simpl.
    rewrite (bind_eq _ _ _ _ _ (deref_eq _ _ _ Ecf)).
    destruct (Hk w Hrk Hpk) as (h1 & E1 & R1).
    rewrite (bind_eq _ _ _ _ _ E1).
    assert (forall k' x, k' ∈ ks -> x ∈ addrs k' -> h1 !! x = heap w !! x) as Hsame.
    { intros k' x Hk' Hx. apply (removed_outside _ _ _ _ R1).
      intros Hin. apply (Dk x Hin). apply list_elem_of_bind. eauto. }
    destruct (IH Hdel (with_heap h1 w) (next cf) n) as (h2 & E2 & R2).
    + simpl. eapply lseg_ext; [|exact Hl].
      intros a fa (k' & -> & Hk')%list_elem_of_fmap Ea. exists fa.
      rewrite (Hsame k'); [done|done|apply root_in_addrs].
    + simpl. apply Forall_forall. intros k' Hk'. rewrite Forall_forall in Hr.
      eapply repr_same; [|by apply Hr]. intros x Hx. by apply (Hsame k').
    + simpl. apply Forall_forall. intros k' Hk'. rewrite Forall_forall in Hp.
      eapply plainDots_ext; [|by apply Hp]. intros x Hx. by apply (Hsame k').
    + done.
    + simpl in Hn. lia.
    + exists h2. split; [exact E2|]. exact (removed_app _ _ _ _ _ R1 R2).
Qed.

(** Deleting a [DirInfo] whose children are the subtrees [ks]: after the
    loop, the children are gone, and the dot entry and the node itself
    are left to delete. *)
Lemma deleteObject_children w a fi d f ks :
  heap w !! a = Some fi -> _dir fi = Some d ->
  lseg (heap w) (_firstChild d) (root <$> ks) None ->
  Forall (repr (heap w)) ks -> Forall (plainDots (heap w)) ks ->
  NoDup (ks ≫= addrs) -> a ∉ ks ≫= addrs -> (length ks <= f)%nat ->
  Forall (fun k => forall w, repr (heap w) k -> plainDots (heap w) k ->
            exists h', deleteObject f (root k) w = Some (tt, with_heap h' w) /\
                       removed (addrs k) (heap w) h') ks ->
  exists h2,
    removed (ks ≫= addrs) (<[a := set_dir (set_beingDestroyed true d) fi]> (heap w)) h2 /\
    deleteObject (S f) a w
    = (run (match _dotEntry d with
            | Some dot => deleteObject f dot
            | None => ret tt
            end) in free a) (with_heap h2 w).
Proof.
  intros H1 H2 Hl Hr Hp Hnd Ha Hf Hdel. rewrite deleteObject_unfold.
  rewrite (bind_eq _ _ _ _ _ (deref_eq _ _ _ H1)), H2.
  rewrite (bind_eq _ _ _ _ _ (modifyDir_eq _ _ (set_beingDestroyed true) _ _ H1 H2)).
  set (w1 := with_heap (<[a := set_dir (set_beingDestroyed true d) fi]> (heap w)) w).
  assert (forall k x, k ∈ ks -> x ∈ addrs k -> heap w1 !! x = heap w !! x) as Hsame.
  { intros k x Hk Hx. subst w1. simpl. apply lookup_insert_ne.
    intros ->. apply Ha. apply list_elem_of_bind. eauto. }
  erewrite bind_eq
    by (eapply derefDir_eq; [subst w1; simpl; apply lookup_insert_eq|reflexivity]).
  assert (_firstChild (set_beingDestroyed true d) = _firstChild d) as ->
    by (by destruct d).
  destruct (deleteChildrenWith_spec (deleteObject f) ks Hdel w1 (_firstChild d) f)
    as (h2 & E2 & R2).
  - eapply lseg_ext; [|exact Hl].
    intros x fx (k & -> & Hk)%list_elem_of_fmap Ex. exists fx.
    rewrite (Hsame k); [done|done|apply root_in_addrs].
  - apply Forall_forall. intros k Hk. rewrite Forall_forall in Hr.
    eapply repr_same; [|by apply Hr]. intros x Hx. by apply (Hsame k).
  - apply Forall_forall. intros k Hk. rewrite Forall_forall in Hp.
    eapply plainDots_ext; [|by apply Hp]. intros x Hx. by apply (Hsame k).
  - done.
  - done.
  - exists h2. split; [exact R2|].
    rewrite (bind_eq _ _ _ _ _ E2).
    assert (h2 !! a = Some (set_dir (set_beingDestroyed true d) fi)) as Ea2.
    { rewrite (removed_outside _ _ _ _ R2 Ha). subst w1. simpl.
      apply lookup_insert_eq. }
    erewrite bind_eq by (eapply derefDir_eq; [exact Ea2|reflexivity]).
    assert (_dotEntry (set_beingDestroyed true d) = _dotEntry d) as ->
      by (by destruct d).
    reflexivity.
Qed.

Lemma removed_insert_delete L (h h' : gmap addr FileInfo) a v :
  removed L (<[a := v]> h) h' -> removed (a :: L) h (delete a h').
Proof.
  intros H x. destruct (decide (x = a)) as [->|Hne].
  - rewrite lookup_delete_eq. rewrite bool_decide_eq_true_2; [done|].
    apply list_elem_of_here.
  - rewrite lookup_delete_ne by done. rewrite (H x).
    rewrite lookup_insert_ne by done.
    destruct (decide (x ∈ L)) as [Hin|Hout].
    + rewrite !bool_decide_eq_true_2; [done| |done]. by apply list_elem_of_further.
    + rewrite !bool_decide_eq_false_2; [done| |done].
      intros [?|?]%elem_of_cons; done.
Qed.

Lemma repr_inv (h : gmap addr FileInfo) a kids dot dks :
  repr h (Node a kids dot dks) ->
  exists fi, h !! a = Some fi /\
    ((_dir fi = None /\ kids = [] /\ dot = None /\ dks = []) \/
     (exists d, _dir fi = Some d /\ _dotEntry d = dot /\
        lseg h (_firstChild d) (root <$> kids) None /\
        Forall (repr h) kids /\ Forall (repr h) dks /\
        match dot with
        | None => dks = []
        | Some dt =>
            exists dfi dd, h !! dt = Some dfi /\ _dir dfi = Some dd /\
                           lseg h (_firstChild dd) (root <$> dks) None
        end)).
Proof.
  intros Hr. remember (Node a kids dot dks) as t eqn:Et.
  destruct Hr as [a' fi E1 E2 | a' fi d kids' dks' E1 E2 Hlk Hk Hdot Hdk].
  - injection Et as -> <- <- <-. exists fi. split; [done|]. by left.
  - injection Et as -> -> Edot ->. exists fi. split; [done|]. right.
    exists d. rewrite Edot in Hdot. done.
Qed.

(** What [delete] does on the root of a subtree. *)
Lemma deleteObject_spec t : forall w fuel,
  repr (heap w) t -> NoDup (addrs t) -> plainDots (heap w) t ->
  (2 * treeFuel t <= fuel)%nat ->
  exists h', deleteObject fuel (root t) w = Some (tt, with_heap h' w) /\
             removed (addrs t) (heap w) h'.
Proof.
  induction t as [a kids dot dks IHk IHd] using Tree_ind'.
  intros w fuel Hr Hnd Hp Hf.
  pose proof (treeFuel_items (Node a kids dot dks)) as Hlen.
  simpl items in Hlen. rewrite length_app in Hlen. simpl root.
  destruct fuel as [|f]; [lia|].
  destruct (repr_inv _ _ _ _ _ Hr) as (fi & H1 & [(H2 & -> & -> & ->)
    | (d & H2 & Edot & Hlk & Hrk & Hrd & Hdot)]).
  { rewrite deleteObject_unfold.
    rewrite (bind_eq _ _ _ _ _ (deref_eq _ _ _ H1)), H2, (free_eq _ _ _ H1).
    eexists. split; [reflexivity|].
    apply (removed_insert_delete [] (heap w) _ a fi).
    rewrite insert_id by done. apply removed_nil. }
  pose proof Hnd as Hnd'. simpl in Hnd'.
  apply NoDup_cons in Hnd' as [Ha Hnd'].
  apply NoDup_app in Hnd' as (Nk & Dk & Nrest).
  apply NoDup_app in Nrest as (Ndot & Ddot & Nd).
  assert (forall ks f', (forall k, k ∈ ks -> k ∈ kids ++ dks) ->
            Forall (fun k => forall w fuel, repr (heap w) k -> NoDup (addrs k) ->
                      plainDots (heap w) k -> (2 * treeFuel k <= fuel)%nat ->
                      exists h', deleteObject fuel (root k) w
                                 = Some (tt, with_heap h' w) /\
                                 removed (addrs k) (heap w) h') ks ->
            NoDup (ks ≫= addrs) -> (2 * treeFuel (Node a kids dot dks) <= f' + 2)%nat ->
            Forall (fun k => forall w, repr (heap w) k -> plainDots (heap w) k ->
                      exists h', deleteObject f' (root k) w
                                 = Some (tt, with_heap h' w) /\
                                 removed (addrs k) (heap w) h') ks) as Hih.
  { intros ks f' Hsub IH Nks Hf'. apply Forall_forall. intros k Hk w0 Hr0 Hp0.
    rewrite Forall_forall in IH. apply (IH k Hk); [done| |done|].
    - clear -Nks Hk. induction ks as [|k0 ks IHks]; [by apply elem_of_nil in Hk|].
      apply NoDup_bind_cons in Nks as (N0 & Nl & _).
      apply elem_of_cons in Hk as [->|Hk]; auto.
    - pose proof (treeFuel_item (Node a kids dot dks) k (Hsub k Hk)). lia. }
  assert (a ∉ kids ≫= addrs) as Hak.
  { intros Hin. apply Ha. apply elem_of_app. by left. }
  destruct (deleteObject_children w a fi d f kids H1 H2 Hlk Hrk) as (h2 & R2 & E2).
  { apply Forall_forall. intros k Hk. eapply plainDots_item; [exact Hp|].
    simpl. apply elem_of_app. by left. }
  { done. }
  { done. }
  { lia. }
  { apply Hih; [|done|done|lia]. intros k Hk. apply elem_of_app. by left. }
  rewrite E2, Edot.
  assert (h2 !! a = Some (set_dir (set_beingDestroyed true d) fi)) as Ea2.
  { rewrite (removed_outside _ _ _ _ R2 Hak). apply lookup_insert_eq. }
  destruct dot as [dt|].
  - destruct Hdot as (dfi & dd & D1 & D2 & Hld).
    assert (dt ≠ a) as Hdta.
    { intros ->. apply Ha. apply elem_of_app. right. apply list_elem_of_here. }
    assert (dt ∉ kids ≫= addrs) as Hdtk.
    { intros Hin. apply (Dk dt Hin). apply list_elem_of_here. }
    assert (dt ∉ dks ≫= addrs) as Hdtd.
    { simpl in Ndot. intros Hin. apply (Ddot dt); [apply list_elem_of_here|done]. }
    assert (forall x, x ∈ dks ≫= addrs -> h2 !! x = heap w !! x) as Hsame.
    { intros x Hx. rewrite (removed_outside _ _ _ _ R2).
      - apply lookup_insert_ne. intros ->. apply Ha. apply elem_of_app. right.
        apply list_elem_of_further. done.
      - intros Hin. apply (Dk x Hin). apply list_elem_of_further. done. }
    assert (h2 !! dt = Some dfi) as Edt2.
    { rewrite (removed_outside _ _ _ _ R2 Hdtk).
      rewrite lookup_insert_ne by done. exact D1. }
    assert (_dotEntry dd = None) as Edd.
    { destruct (Hp dt) as (dfi' & dd' & F1 & F2 & F3).
      - simpl. apply list_elem_of_here.
      - congruence. }
    destruct f as [|f']; [lia|].
    destruct (deleteObject_children (with_heap h2 w) dt dfi dd f' dks Edt2 D2)
      as (h3 & R3 & E3).
    { simpl. eapply lseg_ext; [|exact Hld].
      intros x fx (k & -> & Hk)%list_elem_of_fmap Ex. exists fx.
      rewrite Hsame; [done|]. apply list_elem_of_bind. exists k.
      split; [apply root_in_addrs|done]. }
    { simpl. apply Forall_forall. intros k Hk. rewrite Forall_forall in Hrd.
      eapply repr_same; [|by apply Hrd]. intros x Hx. apply Hsame.
      apply list_elem_of_bind. eauto. }
    { simpl. apply Forall_forall. intros k Hk.
      eapply plainDots_ext; [|eapply plainDots_item; [exact Hp|]].
      - intros x Hx. apply Hsame. apply list_elem_of_bind. eauto.
      - simpl. apply elem_of_app. by right. }
    { done. }
    { done. }
    { lia. }
    { apply Hih; [|done|done|lia]. intros k Hk. apply elem_of_app. by right. }
    assert (deleteObject (S f') dt (with_heap h2 w)
            = Some (tt, with_heap (delete dt h3) w)) as Edel.
    { rewrite E3, Edd. unfold bind at 1. simpl.
      erewrite free_eq; [reflexivity|]. simpl.
      rewrite (removed_outside _ _ _ _ R3 Hdtd). apply lookup_insert_eq. }
    rewrite (bind_eq _ _ _ _ _ Edel).
    erewrite free_eq.
    2:{ simpl. rewrite lookup_delete_ne by done.
        rewrite (removed_outside _ _ _ _ R3).
        - rewrite lookup_insert_ne by done. exact Ea2.
        - intros Hin. apply Ha. apply elem_of_app. right.
          by apply list_elem_of_further. }
    eexists. split; [reflexivity|]. simpl.
    apply (removed_insert_delete _ (heap w) _ a
             (set_dir (set_beingDestroyed true d) fi)).
    eapply removed_app; [exact R2|].
    eapply removed_insert_delete. exact R3.
  - subst dks. unfold bind at 1. simpl.
    erewrite free_eq by (simpl; exact Ea2).
    eexists. split; [reflexivity|]. simpl. rewrite app_nil_r.
    eapply removed_insert_delete. exact R2.
Qed.

(** X12: the destructor.  [delete] on the root of a subtree whose dot
    entries own no dot entry returns; every object of the subtree (the
    root, its children and their subtrees, its dot entry and the
    subtrees of the dot entry's children) is freed, each once, and no
    other object changes: in particular the parent of the root still
    lists it, unless [deletingChild()] was called before. *)
Theorem deleteObject_frees_subtree t w fuel :
  repr (heap w) t -> NoDup (addrs t) -> plainDots (heap w) t ->
  (2 * treeFuel t <= fuel)%nat ->
  exists h',
    deleteObject fuel (root t) w = Some (tt, with_heap h' w) /\
    (forall x, x ∈ addrs t -> is_Some (heap w !! x) /\ h' !! x = None) /\
    (forall x, x ∉ addrs t -> h' !! x = heap w !! x).
Proof.
  intros Hr Hnd Hp Hf.
  destruct (deleteObject_spec t w fuel Hr Hnd Hp Hf) as (h' & E & R).
  exists h'. split; [exact E|]. split.
  - intros x Hx. split.
    + clear -Hr Hx. revert x Hx Hr.
      induction t as [a kids dot dks IHk IHd] using Tree_ind'. intros x Hx Hr.
      destruct (repr_inv _ _ _ _ _ Hr) as (fi & H1 & [(H2 & -> & -> & ->)
        | (d & H2 & Edot & Hlk & Hrk & Hrd & Hdot)]).
      * simpl in Hx. apply elem_of_cons in Hx as [->|Hx]; [eauto|].
        by apply elem_of_nil in Hx.
      * simpl in Hx. rewrite Forall_forall in IHk, IHd, Hrk, Hrd.
        apply elem_of_cons in Hx as [->|[Hx|[Hx|Hx]%elem_of_app]%elem_of_app];
          [eauto| | |].
        -- apply list_elem_of_bind in Hx as (k & Hx & Hk). eapply IHk; eauto.
        -- destruct dot as [dt|]; [|by apply elem_of_nil in Hx].
           apply list_elem_of_singleton in Hx as ->.
           destruct Hdot as (dfi & dd & D1 & _). eauto.
        -- apply list_elem_of_bind in Hx as (k & Hx & Hk). eapply IHd; eauto.
    + rewrite (R x). by rewrite bool_decide_eq_true_2.
  - intros x Hx. by apply (removed_outside _ _ _ _ R).
Qed.

(** Deleting the root of the scenario frees all six objects. *)
Lemma deleteObject_frees_subtree_witness :
  exists h',
    deleteObject 8 1 (scenarioWorld 10 20)
    = Some (tt, with_heap h' (scenarioWorld 10 20)) /\
    h' = ∅.
Proof.
  destruct (deleteObject_frees_subtree scenarioTree (scenarioWorld 10 20) 8)
    as (h' & E & Hin & Hout).
  - solve_repr.
  - solve_NoDup.
  - intros x Hx. vm_compute in Hx.
    apply elem_of_cons in Hx as [->|Hx]; [eexists _, _; vm_compute; eauto|].
    apply elem_of_cons in Hx as [->|Hx]; [eexists _, _; vm_compute; eauto|].
    apply elem_of_nil in Hx. destruct Hx.
  - vm_compute. lia.
  - exists h'. split; [exact E|].
    assert (Some (tt, with_heap h' (scenarioWorld 10 20))
            = deleteObject 8 1 (scenarioWorld 10 20)) as E' by (symmetry; exact E).
    vm_compute in E'. injection E' as ->. reflexivity.
Defined.

(** * Finalizing a subtree *)

Lemma finalizeAll_unfold fuel this :
  finalizeAll (S fuel) this
  = (let* d := derefDir this in
     if _isDotEntry d then ret tt
     else
       run forEachChild fuel (finalizeChildWith (finalizeAll fuel)) (_firstChild d) in
       run sendFinalizeLocal this in
       finalizeLocal fuel this).
Proof. reflexivity. Qed.

Lemma isDirNode_agree (h1 h2 : gmap addr FileInfo) x :
  h1 !! x = h2 !! x -> isDirNode h1 x = isDirNode h2 x.
Proof. unfold isDirNode. by intros ->. Qed.

Lemma finalized_agree (h1 h2 : gmap addr FileInfo) t :
  (forall x, x ∈ addrs t -> h1 !! x = h2 !! x) -> finalized h1 t = finalized h2 t.
Proof.
  induction t as [a kids dot dks IHk IHd] using Tree_ind'. intros Hag. simpl.
  rewrite (isDirNode_agree h1 h2 a) by (apply Hag, list_elem_of_here).
  destruct (isDirNode h2 a); [|done]. f_equal.
  apply bind_ext_in. intros k Hk. rewrite Forall_forall in IHk.
  apply (IHk k Hk). intros x Hx. apply Hag. by eapply addrs_kid.
Qed.

Lemma finalized_addrs (h : gmap addr FileInfo) t x :
  x ∈ finalized h t -> x ∈ addrs t /\ isDirNode h x = true.
Proof.
  revert x. induction t as [a kids dot dks IHk IHd] using Tree_ind'. intros x.
  simpl. destruct (isDirNode h a) eqn:E; [|by intros ?%elem_of_nil].
  intros [Hx|Hx]%elem_of_app.
  - apply list_elem_of_bind in Hx as (k & Hx & Hk). rewrite Forall_forall in IHk.
    destruct (IHk k Hk x Hx) as [H1 H2]. split; [|done].
    apply list_elem_of_further, elem_of_app. left. apply list_elem_of_bind. eauto.
  - apply list_elem_of_singleton in Hx as ->. split; [apply list_elem_of_here|done].
Qed.

Lemma collapsedIn_agree A (h h' : gmap addr FileInfo) x :
  collapsedIn A h x -> (forall y, y ∈ A -> h' !! y = h !! y) -> x ∈ A ->
  collapsedIn A h' x.
Proof.
  intros Hc Hag Hx fi d dt E Ed Edot. rewrite (Hag x Hx) in E.
  destruct (Hc fi d dt E Ed Edot) as (Hdt & Hfc & dfi & dd & D1 & D2 & D3).
  split; [done|]. split; [done|]. exists dfi, dd. by rewrite (Hag dt Hdt).
Qed.

Lemma collapsedIn_mono A B (h : gmap addr FileInfo) x :
  collapsedIn A h x -> (forall y, y ∈ A -> y ∈ B) -> collapsedIn B h x.
Proof.
  intros Hc Hsub fi d dt E Ed Edot.
  destruct (Hc fi d dt E Ed Edot) as (Hdt & Hrest). split; [auto|done].
Qed.

Lemma forEachChild_spec body ks :
  Forall (finalizesChild body) ks ->
  forall w p n,
    lseg (heap w) p (root <$> ks) None ->
    Forall (repr (heap w)) ks -> Forall (plainDots (heap w)) ks ->
    NoDup (ks ≫= addrs) -> (length ks <= n)%nat ->
    exists h',
      forEachChild n body p w
      = Some (tt, mkWorld h' (errors w)
                    (rev (ks ≫= finalized (heap w)) ++ finalizeLocalSent w)
                    (recalcs w)) /\
      (forall x, x ∉ ks ≫= addrs -> h' !! x = heap w !! x) /\
      (forall k x, k ∈ ks -> x ∈ finalized (heap w) k -> collapsedIn (addrs k) h' x).
Proof.
  induction ks as [|k ks IH]; intros Hbody w p n Hl Hr Hp Hnd Hn.
  - simpl in Hl. subst p. exists (heap w). split; [by destruct n, w|].
    split; [done|]. intros k x Hk. by apply elem_of_nil in Hk.
  - apply Forall_cons in Hbody as [Hk Hbody]. apply Forall_cons in Hr as [Hrk Hr].
    apply Forall_cons in Hp as [Hpk Hp].
    rewrite bind_cons in Hnd. apply NoDup_app in Hnd as (Nk & Dk & Nks).
    rewrite fmap_cons in Hl. simpl in Hl. destruct Hl as (-> & cf & Ecf & Hl).
    destruct n as [|n]; [simpl in Hn; lia|].
    destruct (Hk w Hrk Hpk) as (h1 & E1 & F1 & (fi & fi' & G1 & G2 & G3) & C1).
    assert (fi = cf) as -> by congruence.
    assert (forall k' x, k' ∈ ks -> x ∈ addrs k' -> h1 !! x = heap w !! x) as Hsame.
    { intros k' x Hk' Hx. apply F1. intros Hin. apply (Dk x Hin).
      apply list_elem_of_bind. eauto. }
    set (w1 := mkWorld h1 (errors w)
                 (rev (finalized (heap w) k) ++ finalizeLocalSent w) (recalcs w)).
    destruct (IH Hbody w1 (next cf) n) as (h2 & E2 & F2 & C2).
    + simpl. eapply lseg_ext; [|exact Hl].
      intros a fa (k' & -> & Hk')%list_elem_of_fmap Ea. exists fa.
      rewrite (Hsame k'); [done|done|apply root_in_addrs].
    + simpl. apply Forall_forall. intros k' Hk'. rewrite Forall_forall in Hr.
      eapply repr_same; [|by apply Hr]. intros x Hx. by apply (Hsame k').
    + simpl. apply Forall_forall. intros k' Hk'. rewrite Forall_forall in Hp.
      eapply plainDots_ext; [|by apply Hp]. intros x Hx. by apply (Hsame k').
    + done.
    + simpl in Hn. lia.
    + exists h2. split.
      * change (forEachChild (S n) body (Some (root k)) w)
          with ((run body (root k) in
                 let* cf := deref (root k) in forEachChild n body (next cf)) w).
        rewrite (bind_eq _ _ _ _ _ E1). fold w1.
        rewrite (bind_eq _ _ _ _ _ (deref_eq w1 _ _ G2)).
        unfold next. rewrite G3. fold (next cf). rewrite E2.
        assert (rev (ks ≫= finalized h1) ++ rev (finalized (heap w) k)
                  ++ finalizeLocalSent w
                = rev ((k :: ks) ≫= finalized (heap w)) ++ finalizeLocalSent w)
          as Hlist.
        { rewrite bind_cons, rev_app_distr, <- app_assoc. f_equal.
          f_equal. apply bind_ext_in. intros k' Hk'.
          apply finalized_agree. intros x Hx. by apply (Hsame k'). }
        subst w1. cbn [heap errors finalizeLocalSent recalcs].
        by rewrite Hlist.
      * split.
        -- intros x Hx. rewrite F2.
           ++ simpl. apply F1. intros Hin. apply Hx. rewrite bind_cons.
              apply elem_of_app. by left.
           ++ intros Hin. apply Hx. rewrite bind_cons. apply elem_of_app. by right.
        -- intros k' x [->|Hk']%elem_of_cons Hx.
           ++ eapply collapsedIn_agree; [apply (C1 x Hx)| |].
              ** intros y Hy. apply F2. intros Hin. by apply (Dk y Hy).
              ** by apply (finalized_addrs (heap w)).
           ++ apply (C2 k' x Hk'). simpl.
              rewrite (finalized_agree h1 (heap w) k'); [done|].
              intros y Hy. by apply (Hsame k').
Qed.

Lemma world_eta w : mkWorld (heap w) (errors w) (finalizeLocalSent w) (recalcs w) = w.
Proof. by destruct w. Qed.

Lemma finalizeChild_spec t : forall fuel,
  (treeFuel t <= fuel)%nat -> NoDup (addrs t) ->
  finalizesChild (finalizeChildWith (finalizeAll fuel)) t.
Proof.
  induction t as [a kids dot dks IHk IHd] using Tree_ind'.
  intros fuel Hf Hnd w Hr Hp. unfold finalizeChildWith. simpl root.
  pose proof (treeFuel_items (Node a kids dot dks)) as Hlen.
  simpl items in Hlen. rewrite length_app in Hlen.
  destruct (repr_inv _ _ _ _ _ Hr) as (fi & H1 & Hcases).
  rewrite (bind_eq _ _ _ _ _ (deref_eq _ _ _ H1)).
  assert (isDirNode (heap w) a = false ->
          exists h',
            Some (tt, w)
            = Some (tt, mkWorld h' (errors w)
                          (rev (finalized (heap w) (Node a kids dot dks))
                           ++ finalizeLocalSent w) (recalcs w)) /\
            (forall x, x ∉ addrs (Node a kids dot dks) -> h' !! x = heap w !! x) /\
            (exists fi0 fi', heap w !! a = Some fi0 /\ h' !! a = Some fi' /\
                             _next fi' = _next fi0) /\
            (forall x, x ∈ finalized (heap w) (Node a kids dot dks) ->
               collapsedIn (addrs (Node a kids dot dks)) h' x)) as Hskip.
  { intros Hno. exists (heap w). simpl. rewrite Hno. simpl. rewrite world_eta.
    split; [done|]. split; [done|]. split; [by exists fi, fi|].
    intros x Hx. by apply elem_of_nil in Hx. }
  destruct Hcases as [(H2 & -> & -> & ->) | (d & H2 & Edot & Hlk & Hrk & Hrd & Hdot)].
  { rewrite H2. apply Hskip. unfold isDirNode. by rewrite H1, H2. }
  rewrite H2.
  destruct (_isDotEntry d) eqn:Eis;
    [change (negb true) with false|change (negb false) with true]; cbv match.
  { apply Hskip. unfold isDirNode. by rewrite H1, H2, Eis. }
  clear Hskip.
  assert (isDirNode (heap w) a = true) as Hyes
    by (unfold isDirNode; by rewrite H1, H2, Eis).
  pose proof Hnd as Hnd'. simpl in Hnd'.
  apply NoDup_cons in Hnd' as [Ha Hnd'].
  apply NoDup_app in Hnd' as (Nk & Dk & Nrest).
  apply NoDup_app in Nrest as (Ndot & Ddot & Nd).
  assert (a ∉ kids ≫= addrs) as Hak.
  { intros Hin. apply Ha. apply elem_of_app. by left. }
  destruct fuel as [|f]; [simpl in Hf; lia|].
  rewrite finalizeAll_unfold.
  rewrite (bind_eq _ _ _ _ _ (derefDir_eq _ _ _ _ H1 H2)), Eis.
  destruct (forEachChild_spec (finalizeChildWith (finalizeAll f)) kids)
    with (w := w) (p := _firstChild d) (n := f) as (h1 & E1 & F1 & C1).
  { apply Forall_forall. intros k Hk. rewrite Forall_forall in IHk.
    apply (IHk k Hk).
    - pose proof (treeFuel_item (Node a kids dot dks) k) as Hlt.
      simpl items in Hlt. specialize (Hlt ltac:(apply elem_of_app; by left)). lia.
    - clear -Nk Hk. induction kids as [|k0 ks IHks]; [by apply elem_of_nil in Hk|].
      apply NoDup_bind_cons in Nk as (N0 & Nl & _).
      apply elem_of_cons in Hk as [->|Hk]; auto. }
  { done. }
  { done. }
  { apply Forall_forall. intros k Hk. eapply plainDots_item; [exact Hp|].
    simpl. apply elem_of_app. by left. }
  { done. }
  { lia. }
  rewrite (bind_eq _ _ _ _ _ E1). unfold sendFinalizeLocal at 1.
  unfold bind at 1. cbn [heap errors finalizeLocalSent recalcs]. unfold finalizeLocal.
  set (sent := a :: rev (kids ≫= finalized (heap w)) ++ finalizeLocalSent w).
  assert (rev (finalized (heap w) (Node a kids dot dks)) ++ finalizeLocalSent w = sent)
    as ->.
  { simpl. rewrite Hyes. by rewrite rev_app_distr. }
  assert (h1 !! a = Some fi) as Ea1 by (by rewrite (F1 a Hak)).
  assert (forall hF,
            (forall y, y ∈ kids ≫= addrs -> hF !! y = h1 !! y) ->
            collapsedIn (addrs (Node a kids dot dks)) hF a ->
            forall x, x ∈ finalized (heap w) (Node a kids dot dks) ->
              collapsedIn (addrs (Node a kids dot dks)) hF x) as Hpost.
  { intros hF Hag Hroot x Hx. simpl in Hx. rewrite Hyes in Hx.
    apply elem_of_app in Hx as [Hx|Hx];
      [|by apply list_elem_of_singleton in Hx as ->].
    apply list_elem_of_bind in Hx as (k & Hx & Hk).
    eapply collapsedIn_mono;
      [eapply collapsedIn_agree; [apply (C1 k x Hk Hx)| |]|].
    - intros y Hy. apply Hag. apply list_elem_of_bind; eauto.
    - by apply (finalized_addrs (heap w)).
    - intros y Hy. by eapply addrs_kid. }
  destruct dot as [dt|].
  - destruct Hdot as (dfi & dd & D1 & D2 & Hld).
    assert (dt ≠ a) as Hdta.
    { intros ->. apply Ha. apply elem_of_app. right. apply list_elem_of_here. }
    assert (dt ∉ kids ≫= addrs) as Hdtk.
    { intros Hin. apply (Dk dt Hin). apply list_elem_of_here. }
    assert (dt ∉ dks ≫= addrs) as Hdtd.
    { intros Hin. apply (Ddot dt); [apply list_elem_of_here|done]. }
    assert (h1 !! dt = Some dfi) as Edt1 by (by rewrite (F1 dt Hdtk)).
    assert (_dotEntry dd = None) as Edd.
    { destruct (Hp dt) as (dfi' & dd' & G1 & G2 & G3).
      - simpl. apply list_elem_of_here.
      - congruence. }
    destruct kids as [|k kids'].
    + simpl in Hlk.
      destruct (cleanupDotEntries_reparents h1 a fi d dt dfi dd (root <$> dks) f)
        as (h2 & E2 & _ & _ & _ & Ht & Hout); try done.
      * eapply lseg_ext; [|exact Hld]. intros x fx Hx Ex. exists fx.
        by rewrite F1 by (by intros ?%elem_of_nil).
      * intros (k & -> & Hk)%list_elem_of_fmap. apply Ha. apply elem_of_app.
        right. apply list_elem_of_further. apply list_elem_of_bind.
        exists k. split; [apply root_in_addrs|done].
      * intros (k & -> & Hk)%list_elem_of_fmap. apply Hdtd.
        apply list_elem_of_bind. exists k. split; [apply root_in_addrs|done].
      * rewrite length_fmap. lia.
      * exists h2. split; [apply E2|]. split; [|split].
        -- intros x Hx. rewrite Hout; [by apply F1; intros ?%elem_of_nil| | |].
           ++ intros ->. apply Hx. apply list_elem_of_here.
           ++ intros ->. apply Hx. simpl. apply list_elem_of_further.
              apply list_elem_of_here.
           ++ intros (k & -> & Hk)%list_elem_of_fmap. apply Hx.
              eapply addrs_dotKid; [done|apply root_in_addrs].
        -- exists fi. eexists. split; [done|]. split; [exact Ht|done].
        -- apply Hpost; [by intros y ?%elem_of_nil|].
           intros fa da dta Ea Eda Edota. rewrite Ht in Ea. injection Ea as <-.
           simpl in Eda. injection Eda as <-. discriminate Edota.
    + assert (_firstChild d <> None) as Hfc.
      { rewrite fmap_cons in Hlk. simpl in Hlk. destruct Hlk as [-> _]. done. }
      destruct f as [|f']; [lia|].
      rewrite (cleanupDotEntries_keeps_children
                 (mkWorld h1 (errors w) sent (recalcs w)) a fi d dt dfi dd f')
        by done.
      destruct (bool_decide (_firstChild dd = None)) eqn:Eb.
      * eexists. split; [reflexivity|]. split; [|split].
        -- intros x Hx. simpl.
           rewrite lookup_insert_ne, lookup_delete_ne.
           ++ apply F1. intros Hin. apply Hx. apply list_elem_of_further.
              apply elem_of_app. by left.
           ++ intros ->. apply Hx. apply list_elem_of_further.
              apply elem_of_app. right. apply list_elem_of_here.
           ++ intros ->. apply Hx. apply list_elem_of_here.
        -- exists fi. eexists. split; [done|]. split; [apply lookup_insert_eq|done].
        -- apply Hpost.
           ++ intros y Hy. simpl. rewrite lookup_insert_ne, lookup_delete_ne; [done| |].
              ** intros ->. done.
              ** intros ->. done.
           ++ intros fa da dta Ea Eda Edota. simpl in Ea.
              rewrite lookup_insert_eq in Ea. injection Ea as <-.
              simpl in Eda. injection Eda as <-. discriminate Edota.
      * exists h1. split; [reflexivity|]. split; [|split].
        -- intros x Hx. apply F1. intros Hin. apply Hx. apply list_elem_of_further.
           apply elem_of_app. by left.
        -- exists fi, fi. done.
        -- apply Hpost; [done|].
           intros fa da dta Ea Eda Edota.
           assert (fa = fi) as -> by congruence.
           assert (da = d) as -> by congruence.
           assert (dta = dt) as -> by congruence.
           split; [|split; [done|]].
           ++ simpl. apply list_elem_of_further. apply elem_of_app. right.
              apply list_elem_of_here.
           ++ exists dfi, dd. split; [done|]. split; [done|].
              by apply bool_decide_eq_false_1 in Eb.
  - rewrite (cleanupDotEntries_return (mkWorld h1 (errors w) sent (recalcs w)) a fi d f)
      by (done || by left).
    exists h1. split; [reflexivity|]. split; [|split].
    + intros x Hx. apply F1. intros Hin. apply Hx. apply list_elem_of_further.
      apply elem_of_app. by left.
    + exists fi, fi. done.
    + apply Hpost; [done|].
      intros fa da dta Ea Eda Edota.
      assert (fa = fi) as -> by congruence.
      assert (da = d) as -> by congruence. congruence.
Qed.

Lemma finalized_NoDup (h : gmap addr FileInfo) t :
  NoDup (addrs t) -> NoDup (finalized h t).
Proof.
  induction t as [a kids dot dks IHk IHd] using Tree_ind'. intros Hnd.
  simpl. destruct (isDirNode h a); [|constructor].
  simpl in Hnd. apply NoDup_cons in Hnd as [Ha Hnd].
  apply NoDup_app in Hnd as (Nk & _ & _).
  apply NoDup_app. split; [|split; [|apply NoDup_singleton]].
  - pose proof (NoDup_sub_bind (finalized h) addrs id kids) as HN.
    rewrite list_fmap_id in HN. apply HN; [| |done].
    + intros k Hk. rewrite list_fmap_id. rewrite Forall_forall in IHk. by apply IHk.
    + intros k x _. rewrite list_fmap_id. apply finalized_addrs.
  - intros x Hx ->%list_elem_of_singleton. apply Ha.
    apply list_elem_of_bind in Hx as (k & Hx & Hk).
    apply elem_of_app. left. apply list_elem_of_bind.
    exists k. split; [|done]. by apply (finalized_addrs h).
Qed.

(** X13: [finalizeAll()] on the root of a subtree whose dot entries own
    no dot entry.  On a directory that is not a dot entry the call
    returns; the tree is sent the finalize-local notification once for
    every directory reached from the root through children lists (dot
    entries and what they hold are passed over), for the directories
    below a directory before the directory itself and for the root
    last; nothing is logged, no [recalc()] is entered, and no object
    outside the subtree changes.  On a dot entry the call returns at
    once: nothing is sent and nothing changes. *)
Theorem finalizeAll_notifies_postorder :
  (forall t w fuel,
     repr (heap w) t -> NoDup (addrs t) -> plainDots (heap w) t ->
     isDirNode (heap w) (root t) = true -> (treeFuel t <= fuel)%nat ->
     exists h',
       finalizeAll fuel (root t) w
       = Some (tt, mkWorld h' (errors w)
                     (rev (finalized (heap w) t) ++ finalizeLocalSent w)
                     (recalcs w)) /\
       (forall x, x ∉ addrs t -> h' !! x = heap w !! x) /\
       NoDup (finalized (heap w) t) /\
       (forall x, x ∈ finalized (heap w) t ->
          x ∈ addrs t /\ isDirNode (heap w) x = true) /\
       last (finalized (heap w) t) = Some (root t)) /\
  (forall w a fi d fuel,
     heap w !! a = Some fi -> _dir fi = Some d -> _isDotEntry d = true ->
     finalizeAll (S fuel) a w = Some (tt, w)).
Proof.
  split.
  - intros t w fuel Hr Hnd Hp Hdir Hf.
    destruct (finalizeChild_spec t fuel Hf Hnd w Hr Hp) as (h' & E & F & _ & _).
    exists h'. split; [|split; [exact F|split; [by apply finalized_NoDup|split]]].
    + rewrite <- E. unfold finalizeChildWith, isDirNode in *.
      destruct (heap w !! root t) as [fi|] eqn:E1; [|done].
      rewrite (bind_eq _ _ _ _ _ (deref_eq _ _ _ E1)).
      destruct (_dir fi) as [d|]; [|done]. by rewrite Hdir.
    + intros x. apply finalized_addrs.
    + destruct t as [a kids dot dks]. simpl in *. rewrite Hdir.
      by rewrite last_snoc.
  - intros w a fi d fuel H1 H2 Hdot. rewrite finalizeAll_unfold.
    by rewrite (bind_eq _ _ _ _ _ (derefDir_eq _ _ _ _ H1 H2)), Hdot.
Qed.

(** In the scenario the tree is notified for [D] (address 4) and then
    for the root (the trace is newest first); on the dot entry of the
    root nothing happens. *)
Lemma finalizeAll_notifies_postorder_witness :
  (exists w', finalizeAll 4 1 (scenarioWorld 10 20) = Some (tt, w') /\
              finalizeLocalSent w' = [1; 4]%positive) /\
  finalizeAll 1 2 (scenarioWorld 10 20) = Some (tt, scenarioWorld 10 20).
Proof.
  destruct finalizeAll_notifies_postorder as [HA HB]. split.
  - destruct (HA scenarioTree (scenarioWorld 10 20) 4%nat) as (h' & E & _).
    + solve_repr.
    + solve_NoDup.
    + intros x Hx. vm_compute in Hx.
      apply elem_of_cons in Hx as [->|Hx]; [eexists _, _; vm_compute; eauto|].
      apply elem_of_cons in Hx as [->|Hx]; [eexists _, _; vm_compute; eauto|].
      apply elem_of_nil in Hx. destruct Hx.
    + vm_compute. reflexivity.
    + vm_compute. lia.
    + eexists. split; [exact E|]. vm_compute. reflexivity.
  - eapply (HB (scenarioWorld 10 20) 2%positive).
    + vm_compute. reflexivity.
    + reflexivity.
    + reflexivity.
Defined.

(** X16: what [finalizeAll()] is for.  After the call on a directory
    that is not a dot entry, no directory it notified is left with a
    degenerate dot entry: each of them that still owns a dot entry has
    at least one child of its own, and its dot entry has at least one
    child. *)
Theorem finalizeAll_collapses_dot_entries t w fuel :
  repr (heap w) t -> NoDup (addrs t) -> plainDots (heap w) t ->
  isDirNode (heap w) (root t) = true -> (treeFuel t <= fuel)%nat ->
  exists w',
    finalizeAll fuel (root t) w = Some (tt, w') /\
    forall x, x ∈ finalized (heap w) t -> collapsedIn (addrs t) (heap w') x.
Proof.
  intros Hr Hnd Hp Hdir Hf.
  destruct (finalizeChild_spec t fuel Hf Hnd w Hr Hp) as (h' & E & _ & _ & C).
  exists (mkWorld h' (errors w) (rev (finalized (heap w) t) ++ finalizeLocalSent w)
            (recalcs w)).
  split; [|exact C].
  rewrite <- E. unfold finalizeChildWith, isDirNode in *.
  destruct (heap w !! root t) as [fi|] eqn:E1; [|done].
  rewrite (bind_eq _ _ _ _ _ (deref_eq _ _ _ E1)).
  destruct (_dir fi) as [d|]; [|done]. by rewrite Hdir.
Qed.

(** In [twoFilesWorld] the root has no child of its own: after
    [finalizeAll()] it owns no dot entry. *)
Lemma finalizeAll_collapses_dot_entries_witness :
  exists w',
    finalizeAll 4 1 twoFilesWorld = Some (tt, w') /\
    collapsedIn [1; 2; 4; 3]%positive (heap w') 1 /\
    (_dotEntry <$> dirOf w' 1) = Some None.
Proof.
  destruct (finalizeAll_collapses_dot_entries
              (Node 1 [] (Some 2%positive) [Node 4 [] None []; Node 3 [] None []])
              twoFilesWorld 4) as (w' & E & C).
  - solve_repr.
  - solve_NoDup.
  - intros x Hx. vm_compute in Hx.
    apply elem_of_cons in Hx as [->|Hx]; [eexists _, _; vm_compute; eauto|].
    apply elem_of_nil in Hx. destruct Hx.
  - vm_compute. reflexivity.
  - vm_compute. lia.
  - exists w'. split; [exact E|]. split.
    + apply C. vm_compute. apply list_elem_of_here.
    + assert (Some (tt, w') = finalizeAll 4 1 twoFilesWorld) as E'
        by (symmetry; exact E).
      vm_compute in E'. injection E' as ->. vm_compute. reflexivity.
Defined.
